(** * Verification of the Scedel JSON validator (src/src/json-validator.js)

    A shallow embedding of [JsonValidator] and of the helper functions of
    json-validator.js, and of the script bin/validate-json.mjs, followed by
    the properties of the validator that the specification states and by
    further properties that the code shows.

    Modelling conventions.
    - A JavaScript string is a [string]; each character stands for one UTF-16
      code unit, so the model covers the strings whose code units are below
      256.
    - A JavaScript number is an IEEE-754 binary64 value, [spec_float] with
      precision 53 and maximal exponent 1024.
    - The fixed regular expressions of the source are written as terms of
      [Regex.regex] and run by a backtracking matcher.
    - What the validator asks of the JavaScript engine on arbitrary
      operands ([JSON.parse], [JSON.stringify], [String], [RegExp] on a
      pattern of the schema, the relational operators) is a parameter,
      [JsHost]; so is the repository.
    - A JSON object is an association list in the order of [Object.entries];
      an own property is looked up by key.
    - The mutable [errors] array that the walk pushes to is passed in and
      returned (explicit state passing).  To state what a call leaves
      behind, the methods are written a second time with the arrays as
      objects of a heap ([Mutable]), and shown to do the same.
    - The recursion of the walk through named types need not terminate
      (a type may refer to itself): the walk takes the depth of call stack
      it may use, and returns [None] when that depth is exceeded (the
      RangeError of the engine, which nothing in the file catches; the
      script does). *)

From Stdlib Require Import ZArith SpecFloat Ascii String List Bool Lia.
From stdpp Require Import base option list strings gmap.

Import ListNotations.
Local Open Scope string_scope.
Local Open Scope list_scope.

(** ** JavaScript strings *)

Module JsString.

Definition chars (s : string) : list ascii := list_ascii_of_string s.
Definition of_chars (cs : list ascii) : string := string_of_list_ascii cs.

Definition code (c : ascii) : N := N_of_ascii c.

Definition ascii_eqb (a b : ascii) : bool := Ascii.eqb a b.

Definition in_range (lo hi : ascii) (c : ascii) : bool :=
  (code lo <=? code c)%N && (code c <=? code hi)%N.

(** White space and line terminators, as [\s] and [String.prototype.trim]
    see them: TAB, LF, VT, FF, CR, SPACE and NO-BREAK SPACE (the members
    below code unit 256). *)
Definition is_space (c : ascii) : bool :=
  let n := code c in
  ((9 <=? n)%N && (n <=? 13)%N) || (n =? 32)%N || (n =? 160)%N.

Definition is_digit : ascii -> bool := in_range "0" "9".
Definition is_lower : ascii -> bool := in_range "a" "z".
Definition is_upper : ascii -> bool := in_range "A" "Z".

(** [[A-Za-z_]] and [[A-Za-z0-9_]]. *)
Definition is_ident_start (c : ascii) : bool :=
  is_upper c || is_lower c || ascii_eqb c "_".
Definition is_ident_char (c : ascii) : bool :=
  is_ident_start c || is_digit c.

Fixpoint drop_while (p : ascii -> bool) (cs : list ascii) : list ascii :=
  match cs with
  | c :: cs' => if p c then drop_while p cs' else cs
  | [] => []
  end.

Definition drop_spaces : list ascii -> list ascii := drop_while is_space.

(** [s.trim()] *)
Definition trim (s : string) : string :=
  of_chars (rev (drop_spaces (rev (drop_spaces (chars s))))).

(** [s.startsWith(c)] and [s.endsWith(c)] for a one-character [c]. *)
Definition startsWith (s : string) (c : ascii) : bool :=
  match chars s with
  | x :: _ => ascii_eqb x c
  | [] => false
  end.

Definition endsWith (s : string) (c : ascii) : bool :=
  match rev (chars s) with
  | x :: _ => ascii_eqb x c
  | [] => false
  end.

(** [s.slice(1)] *)
Definition slice1 (s : string) : string :=
  match s with
  | EmptyString => EmptyString
  | String _ s' => s'
  end.

(** [s.split('.')]: the pieces between the separators, at least one. *)
Fixpoint split_chars (sep : ascii) (cur : list ascii) (cs : list ascii)
  : list string :=
  match cs with
  | [] => [of_chars (rev cur)]
  | c :: cs' =>
      if ascii_eqb c sep
      then of_chars (rev cur) :: split_chars sep [] cs'
      else split_chars sep (c :: cur) cs'
  end.

Definition split (sep : ascii) (s : string) : list string :=
  split_chars sep [] (chars s).

(** The decimal digits of an array index, as a template literal prints
    it. *)
Definition digit_char (d : nat) : ascii := ascii_of_nat (48 + d).

Fixpoint decimal_digits (fuel n : nat) (acc : list ascii) : list ascii :=
  match fuel with
  | O => acc
  | S fuel' =>
      let acc' := digit_char (n mod 10) :: acc in
      if (n <? 10)%nat then acc' else decimal_digits fuel' (n / 10) acc'
  end.

Definition of_index (n : nat) : string :=
  of_chars (decimal_digits (S n) n []).

End JsString.

Import JsString.

(** ** Regular expressions

    The regular expressions of the source are all of the shape [^r$], and
    use character classes, concatenation, alternation, greedy repetition
    and capture groups.  [Regex.run] is a backtracking matcher with the
    priorities of the JavaScript one: the left alternative first, the
    longest repetition first. *)

Module Regex.

Inductive regex : Type :=
| Eps
| Class (p : ascii -> bool)
| Seq (r1 r2 : regex)
| Alt (r1 r2 : regex)
| Star (r : regex)
| Group (i : nat) (r : regex).

Definition captures : Type := list (nat * list ascii).

Definition cont : Type := list ascii -> captures -> option captures.

Fixpoint run (r : regex) (s : list ascii) (caps : captures) (k : cont)
  {struct r} : option captures :=
  match r with
  | Eps => k s caps
  | Class p =>
      match s with
      | c :: s' => if p c then k s' caps else None
      | [] => None
      end
  | Seq r1 r2 => run r1 s caps (fun s' caps' => run r2 s' caps' k)
  | Alt r1 r2 =>
      match run r1 s caps k with
      | Some res => Some res
      | None => run r2 s caps k
      end
  | Star r' =>
      (fix iterate (n : nat) (s : list ascii) (caps : captures)
         : option captures :=
         match n with
         | O => k s caps
         | S n' =>
             match
               run r' s caps
                 (fun s' caps' =>
                    if (length s' <? length s)%nat
                    then iterate n' s' caps'
                    else None)
             with
             | Some res => Some res
             | None => k s caps
             end
         end) (length s) s caps
  | Group i r' =>
      run r' s caps
        (fun s' caps' =>
           k s' ((i, firstn (length s - length s') s) :: caps'))
  end.

(** The end-of-input anchor [$] (no [m] flag). *)
Definition at_end : cont :=
  fun s caps => match s with [] => Some caps | _ :: _ => None end.

(** [str.match(/^r$/)]: the captures of the first match, if any. *)
Definition exec (r : regex) (str : string) : option captures :=
  run r (chars str) [] at_end.

(** [/^r$/.test(str)] *)
Definition test (r : regex) (str : string) : bool :=
  match exec r str with Some _ => true | None => false end.

(** [match[i]] of a successful match. *)
Fixpoint group_chars (i : nat) (caps : captures) : list ascii :=
  match caps with
  | [] => []
  | (j, cs) :: caps' => if (i =? j)%nat then cs else group_chars i caps'
  end.

Definition group (i : nat) (caps : captures) : string :=
  of_chars (group_chars i caps).

Definition Chr (c : ascii) : regex := Class (ascii_eqb c).
Definition Plus (r : regex) : regex := Seq r (Star r).
Definition Opt (r : regex) : regex := Alt r Eps.

Fixpoint Lit_chars (cs : list ascii) : regex :=
  match cs with
  | [] => Eps
  | c :: cs' => Seq (Chr c) (Lit_chars cs')
  end.

Definition Lit (s : string) : regex := Lit_chars (chars s).

Fixpoint Seqs (rs : list regex) : regex :=
  match rs with
  | [] => Eps
  | [r] => r
  | r :: rs' => Seq r (Seqs rs')
  end.

(** [\s], [\d], [.] under the [s] flag, and the two identifier
    classes. *)
Definition space : regex := Class is_space.
Definition digit : regex := Class is_digit.
Definition any : regex := Class (fun _ => true).
Definition ident : regex :=
  Seq (Class is_ident_start) (Star (Class is_ident_char)).

End Regex.

Import Regex.

(** ** Values *)

Abbreviation number := spec_float.

#[local] Set Warnings "-register-all".

Inductive JsValue : Type :=
| VUndefined
| VNull
| VBool (b : bool)
| VNum (n : number)
| VStr (s : string)
| VArr (items : list JsValue)
| VObj (props : list (string * JsValue)).

(** [Number(text)] for the decimal literals that [parseMaybeLiteral] hands
    to it: the binary64 value nearest to the decimal (ties to even). *)

Fixpoint digits_value (acc : Z) (cs : list ascii) : Z :=
  match cs with
  | [] => acc
  | c :: cs' => digits_value (10 * acc + Z.of_N (code c) - 48)%Z cs'
  end.

Definition decimal_to_number (negative : bool) (mantissa : Z) (scale : nat)
  : number :=
  match mantissa with
  | Zpos m =>
      SFdiv 53 1024 (S754_finite negative m 0)
        (S754_finite false (Z.to_pos (10 ^ Z.of_nat scale)) 0)
  | _ => S754_zero negative
  end.

Definition decimal_re : regex :=
  Seqs [Opt (Chr "-"); Group 1 (Plus digit);
        Opt (Seq (Chr ".") (Group 2 (Plus digit)))].

Definition Number (text : string) : number :=
  match exec decimal_re text with
  | Some caps =>
      let int_part := group_chars 1 caps in
      let frac_part := group_chars 2 caps in
      decimal_to_number (startsWith text "-")
        (digits_value 0 (int_part ++ frac_part)) (length frac_part)
  | None => S754_nan
  end.

(** ** Literal coercion *)

Definition double_quote : ascii := "034"%char.

(** [decodeStringLiteral]: the loop over the characters strictly between
    the first and the last one, with its [escaped] flag. *)
Fixpoint decode_loop (cs : list ascii) (escaped : bool) (out : list ascii)
  : list ascii :=
  match cs with
  | [] => out
  | char :: cs' =>
      if escaped then
        if ascii_eqb char "n" then decode_loop cs' false (out ++ ["010"%char])
        else if ascii_eqb char "r" then
          decode_loop cs' false (out ++ ["013"%char])
        else if ascii_eqb char "t" then
          decode_loop cs' false (out ++ ["009"%char])
        else decode_loop cs' false (out ++ [char])
      else if ascii_eqb char "\" then decode_loop cs' true out
      else decode_loop cs' false (out ++ [char])
  end.

(** The characters at the positions [1 .. length - 2]. *)
Definition enclosed (cs : list ascii) : list ascii :=
  removelast (tl cs).

Definition decodeStringLiteral (value : string) : string :=
  of_chars (decode_loop (enclosed (chars value)) false []).

(** The pattern of [parseMaybeLiteral]:  ^ -? \d+ (?: \. \d+ )? $ *)
Definition number_re : regex :=
  Seqs [Opt (Chr "-"); Plus digit; Opt (Seq (Chr ".") (Plus digit))].

Definition parseMaybeLiteral (value : JsValue) : JsValue :=
  match value with
  | VStr s =>
      let trimmed := trim s in
      if String.eqb trimmed "true" then VBool true
      else if String.eqb trimmed "false" then VBool false
      else if String.eqb trimmed "null" then VNull
      else if test number_re trimmed then VNum (Number trimmed)
      else if (startsWith trimmed double_quote && endsWith trimmed double_quote)
              || (startsWith trimmed "'" && endsWith trimmed "'")
      then VStr (decodeStringLiteral trimmed)
      else VStr trimmed
  | _ => value
  end.

(** ** The data model of a compiled schema *)

(** [{name, callArgs, argument}]: [callArgs] may be null. *)
Record ConstraintUsage : Type := {
  constraint_name : string;
  callArgs : option (list JsValue);
  argument : JsValue;
}.

(** A type node, by its [kind].  [TUnknownKind] stands for an object
    whose [kind] is none of the eleven strings the evaluator dispatches
    on. *)
Inductive TypeNode : Type :=
| TNamed (name : string) (constraints : list ConstraintUsage)
| TNullableNamed (name : string)
| TNullable (inner : TypeNode)
| TArray (itemType : TypeNode) (constraints : list ConstraintUsage)
| TRecord (fields : list FieldDef)
| TDict (keyType valueType : TypeNode)
| TUnion (members : list TypeNode)
| TIntersection (members : list TypeNode)
| TConditional (condition : string) (thenType elseType : TypeNode)
| TLiteral (value : JsValue)
| TAbsent
| TUnknownKind
with FieldDef : Type :=
| Field (name : string) (type : TypeNode) (optional : bool)
    (defaultExpr : option string).

Definition field_name (f : FieldDef) : string :=
  let (name, _, _, _) := f in name.
Definition field_type (f : FieldDef) : TypeNode :=
  let (_, type, _, _) := f in type.
Definition field_optional (f : FieldDef) : bool :=
  let (_, _, optional, _) := f in optional.
Definition field_defaultExpr (f : FieldDef) : option string :=
  let (_, _, _, defaultExpr) := f in defaultExpr.

(** What the [typeNode] argument of [validateTypeNode] can hold: null or
    undefined, something that is not an object, or a node.  The children
    of a node are nodes, as in the data model of the specification (the
    evaluator reads [field.type.kind] without a guard); the body of a type
    definition may be missing. *)
Inductive NodeRef : Type :=
| NullRef
| NonObjectRef
| ObjectRef (node : TypeNode).

(** A type definition of the repository: [matches] is present when it is a
    function; [expr] is the body of a user-defined type. *)
Record TypeDefinition : Type := {
  type_isBuiltin : bool;
  type_matches : option (JsValue -> bool);
  type_expr : NodeRef;
}.

Record ParamDef : Type := {
  param_name : string;
  param_defaultExpr : option string;
}.

(** A validator of the repository: [evaluate] is present when it is a
    function (the native predicate, which may return any value); [body] is
    present when it is a string. *)
Record ValidatorDefinition : Type := {
  validator_isBuiltin : bool;
  validator_evaluate : option (JsValue -> JsValue -> JsValue);
  validator_body : option string;
  validator_params : list ParamDef;
}.

(** The outcome of a call that may throw; a thrown value is kept as the
    message text the validator reads from it. *)
Inductive attempt (A : Type) : Type :=
| Returned (a : A)
| Thrown (message : string).
Arguments Returned {A} a.
Arguments Thrown {A} message.

Record Repository : Type := {
  resolveRootType : option string -> attempt string;
  getType : string -> option TypeDefinition;
  getValidator : string -> string -> option ValidatorDefinition;
}.

(** src/src/validation-error.js *)
Record ValidationError : Type := {
  error_path : string;
  error_message : string;
  error_code : string;
  error_category : string;
}.

Record EvaluationScope : Type := {
  scope_root : JsValue;
  scope_current : JsValue;
  scope_parent : option JsValue;
}.

(** ** The facilities of the JavaScript engine that the validator calls

    [RegExp pattern flags] is [new RegExp(pattern, flags)]: [None] when the
    constructor throws, else the [test] method of the fresh object.  The
    four relational operators are those of the language on arbitrary
    operands. *)
Class JsHost : Type := {
  JSON_parse : string -> attempt JsValue;
  JSON_stringify : JsValue -> string;
  ToString : JsValue -> string;
  RegExp : string -> string -> option (string -> bool);
  less : JsValue -> JsValue -> bool;
  greater : JsValue -> JsValue -> bool;
  less_equal : JsValue -> JsValue -> bool;
  greater_equal : JsValue -> JsValue -> bool;
}.

(** ** Helpers of json-validator.js *)

Definition isObject (value : JsValue) : bool :=
  match value with
  | VObj _ => true
  | _ => false
  end.

(** [Object.prototype.hasOwnProperty.call(o, key)] and [o[key]] on the
    properties of an object. *)
Fixpoint own_property (props : list (string * JsValue)) (key : string)
  : option JsValue :=
  match props with
  | [] => None
  | (k, v) :: props' =>
      if String.eqb k key then Some v else own_property props' key
  end.

(** [a === b].  An array or an object is identical only to itself; the
    operands compared here come from two different places (the document on
    one side, the schema or a coerced literal on the other), so such a
    comparison is false. *)
Definition strict_equal (a b : JsValue) : bool :=
  match a, b with
  | VUndefined, VUndefined => true
  | VNull, VNull => true
  | VBool x, VBool y => Bool.eqb x y
  | VNum x, VNum y => SFeqb x y
  | VStr x, VStr y => String.eqb x y
  | _, _ => false
  end.

(** The pattern of [evaluateCondition], token by token:
    ^ ( [A-Za-z_] [A-Za-z0-9_]* (?: \. [A-Za-z_] [A-Za-z0-9_]* )* )
    \s* ( = | != ) \s* ( .+ ) $   with the flag s. *)
Definition dot_segment : regex := Seq (Chr ".") ident.

Definition operator_re : regex := Alt (Lit "=") (Lit "!=").

Definition condition_re : regex :=
  Seqs [Group 1 (Seq ident (Star dot_segment));
        Star space;
        Group 2 operator_re;
        Star space;
        Group 3 (Plus any)].

(** The loop of [evaluateCondition] over the path segments: [None] is the
    [return false] inside the loop. *)
Fixpoint resolve_path (current : JsValue) (path : list string)
  : option JsValue :=
  match path with
  | [] => Some current
  | segment :: path' =>
      match current with
      | VObj props =>
          match own_property props segment with
          | Some next => resolve_path next path'
          | None => None
          end
      | _ => None
      end
  end.

(** [evaluateCondition]: [Some true], [Some false] or [None] for null. *)
Definition evaluateCondition (condition : string) (objectValue : JsValue)
  : option bool :=
  if negb (isObject objectValue) then None
  else
    match exec condition_re condition with
    | None => None
    | Some m =>
        let path := split "." (group 1 m) in
        let expected := parseMaybeLiteral (VStr (trim (group 3 m))) in
        match resolve_path objectValue path with
        | None => Some false
        | Some current =>
            if String.eqb (group 2 m) "="
            then Some (strict_equal current expected)
            else Some (negb (strict_equal current expected))
        end
    end.

Section Host.

Context {host : JsHost}.

Definition compare (left : JsValue) (operator : string) (right : JsValue)
  : bool :=
  if String.eqb operator "<" then less left right
  else if String.eqb operator ">" then greater left right
  else if String.eqb operator "<=" then less_equal left right
  else if String.eqb operator ">=" then greater_equal left right
  else if String.eqb operator "=" then strict_equal left right
  else if String.eqb operator "!=" then negb (strict_equal left right)
  else false.

(** The pattern of [compileRegexLiteral], token by token:
    ^ \/ ( .* ) \/ ( [a-z]* ) $   with the flag s. *)
Definition regex_literal_re : regex :=
  Seqs [Chr "/"; Group 1 (Star any); Chr "/"; Group 2 (Star (Class is_lower))].

Definition compileRegexLiteral (raw : string) : option (string -> bool) :=
  match exec regex_literal_re raw with
  | None => None
  | Some m => RegExp (group 1 m) (group 2 m)
  end.

(** regexNegation:
    ^ not \s* \( \s* this \s+ matches \s+ ( \/ .* \/ ) \s* \) $
    with the flag s. *)
Definition regexNegation_re : regex :=
  Seqs [Lit "not"; Star space; Chr "("; Star space; Lit "this"; Plus space;
        Lit "matches"; Plus space;
        Group 1 (Seqs [Chr "/"; Star any; Chr "/"]);
        Star space; Chr ")"].

(** regexMatch:
    ^ this \s+ matches \s+ ( \/ .* \/ ) $   with the flag s. *)
Definition regexMatch_re : regex :=
  Seqs [Lit "this"; Plus space; Lit "matches"; Plus space;
        Group 1 (Seqs [Chr "/"; Star any; Chr "/"])].

(** [[<>]=?] *)
Definition range_operator : regex :=
  Seq (Alt (Chr "<") (Chr ">")) (Opt (Chr "=")).

(** rangeAnd:
    ^ this \s* ( [<>] =? ) \s* \$ ( [A-Za-z_] [A-Za-z0-9_]* ) \s+ and \s+
    this \s* ( [<>] =? ) \s* \$ ( [A-Za-z_] [A-Za-z0-9_]* ) $ *)
Definition rangeAnd_re : regex :=
  Seqs [Lit "this"; Star space; Group 1 range_operator; Star space;
        Chr "$"; Group 2 ident; Plus space; Lit "and"; Plus space;
        Lit "this"; Star space; Group 3 range_operator; Star space;
        Chr "$"; Group 4 ident].

(** simpleComparison:
    ^ this \s* ( <= | >= | < | > | = | != ) \s* ( .+ ) $
    with the flag s. *)
Definition simpleComparison_re : regex :=
  Seqs [Lit "this"; Star space;
        Group 1 (Alt (Lit "<=") (Alt (Lit ">=") (Alt (Lit "<")
                  (Alt (Lit ">") (Alt (Lit "=") (Lit "!="))))));
        Star space; Group 2 (Plus any)].

(** [a ?? b] on a value that may be missing. *)
Definition nullish_or (a : option JsValue) (b : JsValue) : JsValue :=
  match a with
  | None | Some VUndefined | Some VNull => b
  | Some v => v
  end.

(** The [forEach] over the parameters that fills [args] (a parameter
    named [__proto__], the assignment to which makes no property of
    [args], is outside the model). *)
Fixpoint bind_params (params : list ParamDef) (index : nat)
    (incomingArgs : list JsValue) (args : gmap string JsValue)
  : gmap string JsValue :=
  match params with
  | [] => args
  | param :: params' =>
      let raw :=
        nullish_or (incomingArgs !! index)
          (match param_defaultExpr param with
           | Some text => VStr text
           | None => VNull
           end) in
      bind_params params' (S index) incomingArgs
        (<[param_name param := parseMaybeLiteral raw]> args)
  end.

(** [args[name]]; a name that was not bound reads as undefined (names of
    the members of [Object.prototype] are outside the model). *)
Definition arg (args : gmap string JsValue) (name : string) : JsValue :=
  default VUndefined (args !! name).

(** [String(value ?? '')] *)
Definition subject_text (value : JsValue) : string :=
  ToString (nullish_or (Some value) (VStr "")).

(** [evaluateCustomValidator]: [Some true], [Some false] or [None] for
    null. *)
Definition evaluateCustomValidator (validator : ValidatorDefinition)
    (constraint : ConstraintUsage) (value : JsValue)
    (scope : EvaluationScope) : option bool :=
  match validator_body validator with
  | None | Some "" => None
  | Some text =>
      let incomingArgs :=
        match callArgs constraint with
        | Some l => l
        | None =>
            match argument constraint with
            | VNull => []
            | a => [a]
            end
        end in
      let args := bind_params (validator_params validator) 0 incomingArgs ∅ in
      let body := trim text in
      match exec regexNegation_re body with
      | Some m =>
          match compileRegexLiteral (group 1 m) with
          | Some compiled => Some (negb (compiled (subject_text value)))
          | None => None
          end
      | None =>
      match exec regexMatch_re body with
      | Some m =>
          match compileRegexLiteral (group 1 m) with
          | Some compiled => Some (compiled (subject_text value))
          | None => None
          end
      | None =>
      match exec rangeAnd_re body with
      | Some m =>
          Some (compare value (group 1 m) (arg args (group 2 m))
                && compare value (group 3 m) (arg args (group 4 m)))
      | None =>
      match exec simpleComparison_re body with
      | Some m =>
          let right := trim (group 2 m) in
          let rightValue :=
            if startsWith right "$" then arg args (slice1 right)
            else parseMaybeLiteral (VStr right) in
          Some (compare value (group 1 m) rightValue)
      | None => None
      end end end end
  end.

(** [resolveConstraintArgument] *)
Definition resolveConstraintArgument (constraint : ConstraintUsage)
  : JsValue :=
  match callArgs constraint with
  | Some [a] => parseMaybeLiteral a
  | Some (a :: b :: rest) =>
      VArr (map parseMaybeLiteral (a :: b :: rest))
  | Some [] | None => argument constraint
  end.

End Host.

(** ** The validator *)

Definition error (path message code category : string) : ValidationError :=
  {| error_path := path; error_message := message;
     error_code := code; error_category := category |}.

(** A call of the walk: the errors array after the call, or [None] when the
    call stack is exhausted. *)
Definition walk : Type :=
  NodeRef -> JsValue -> string -> list ValidationError -> EvaluationScope ->
  option (list ValidationError).

Section Validator.

Context {host : JsHost}.
Variable repository : Repository.

(** [#applyConstraint] *)
Definition applyConstraint (targetType : string)
    (constraint : ConstraintUsage) (value : JsValue) (path : string)
    (errors : list ValidationError) (scope : EvaluationScope)
  : list ValidationError :=
  match getValidator repository targetType (constraint_name constraint) with
  | None =>
      errors ++
      [error path
         ("Unknown constraint: " +:+ targetType +:+ "." +:+
          constraint_name constraint)
         "UnknownConstraint" "SemanticError"]
  | Some validator =>
      match validator_isBuiltin validator, validator_evaluate validator with
      | true, Some evaluate =>
          match evaluate value (resolveConstraintArgument constraint) with
          | VBool false =>
              errors ++
              [error path
                 ("Constraint failed: " +:+ targetType +:+ "." +:+
                  constraint_name constraint)
                 "ConstraintViolation" "ValidationError"]
          | _ => errors
          end
      | _, _ =>
          match evaluateCustomValidator validator constraint value scope with
          | Some false =>
              errors ++
              [error path
                 ("Constraint failed: " +:+ targetType +:+ "." +:+
                  constraint_name constraint)
                 "ValidatorFailed" "ValidationError"]
          | _ => errors
          end
      end
  end.

(** [for (const constraint of constraints) this.#applyConstraint(...)] *)
Definition applyConstraints (targetType : string)
    (constraints : list ConstraintUsage) (value : JsValue) (path : string)
    (errors : list ValidationError) (scope : EvaluationScope)
  : list ValidationError :=
  fold_left
    (fun errors constraint =>
       applyConstraint targetType constraint value path errors scope)
    constraints errors.

Section Body.

(** The recursive calls of [#validateTypeNode]. *)
Variable validateTypeNode : walk.

(** [#validateAgainstTypeName] *)
Definition validateAgainstTypeName_in (value : JsValue)
    (typeName : string) (path : string) (errors : list ValidationError)
    (scope : EvaluationScope) : option (list ValidationError) :=
  match getType repository typeName with
  | None =>
      Some (errors ++
            [error path ("Unknown type: " +:+ typeName)
               "UnknownType" "TypeError"])
  | Some typeDefinition =>
      match type_isBuiltin typeDefinition, type_matches typeDefinition with
      | true, Some matches =>
          if negb (matches value)
          then Some (errors ++
                     [error path ("Expected " +:+ typeName +:+ ".")
                        "TypeMismatch" "TypeError"])
          else Some errors
      | _, _ =>
          validateTypeNode (type_expr typeDefinition) value path errors
            scope
      end
  end.

(** [#validateNamed] *)
Definition validateNamed_in (name : string)
    (constraints : list ConstraintUsage) (value : JsValue)
    (path : string) (errors : list ValidationError)
    (scope : EvaluationScope) : option (list ValidationError) :=
  errors' ← validateAgainstTypeName_in value name path errors scope;
  Some (applyConstraints name constraints value path errors' scope).

(** [#isValid] *)
Definition isValid_in (typeNode : NodeRef) (value : JsValue)
    (scope : EvaluationScope) : option bool :=
  errors ← validateTypeNode typeNode value "$" [] scope;
  Some (bool_decide (length errors = 0)).

(** The loop over the elements of an array, from index [i] on. *)
Fixpoint validateItems (itemType : TypeNode) (array : JsValue)
    (items : list JsValue) (i : nat) (path : string)
    (errors : list ValidationError) (scope : EvaluationScope)
  : option (list ValidationError) :=
  match items with
  | [] => Some errors
  | item :: items' =>
      errors' ←
        validateTypeNode (ObjectRef itemType) item
          (path +:+ "[" +:+ of_index i +:+ "]") errors
          {| scope_root := scope_root scope; scope_current := item;
             scope_parent := Some array |};
      validateItems itemType array items' (S i) path errors' scope
  end.

(** The body of the loop over the fields of a record. *)
Definition validateField (value : JsValue)
    (props : list (string * JsValue)) (field : FieldDef) (path : string)
    (errors : list ValidationError) (scope : EvaluationScope)
  : option (list ValidationError) :=
  match own_property props (field_name field) with
  | None =>
      if field_optional field || bool_decide (field_defaultExpr field ≠ None)
      then Some errors
      else
        match field_type field with
        | TAbsent => Some errors
        | _ =>
            Some (errors ++
                  [error (path +:+ "." +:+ field_name field)
                     "Missing required field." "FieldMissing"
                     "ValidationError"])
        end
  | Some fieldValue =>
      validateTypeNode (ObjectRef (field_type field)) fieldValue
        (path +:+ "." +:+ field_name field) errors
        {| scope_root := scope_root scope; scope_current := fieldValue;
           scope_parent := Some value |}
  end.

Fixpoint validateFields (value : JsValue)
    (props : list (string * JsValue)) (fields : list FieldDef)
    (path : string) (errors : list ValidationError)
    (scope : EvaluationScope) : option (list ValidationError) :=
  match fields with
  | [] => Some errors
  | field :: fields' =>
      errors' ← validateField value props field path errors scope;
      validateFields value props fields' path errors' scope
  end.

(** The loop over [Object.entries(value)] of a dict. *)
Fixpoint validateEntries (keyType valueType : TypeNode) (value : JsValue)
    (entries : list (string * JsValue)) (path : string)
    (errors : list ValidationError) (scope : EvaluationScope)
  : option (list ValidationError) :=
  match entries with
  | [] => Some errors
  | (entryKey, entryValue) :: entries' =>
      errors1 ←
        validateTypeNode (ObjectRef keyType) (VStr entryKey)
          (path +:+ ".[key:" +:+ entryKey +:+ "]") errors
          {| scope_root := scope_root scope;
             scope_current := VStr entryKey;
             scope_parent := Some value |};
      errors2 ←
        validateTypeNode (ObjectRef valueType) entryValue
          (path +:+ "." +:+ entryKey) errors1
          {| scope_root := scope_root scope;
             scope_current := entryValue;
             scope_parent := Some value |};
      validateEntries keyType valueType value entries' path errors2 scope
  end.

(** [members.some((member) => this.#isValid(member, value, ...))] *)
Fixpoint someValid (members : list TypeNode) (value : JsValue)
    (scope : EvaluationScope) : option bool :=
  match members with
  | [] => Some false
  | member :: members' =>
      valid ← isValid_in (ObjectRef member) value scope;
      if valid : bool then Some true else someValid members' value scope
  end.

(** The loop over the members of an intersection. *)
Fixpoint validateMembers (members : list TypeNode) (value : JsValue)
    (path : string) (errors : list ValidationError)
    (scope : EvaluationScope) : option (list ValidationError) :=
  match members with
  | [] => Some errors
  | member :: members' =>
      errors' ← validateTypeNode (ObjectRef member) value path errors scope;
      validateMembers members' value path errors' scope
  end.

(** [scope.parent ?? scope.root] *)
Definition condition_object (scope : EvaluationScope) : JsValue :=
  match scope_parent scope with
  | Some parent => parent
  | None => scope_root scope
  end.

(** The body of [#validateTypeNode]. *)
Definition validateTypeNode_body : walk :=
  fun typeNode value path errors scope =>
  match typeNode with
  | NullRef | NonObjectRef => Some errors
  | ObjectRef node =>
    match node with
    | TNamed name constraints =>
        validateNamed_in name constraints value path errors scope

    | TNullableNamed name =>
        match value with
        | VNull => Some errors
        | _ => validateAgainstTypeName_in value name path errors scope
        end

    | TNullable inner =>
        match value with
        | VNull => Some errors
        | _ => validateTypeNode (ObjectRef inner) value path errors scope
        end

    | TArray itemType constraints =>
        match value with
        | VArr items =>
            validateItems itemType value items 0 path
              (applyConstraints "Array" constraints value path errors
                 scope)
              scope
        | _ =>
            Some (errors ++
                  [error path "Expected array." "TypeMismatch"
                     "TypeError"])
        end

    | TRecord fields =>
        match value with
        | VObj props => validateFields value props fields path errors scope
        | _ =>
            Some (errors ++
                  [error path "Expected object." "TypeMismatch"
                     "TypeError"])
        end

    | TDict keyType valueType =>
        match value with
        | VObj props =>
            validateEntries keyType valueType value props path errors
              scope
        | _ =>
            Some (errors ++
                  [error path "Expected object/dict." "TypeMismatch"
                     "TypeError"])
        end

    | TUnion members =>
        valid ← someValid members value scope;
        if valid : bool then Some errors
        else
          Some (errors ++
                [error path "Value does not match any union member."
                   "TypeMismatch" "TypeError"])

    | TIntersection members =>
        validateMembers members value path errors scope

    | TConditional condition thenType elseType =>
        match evaluateCondition condition (condition_object scope) with
        | Some true =>
            validateTypeNode (ObjectRef thenType) value path errors scope
        | Some false =>
            validateTypeNode (ObjectRef elseType) value path errors scope
        | None =>
            validThen ← isValid_in (ObjectRef thenType) value scope;
            if validThen : bool then Some errors
            else
              validElse ← isValid_in (ObjectRef elseType) value scope;
              if validElse : bool then Some errors
              else
                Some (errors ++
                      [error path
                         "Value does not match conditional branches."
                         "TypeMismatch" "TypeError"])
        end

    | TLiteral literal =>
        if negb (strict_equal value literal)
        then
          Some (errors ++
                [error path
                   ("Expected literal " +:+ JSON_stringify literal +:+ ".")
                   "TypeMismatch" "TypeError"])
        else Some errors

    | TAbsent =>
        match value with
        | VUndefined => Some errors
        | _ =>
            Some (errors ++
                  [error path "Expected field to be absent."
                     "FieldMustBeAbsent" "ValidationError"])
        end

    | TUnknownKind => Some errors
    end
  end.

End Body.

(** [#validateTypeNode], given the depth of call stack it may use. *)
Fixpoint validateTypeNode (depth : nat) : walk :=
  match depth with
  | O => fun _ _ _ _ _ => None
  | S depth' => validateTypeNode_body (validateTypeNode depth')
  end.

Definition validateAgainstTypeName (depth : nat) :=
  validateAgainstTypeName_in (validateTypeNode depth).

Definition validateNamed (depth : nat) :=
  validateNamed_in (validateTypeNode depth).

Definition isValid (depth : nat) := isValid_in (validateTypeNode depth).

(** [validate] *)
Definition validate (depth : nat) (jsonInput : JsValue)
    (rootType : option string) : option (list ValidationError) :=
  let decoded :=
    match jsonInput with
    | VStr text => JSON_parse text
    | _ => Returned jsonInput
    end in
  match decoded with
  | Thrown message =>
      Some [error "$" ("Invalid JSON: " +:+ message)
              "InvalidExpression" "ParseError"]
  | Returned value =>
      match resolveRootType repository rootType with
      | Thrown message =>
          Some [error "$" message "UnknownType" "TypeError"]
      | Returned resolvedRoot =>
          validateAgainstTypeName depth value resolvedRoot "$" []
            {| scope_root := value; scope_current := value;
               scope_parent := None |}
      end
  end.

End Validator.

(** ** The validator on a heap of arrays

    The methods once more, with the [errors] arrays as the code has them:
    objects of the heap, made by an array literal, handed on by reference
    and changed by [push].  The heap holds every array that a call made,
    those of earlier invocations of [validate] among them; a call takes the
    heap as it finds it and returns it as it leaves it.  The arrays are the
    only objects that the methods make and change: the class has no
    instance field and no method assigns to [this], its one static field
    ([SUPPORTED_RFC_VERSIONS]) is read by no method, and the module has no
    variable; [args] and the compiled regular expressions of
    [evaluateCustomValidator] are made anew in each call and leave it in
    no way but through the boolean it returns. *)

Module Mutable.

(** The arrays of diagnostics, by reference. *)
Definition Heap : Type := list (list ValidationError).

(** [[e1, ..., en]]: a new array, and the reference to it. *)
Definition array_literal (elements : list ValidationError) (heap : Heap)
  : nat * Heap :=
  (length heap, heap ++ [elements]).

(** [errors.push(e)] *)
Definition push (errors : nat) (e : ValidationError) (heap : Heap) : Heap :=
  alter (fun elements => elements ++ [e]) errors heap.

(** The elements of an array at present. *)
Definition elements (heap : Heap) (array : nat) : list ValidationError :=
  default [] (heap !! array).

(** A call of the walk on the array [errors]: the heap after the call, or
    [None] when the call stack is exhausted. *)
Definition walk : Type :=
  NodeRef -> JsValue -> string -> nat -> EvaluationScope -> Heap ->
  option Heap.

Section Methods.

Context {host : JsHost}.
Variable repository : Repository.

(** [#applyConstraint] *)
Definition applyConstraint (targetType : string)
    (constraint : ConstraintUsage) (value : JsValue) (path : string)
    (errors : nat) (scope : EvaluationScope) (heap : Heap) : Heap :=
  match getValidator repository targetType (constraint_name constraint) with
  | None =>
      push errors
        (error path
           ("Unknown constraint: " +:+ targetType +:+ "." +:+
            constraint_name constraint)
           "UnknownConstraint" "SemanticError")
        heap
  | Some validator =>
      match validator_isBuiltin validator, validator_evaluate validator with
      | true, Some evaluate =>
          match evaluate value (resolveConstraintArgument constraint) with
          | VBool false =>
              push errors
                (error path
                   ("Constraint failed: " +:+ targetType +:+ "." +:+
                    constraint_name constraint)
                   "ConstraintViolation" "ValidationError")
                heap
          | _ => heap
          end
      | _, _ =>
          match evaluateCustomValidator validator constraint value scope with
          | Some false =>
              push errors
                (error path
                   ("Constraint failed: " +:+ targetType +:+ "." +:+
                    constraint_name constraint)
                   "ValidatorFailed" "ValidationError")
                heap
          | _ => heap
          end
      end
  end.

(** [for (const constraint of constraints) this.#applyConstraint(...)] *)
Definition applyConstraints (targetType : string)
    (constraints : list ConstraintUsage) (value : JsValue) (path : string)
    (errors : nat) (scope : EvaluationScope) (heap : Heap) : Heap :=
  fold_left
    (fun heap constraint =>
       applyConstraint targetType constraint value path errors scope heap)
    constraints heap.

Section Calls.

(** The recursive calls of [#validateTypeNode]. *)
Variable validateTypeNode : walk.

(** [#validateAgainstTypeName] *)
Definition validateAgainstTypeName_in (value : JsValue)
    (typeName : string) (path : string) (errors : nat)
    (scope : EvaluationScope) (heap : Heap) : option Heap :=
  match getType repository typeName with
  | None =>
      Some (push errors
              (error path ("Unknown type: " +:+ typeName)
                 "UnknownType" "TypeError")
              heap)
  | Some typeDefinition =>
      match type_isBuiltin typeDefinition, type_matches typeDefinition with
      | true, Some matches =>
          if negb (matches value)
          then Some (push errors
                       (error path ("Expected " +:+ typeName +:+ ".")
                          "TypeMismatch" "TypeError")
                       heap)
          else Some heap
      | _, _ =>
          validateTypeNode (type_expr typeDefinition) value path errors
            scope heap
      end
  end.

(** [#validateNamed] *)
Definition validateNamed_in (name : string)
    (constraints : list ConstraintUsage) (value : JsValue)
    (path : string) (errors : nat) (scope : EvaluationScope)
    (heap : Heap) : option Heap :=
  heap' ← validateAgainstTypeName_in value name path errors scope heap;
  Some (applyConstraints name constraints value path errors scope heap').

(** [#isValid]: an array of its own, the walk on it, and whether the
    array is still empty. *)
Definition isValid_in (typeNode : NodeRef) (value : JsValue)
    (scope : EvaluationScope) (heap : Heap) : option (bool * Heap) :=
  let '(errors, heap1) := array_literal [] heap in
  heap2 ← validateTypeNode typeNode value "$" errors scope heap1;
  Some (bool_decide (length (elements heap2 errors) = 0), heap2).

(** The loop over the elements of an array, from index [i] on. *)
Fixpoint validateItems (itemType : TypeNode) (array : JsValue)
    (items : list JsValue) (i : nat) (path : string) (errors : nat)
    (scope : EvaluationScope) (heap : Heap) : option Heap :=
  match items with
  | [] => Some heap
  | item :: items' =>
      heap' ←
        validateTypeNode (ObjectRef itemType) item
          (path +:+ "[" +:+ of_index i +:+ "]") errors
          {| scope_root := scope_root scope; scope_current := item;
             scope_parent := Some array |}
          heap;
      validateItems itemType array items' (S i) path errors scope heap'
  end.

(** The body of the loop over the fields of a record. *)
Definition validateField (value : JsValue)
    (props : list (string * JsValue)) (field : FieldDef) (path : string)
    (errors : nat) (scope : EvaluationScope) (heap : Heap) : option Heap :=
  match own_property props (field_name field) with
  | None =>
      if field_optional field || bool_decide (field_defaultExpr field ≠ None)
      then Some heap
      else
        match field_type field with
        | TAbsent => Some heap
        | _ =>
            Some (push errors
                    (error (path +:+ "." +:+ field_name field)
                       "Missing required field." "FieldMissing"
                       "ValidationError")
                    heap)
        end
  | Some fieldValue =>
      validateTypeNode (ObjectRef (field_type field)) fieldValue
        (path +:+ "." +:+ field_name field) errors
        {| scope_root := scope_root scope; scope_current := fieldValue;
           scope_parent := Some value |}
        heap
  end.

Fixpoint validateFields (value : JsValue)
    (props : list (string * JsValue)) (fields : list FieldDef)
    (path : string) (errors : nat) (scope : EvaluationScope)
    (heap : Heap) : option Heap :=
  match fields with
  | [] => Some heap
  | field :: fields' =>
      heap' ← validateField value props field path errors scope heap;
      validateFields value props fields' path errors scope heap'
  end.

(** The loop over [Object.entries(value)] of a dict. *)
Fixpoint validateEntries (keyType valueType : TypeNode) (value : JsValue)
    (entries : list (string * JsValue)) (path : string) (errors : nat)
    (scope : EvaluationScope) (heap : Heap) : option Heap :=
  match entries with
  | [] => Some heap
  | (entryKey, entryValue) :: entries' =>
      heap1 ←
        validateTypeNode (ObjectRef keyType) (VStr entryKey)
          (path +:+ ".[key:" +:+ entryKey +:+ "]") errors
          {| scope_root := scope_root scope;
             scope_current := VStr entryKey;
             scope_parent := Some value |}
          heap;
      heap2 ←
        validateTypeNode (ObjectRef valueType) entryValue
          (path +:+ "." +:+ entryKey) errors
          {| scope_root := scope_root scope;
             scope_current := entryValue;
             scope_parent := Some value |}
          heap1;
      validateEntries keyType valueType value entries' path errors scope
        heap2
  end.

(** [members.some((member) => this.#isValid(member, value, ...))] *)
Fixpoint someValid (members : list TypeNode) (value : JsValue)
    (scope : EvaluationScope) (heap : Heap) : option (bool * Heap) :=
  match members with
  | [] => Some (false, heap)
  | member :: members' =>
      '(valid, heap') ← isValid_in (ObjectRef member) value scope heap;
      if valid : bool then Some (true, heap')
      else someValid members' value scope heap'
  end.

(** The loop over the members of an intersection. *)
Fixpoint validateMembers (members : list TypeNode) (value : JsValue)
    (path : string) (errors : nat) (scope : EvaluationScope)
    (heap : Heap) : option Heap :=
  match members with
  | [] => Some heap
  | member :: members' =>
      heap' ←
        validateTypeNode (ObjectRef member) value path errors scope heap;
      validateMembers members' value path errors scope heap'
  end.

(** The body of [#validateTypeNode]. *)
Definition validateTypeNode_body : walk :=
  fun typeNode value path errors scope heap =>
  match typeNode with
  | NullRef | NonObjectRef => Some heap
  | ObjectRef node =>
    match node with
    | TNamed name constraints =>
        validateNamed_in name constraints value path errors scope heap

    | TNullableNamed name =>
        match value with
        | VNull => Some heap
        | _ => validateAgainstTypeName_in value name path errors scope heap
        end

    | TNullable inner =>
        match value with
        | VNull => Some heap
        | _ =>
            validateTypeNode (ObjectRef inner) value path errors scope heap
        end

    | TArray itemType constraints =>
        match value with
        | VArr items =>
            validateItems itemType value items 0 path errors scope
              (applyConstraints "Array" constraints value path errors
                 scope heap)
        | _ =>
            Some (push errors
                    (error path "Expected array." "TypeMismatch"
                       "TypeError")
                    heap)
        end

    | TRecord fields =>
        match value with
        | VObj props =>
            validateFields value props fields path errors scope heap
        | _ =>
            Some (push errors
                    (error path "Expected object." "TypeMismatch"
                       "TypeError")
                    heap)
        end

    | TDict keyType valueType =>
        match value with
        | VObj props =>
            validateEntries keyType valueType value props path errors
              scope heap
        | _ =>
            Some (push errors
                    (error path "Expected object/dict." "TypeMismatch"
                       "TypeError")
                    heap)
        end

    | TUnion members =>
        '(valid, heap') ← someValid members value scope heap;
        if valid : bool then Some heap'
        else
          Some (push errors
                  (error path "Value does not match any union member."
                     "TypeMismatch" "TypeError")
                  heap')

    | TIntersection members =>
        validateMembers members value path errors scope heap

    | TConditional condition thenType elseType =>
        match evaluateCondition condition (condition_object scope) with
        | Some true =>
            validateTypeNode (ObjectRef thenType) value path errors scope
              heap
        | Some false =>
            validateTypeNode (ObjectRef elseType) value path errors scope
              heap
        | None =>
            '(validThen, heap1) ←
              isValid_in (ObjectRef thenType) value scope heap;
            if validThen : bool then Some heap1
            else
              '(validElse, heap2) ←
                isValid_in (ObjectRef elseType) value scope heap1;
              if validElse : bool then Some heap2
              else
                Some (push errors
                        (error path
                           "Value does not match conditional branches."
                           "TypeMismatch" "TypeError")
                        heap2)
        end

    | TLiteral literal =>
        if negb (strict_equal value literal)
        then
          Some (push errors
                  (error path
                     ("Expected literal " +:+ JSON_stringify literal +:+
                      ".")
                     "TypeMismatch" "TypeError")
                  heap)
        else Some heap

    | TAbsent =>
        match value with
        | VUndefined => Some heap
        | _ =>
            Some (push errors
                    (error path "Expected field to be absent."
                       "FieldMustBeAbsent" "ValidationError")
                    heap)
        end

    | TUnknownKind => Some heap
    end
  end.

End Calls.

(** [#validateTypeNode], given the depth of call stack it may use. *)
Fixpoint validateTypeNode (depth : nat) : walk :=
  match depth with
  | O => fun _ _ _ _ _ _ => None
  | S depth' => validateTypeNode_body (validateTypeNode depth')
  end.

Definition validateAgainstTypeName (depth : nat) :=
  validateAgainstTypeName_in (validateTypeNode depth).

(** [validate]: the array that the call returns, and the heap after the
    call. *)
Definition validate (depth : nat) (jsonInput : JsValue)
    (rootType : option string) (heap : Heap) : option (nat * Heap) :=
  let decoded :=
    match jsonInput with
    | VStr text => JSON_parse text
    | _ => Returned jsonInput
    end in
  match decoded with
  | Thrown message =>
      Some (array_literal
              [error "$" ("Invalid JSON: " +:+ message)
                 "InvalidExpression" "ParseError"]
              heap)
  | Returned value =>
      match resolveRootType repository rootType with
      | Thrown message =>
          Some (array_literal
                  [error "$" message "UnknownType" "TypeError"] heap)
      | Returned resolvedRoot =>
          let '(errors, heap1) := array_literal [] heap in
          heap2 ←
            validateAgainstTypeName depth value resolvedRoot "$" errors
              {| scope_root := value; scope_current := value;
                 scope_parent := None |}
              heap1;
          Some (errors, heap2)
      end
  end.

End Methods.

End Mutable.

(** ** Notions used to state the properties *)

(** A walk only appends to the collector, and what it appends does not
    depend on what the collector holds. *)
Definition framed (f : walk) : Prop :=
  forall typeNode value path errors scope,
    f typeNode value path errors scope =
    (errors ++.) <$> f typeNode value path [] scope.

(** Whatever [f] returns, [g] returns too. *)
Definition extends (f g : walk) : Prop :=
  forall typeNode value path errors scope result,
    f typeNode value path errors scope = Some result ->
    g typeNode value path errors scope = Some result.

(** The type names a node refers to. *)
Fixpoint names (node : TypeNode) : list string :=
  match node with
  | TNamed name _ | TNullableNamed name => [name]
  | TNullable inner => names inner
  | TArray itemType _ => names itemType
  | TRecord fields =>
      (fix of_fields (fields : list FieldDef) : list string :=
         match fields with
         | [] => []
         | Field _ type _ _ :: fields' => names type ++ of_fields fields'
         end) fields
  | TDict keyType valueType => names keyType ++ names valueType
  | TUnion members | TIntersection members =>
      (fix of_members (members : list TypeNode) : list string :=
         match members with
         | [] => []
         | member :: members' => names member ++ of_members members'
         end) members
  | TConditional _ thenType elseType => names thenType ++ names elseType
  | TLiteral _ | TAbsent | TUnknownKind => []
  end.

(** The children of a node. *)
Definition children (node : TypeNode) : list TypeNode :=
  match node with
  | TNullable inner => [inner]
  | TArray itemType _ => [itemType]
  | TRecord fields => map field_type fields
  | TDict keyType valueType => [keyType; valueType]
  | TUnion members | TIntersection members => members
  | TConditional _ thenType elseType => [thenType; elseType]
  | _ => []
  end.

(** Every name a node refers to has a rank below the bound. *)
Definition names_below (rank : string -> nat) (bound : nat) (node : TypeNode)
  : Prop :=
  Forall (fun name => rank name < bound) (names node).

(** The named types of a repository refer only to types of lower rank: no
    type refers to itself, directly or through others. *)
Definition stratified (repository : Repository) (rank : string -> nat)
  : Prop :=
  forall name typeDefinition body,
    getType repository name = Some typeDefinition ->
    type_expr typeDefinition = ObjectRef body ->
    names_below rank (rank name) body.

(** The walk [f] returns on the node, whatever the value. *)
Definition returns (f : walk) (typeNode : NodeRef) : Prop :=
  forall value path errors scope,
    is_Some (f typeNode value path errors scope).

(** The escapes of a quoted literal, as the specification words them: a
    backslash before n, r or t stands for LF, CR or TAB, a backslash
    before any other character for that character.  A backslash that ends
    the text, of which the specification says nothing, stands for
    nothing. *)
Definition escape (c : ascii) : ascii :=
  if ascii_eqb c "n" then "010"%char
  else if ascii_eqb c "r" then "013"%char
  else if ascii_eqb c "t" then "009"%char
  else c.

Fixpoint unescape (cs : list ascii) : list ascii :=
  match cs with
  | [] => []
  | c :: rest =>
      if ascii_eqb c "\" then
        match rest with
        | [] => []
        | e :: rest' => escape e :: unescape rest'
        end
      else c :: unescape rest
  end.

(** The loop of a repetition of [Regex.run], with the bound [n] on its
    iterations. *)
Definition iterate (r : regex) (k : cont) : nat -> cont :=
  fix iterate (n : nat) (s : list ascii) (caps : captures)
    : option captures :=
    match n with
    | O => k s caps
    | S n' =>
        match
          run r s caps
            (fun s' caps' =>
               if (length s' <? length s)%nat
               then iterate n' s' caps'
               else None)
        with
        | Some res => Some res
        | None => k s caps
        end
    end.

(** The first character of a text satisfies [p]. *)
Definition starts_with (p : ascii -> bool) (cs : list ascii) : bool :=
  match cs with
  | c :: _ => p c
  | [] => false
  end.

(** A guard of the form [dotted.path <op> literal], as the specification
    words it: identifiers joined by dots, then [=] or [!=], then a
    literal, with white space allowed around the operator. *)
Definition is_identifier (cs : list ascii) : bool :=
  match cs with
  | c :: cs' => is_ident_start c && forallb is_ident_char cs'
  | [] => false
  end.

Definition is_operator (op : list ascii) : bool :=
  match op with
  | [c] => ascii_eqb "=" c
  | [c; d] => ascii_eqb "!" c && ascii_eqb "=" d
  | _ => false
  end.

Definition dotted (segments : list (list ascii)) : list ascii :=
  concat (map (cons "."%char) segments).

Record Guard : Type := {
  guard_first : string;
  guard_more : list string;
  guard_gap1 : string;
  guard_op : string;
  guard_gap2 : string;
  guard_literal : string;
}.

Definition guard_path (g : Guard) : list string :=
  guard_first g :: guard_more g.

Definition guard_text (g : Guard) : string :=
  of_chars
    (chars (guard_first g) ++ dotted (map chars (guard_more g)) ++
     chars (guard_gap1 g) ++ chars (guard_op g) ++ chars (guard_gap2 g) ++
     chars (guard_literal g)).

Definition guard_form (g : Guard) : bool :=
  is_identifier (chars (guard_first g))
  && forallb (fun segment => is_identifier (chars segment)) (guard_more g)
  && forallb is_space (chars (guard_gap1 g))
  && is_operator (chars (guard_op g))
  && forallb is_space (chars (guard_gap2 g))
  && negb (String.eqb (guard_literal g) "")
  && negb (starts_with is_space (chars (guard_literal g))).

(** The pattern of a guard after its path. *)
Definition guard_tail_re : regex :=
  Seq (Star space)
    (Seq (Group 2 operator_re) (Seq (Star space) (Group 3 (Plus any)))).

(** A decimal literal, as the specification words it: an optional minus
    sign, digits, and optionally a dot and digits. *)
Definition drop_digits : list ascii -> list ascii := drop_while is_digit.

Definition digits_then (after : list ascii -> bool) (cs : list ascii)
  : bool :=
  match cs with
  | c :: cs' => is_digit c && after (drop_digits cs')
  | [] => false
  end.

Definition is_end (cs : list ascii) : bool :=
  match cs with [] => true | _ :: _ => false end.

Definition fraction_or_end (cs : list ascii) : bool :=
  match cs with
  | [] => true
  | c :: cs' => ascii_eqb "." c && digits_then is_end cs'
  end.

Definition is_decimal_literal (text : string) : bool :=
  match chars text with
  | c :: cs' =>
      if ascii_eqb "-" c then digits_then fraction_or_end cs'
      else digits_then fraction_or_end (c :: cs')
  | [] => false
  end.

(** The match of a pattern succeeds. *)
Definition succeeds (result : option captures) : bool :=
  match result with Some _ => true | None => false end.

(** The last part of the decimal pattern:  (?: \. \d+ )? *)
Definition fraction_re : regex := Opt (Seq (Chr ".") (Plus digit)).

(** Single- or double-quoted text: it starts and ends with the same quote
    character. *)
Definition quoted (text : string) : bool :=
  (startsWith text double_quote && endsWith text double_quote)
  || (startsWith text "'" && endsWith text "'").

(** A member of a union validates the value with no diagnostic, in an
    evaluation of its own. *)
Definition accepts (f : walk) (value : JsValue) (scope : EvaluationScope)
    (member : TypeNode) : bool :=
  match f (ObjectRef member) value "$" [] scope with
  | Some [] => true
  | _ => false
  end.

(** The fields of a record that may be left out. *)
Definition may_be_omitted (field : FieldDef) : bool :=
  field_optional field
  || bool_decide (field_defaultExpr field ≠ None)
  || match field_type field with TAbsent => true | _ => false end.

(** An array holds the same as before, or more at its end; no other array
    that was there has changed. *)
Definition only_changes (array : nat) (heap heap' : Mutable.Heap) : Prop :=
  length heap <= length heap' /\
  forall other,
    other < length heap -> other <> array -> heap' !! other = heap !! other.

(** Every array that was there is as it was. *)
Definition keeps (heap heap' : Mutable.Heap) : Prop :=
  length heap <= length heap' /\
  forall array, array < length heap -> heap' !! array = heap !! array.

(** A step on a heap does to the array [errors] what a step on a list
    does to the list, changes no other array, and runs out of call stack
    when the other does. *)
Definition same_outcome (errors : nat) (heap : Mutable.Heap)
    (listed : option (list ValidationError))
    (stored : option Mutable.Heap) : Prop :=
  match listed with
  | Some elements =>
      exists heap',
        stored = Some heap' /\ heap' !! errors = Some elements /\
        only_changes errors heap heap'
  | None => stored = None
  end.

(** The same for a step that gives a verdict and changes no array. *)
Definition same_verdict (heap : Mutable.Heap) (listed : option bool)
    (stored : option (bool * Mutable.Heap)) : Prop :=
  match listed with
  | Some verdict =>
      exists heap', stored = Some (verdict, heap') /\ keeps heap heap'
  | None => stored = None
  end.

Definition simulates (f : walk) (F : Mutable.walk) : Prop :=
  forall typeNode value path errors scope heap elements,
    heap !! errors = Some elements ->
    same_outcome errors heap (f typeNode value path elements scope)
      (F typeNode value path errors scope heap).

(** What a caller holds after a call: the elements of the array it was
    handed, and the heap. *)
Definition returned (call : option (nat * Mutable.Heap))
  : list ValidationError :=
  match call with
  | Some (errors, heap) => Mutable.elements heap errors
  | None => []
  end.

Definition heap_after (call : option (nat * Mutable.Heap)) : Mutable.Heap :=
  match call with
  | Some (_, heap) => heap
  | None => []
  end.

(** ** A small schema and engine, to run the validator on *)

Module Sample.

Definition in_quotes (s : string) : string :=
  String double_quote (s +:+ String double_quote "").

Definition of_nat (n : nat) : number :=
  decimal_to_number false (Z.of_nat n) 0.

(** An engine that decodes the few documents used below.  Its regular
    expressions know the pattern [^[a-z]+$] only, and its relational
    operators compare numbers; on other operands they answer false, as the
    language does when an operand converts to NaN. *)
Definition host : JsHost := {|
  JSON_parse text :=
    if String.eqb text "{}" then Returned (VObj [])
    else if String.eqb text "null" then Returned VNull
    else if test number_re text then Returned (VNum (Number text))
    else Thrown "Unexpected token in JSON";
  JSON_stringify value :=
    match value with
    | VStr s => in_quotes s
    | VNull => "null"
    | VBool true => "true"
    | VBool false => "false"
    | _ => "?"
    end;
  ToString value :=
    match value with
    | VStr s => s
    | VBool true => "true"
    | VBool false => "false"
    | _ => "?"
    end;
  RegExp pattern flags :=
    if String.eqb pattern "^[a-z]+$" && String.eqb flags ""
    then Some (test (Plus (Class is_lower)))
    else None;
  less a b :=
    match a, b with VNum x, VNum y => SFltb x y | _, _ => false end;
  greater a b :=
    match a, b with VNum x, VNum y => SFltb y x | _, _ => false end;
  less_equal a b :=
    match a, b with VNum x, VNum y => SFleb x y | _, _ => false end;
  greater_equal a b :=
    match a, b with VNum x, VNum y => SFleb y x | _, _ => false end;
|}.

Definition builtin (matches : JsValue -> bool) : TypeDefinition :=
  {| type_isBuiltin := true; type_matches := Some matches;
     type_expr := NullRef |}.

Definition defined (expr : TypeNode) : TypeDefinition :=
  {| type_isBuiltin := false; type_matches := None;
     type_expr := ObjectRef expr |}.

Definition min3 : ConstraintUsage :=
  {| constraint_name := "min"; callArgs := Some [VStr "3"];
     argument := VNull |}.

Definition unknownRule : ConstraintUsage :=
  {| constraint_name := "unknownRule"; callArgs := Some [VStr "1"];
     argument := VNull |}.

Definition lowercase : ConstraintUsage :=
  {| constraint_name := "lowercase"; callArgs := None; argument := VNull |}.

Definition below (limit : string) : ConstraintUsage :=
  {| constraint_name := "below"; callArgs := Some [VStr limit];
     argument := VNull |}.

Definition status : TypeNode :=
  TUnion [TLiteral (VStr "Rejected"); TLiteral (VStr "Draft")].

(** [Ticket = { status: "Rejected" | "Draft",
                reason: when status = "Rejected" then String(min:3)
                        else absent }] *)
Definition Ticket : TypeNode :=
  TRecord
    [Field "status" status false None;
     Field "reason"
       (TConditional ("status = " +:+ in_quotes "Rejected")
          (TNamed "String" [min3]) TAbsent)
       false None].

Definition types (name : string) : option TypeDefinition :=
  if String.eqb name "String" then
    Some (builtin (fun v => match v with VStr _ => true | _ => false end))
  else if String.eqb name "Int" then
    Some (builtin (fun v => match v with VNum _ => true | _ => false end))
  else if String.eqb name "Root" then
    Some (defined (TRecord [Field "title" (TNamed "String" []) false None]))
  else if String.eqb name "Ticket" then Some (defined Ticket)
  else None.

Definition rank (name : string) : nat :=
  if String.eqb name "Root" || String.eqb name "Ticket" then 1 else 0.

Definition validators (typeName constraintName : string)
  : option ValidatorDefinition :=
  if String.eqb typeName "String" && String.eqb constraintName "min" then
    Some {| validator_isBuiltin := true;
            validator_evaluate :=
              Some (fun value bound =>
                      match value, bound with
                      | VStr s, VNum n =>
                          VBool (SFleb n (of_nat (String.length s)))
                      | _, _ => VNull
                      end);
            validator_body := None;
            validator_params := [] |}
  else if String.eqb typeName "String"
          && String.eqb constraintName "lowercase" then
    Some {| validator_isBuiltin := false;
            validator_evaluate := None;
            validator_body := Some "this matches /^[a-z]+$/";
            validator_params := [] |}
  else if String.eqb typeName "Int" && String.eqb constraintName "below" then
    Some {| validator_isBuiltin := false;
            validator_evaluate := None;
            validator_body := Some "this < $limit";
            validator_params :=
              [{| param_name := "limit"; param_defaultExpr := Some "10" |}]
         |}
  else None.

Definition repository : Repository := {|
  resolveRootType rootType :=
    match rootType with
    | None => Returned "Root"
    | Some name =>
        match types name with
        | Some _ => Returned name
        | None => Thrown ("Unknown root type: " +:+ name)
        end
    end;
  getType := types;
  getValidator := validators;
|}.

(** The guards [a.b = 1] and [owner.name != 'x'], part by part. *)
Definition ab_is_1 : Guard :=
  {| guard_first := "a"; guard_more := ["b"]; guard_gap1 := " ";
     guard_op := "="; guard_gap2 := " "; guard_literal := "1" |}.

Definition owner_name_is_not_x : Guard :=
  {| guard_first := "owner"; guard_more := ["name"]; guard_gap1 := " ";
     guard_op := "!="; guard_gap2 := " "; guard_literal := "'x'" |}.

Definition draft : JsValue :=
  VObj [("status", VStr "Draft"); ("reason", VStr "because")].

(** The same repository with one more type, [Endless = Endless]. *)
Definition with_endless : Repository := {|
  resolveRootType := resolveRootType repository;
  getType name :=
    if String.eqb name "Endless" then Some (defined (TNamed "Endless" []))
    else types name;
  getValidator := validators;
|}.

Definition top (value : JsValue) : EvaluationScope :=
  {| scope_root := value; scope_current := value; scope_parent := None |}.

Definition run (depth : nat) (jsonInput : JsValue) (rootType : string)
  : option (list ValidationError) :=
  validate (host := host) repository depth jsonInput (Some rootType).

End Sample.

(** ** The command line (bin/validate-json.mjs) *)

(** [s.slice(n)] *)
Fixpoint slice (s : string) (n : nat) : string :=
  match n, s with
  | S n', String _ s' => slice s' n'
  | _, _ => s
  end.

(** The loop over the arguments, from [args[i]] on, with what [type] and
    [positionals] hold so far: what they hold when the loop ends. *)
Fixpoint read_arguments (args : list string) (type : option string)
    (positionals : list string) : option string * list string :=
  match args with
  | [] => (type, positionals)
  | arg :: rest =>
      if String.prefix "--type=" arg then
        read_arguments rest (Some (slice arg (String.length "--type=")))
          positionals
      else if String.eqb arg "--type" then
        match rest with
        | next :: rest' => read_arguments rest' (Some next) positionals
        | [] => (None, positionals)
        end
      else read_arguments rest type (positionals ++ [arg])
  end.

(** What the script asks of Node and of the schema package: [path.resolve],
    [fs.existsSync], [fs.statSync(p).isFile()], [fs.readFileSync(p, 'utf8')],
    [new RepositoryBuilder().buildFromFile(p)], and the message of the
    RangeError that the engine throws when the call stack is exhausted. *)
Class NodeHost : Type := {
  path_resolve : string -> string;
  existsSync : string -> bool;
  isFile : string -> attempt bool;
  readFileSync : string -> attempt string;
  buildFromFile : string -> attempt Repository;
  RangeError_message : string;
}.

(** [console.log] writes to the first, [console.error] to the second. *)
Inductive stream : Type := stdout | stderr.

(** How the process ends: [process.exit(code)] after the lines written, or
    an exception that nothing catches. *)
Inductive outcome : Type :=
| Exit (code : nat) (lines : list (stream * string))
| Uncaught (message : string).

Section Script.

Context {host : JsHost} {node : NodeHost}.

(** [loadJsonInput] *)
Definition loadJsonInput (input : string) : attempt string :=
  let resolvedPath := path_resolve input in
  if existsSync resolvedPath then
    match isFile resolvedPath with
    | Returned true => readFileSync resolvedPath
    | Returned false => Returned input
    | Thrown message => Thrown message
    end
  else Returned input.

Definition usage : list (stream * string) :=
  [(stderr, "Usage:");
   (stderr,
    "  validate-json [--type RootType] <json-or-json-file> <schema.scedel>")].

(** The [catch] clause of the script. *)
Definition failed (message : string) : outcome :=
  Exit 2 [(stderr, "Failed to validate JSON:"); (stderr, "- " +:+ message)].

(** The line printed for a diagnostic. *)
Definition report (e : ValidationError) : stream * string :=
  (stderr, "- " +:+ error_path e +:+ ": " +:+ error_message e).

(** The script, run with the arguments [args] (the command line after the
    name of the script) and the depth of call stack the engine allows. *)
Definition main (depth : nat) (args : list string) : outcome :=
  let (type, positionals) := read_arguments args None [] in
  match positionals with
  | [input; schema] =>
      match loadJsonInput input with
      | Thrown message => Uncaught message
      | Returned jsonInput =>
          let schemaPath := path_resolve schema in
          match buildFromFile schemaPath with
          | Thrown message => failed message
          | Returned repository =>
              match validate repository depth (VStr jsonInput) type with
              | None => failed RangeError_message
              | Some [] => Exit 0 [(stdout, "JSON is valid.")]
              | Some errors =>
                  Exit 1
                    ((stderr, "Validation failed:") :: map report errors)
              end
          end
      end
  | _ => Exit 2 usage
  end.

End Script.

(** ** Further notions *)

(** A diagnostic placed under a path: its own path is read from there. *)
Definition under (path : string) (e : ValidationError) : ValidationError :=
  error (path +:+ error_path e) (error_message e) (error_code e)
    (error_category e).

(** The codes of the diagnostics of the walk, each with its category, and
    those of [validate]. *)
Definition walk_codes : list (string * string) :=
  [("UnknownType", "TypeError"); ("TypeMismatch", "TypeError");
   ("FieldMissing", "ValidationError");
   ("FieldMustBeAbsent", "ValidationError");
   ("UnknownConstraint", "SemanticError");
   ("ConstraintViolation", "ValidationError");
   ("ValidatorFailed", "ValidationError")].

Definition validate_codes : list (string * string) :=
  ("InvalidExpression", "ParseError") :: walk_codes.

Definition known (e : ValidationError) : Prop :=
  In (error_code e, error_category e) walk_codes.

(** What a walk appends is a list of diagnostics placed under the path of
    the call, the same list whatever the path and the collector. *)
Definition relative (f : walk) : Prop :=
  forall typeNode value path errors scope result,
    f typeNode value path errors scope = Some result ->
    exists tails,
      Forall known tails /\
      forall path' errors',
        f typeNode value path' errors' scope =
        Some (errors' ++ map (under path') tails).

(** A walk reads its scope through [scope.parent ?? scope.root] only. *)
Definition reads_guard_object (f : walk) : Prop :=
  forall typeNode value path errors scope scope',
    condition_object scope = condition_object scope' ->
    f typeNode value path errors scope = f typeNode value path errors scope'.

(** Whether a guard holds of the value that its path reaches. *)
Definition guard_holds (g : Guard) (current : JsValue) : bool :=
  let equal :=
    strict_equal current (parseMaybeLiteral (VStr (guard_literal g))) in
  if String.eqb (guard_op g) "=" then equal else negb equal.

(** A text with a backslash put before each backslash, and the text in
    quotes that denotes it. *)
Fixpoint protect (cs : list ascii) : list ascii :=
  match cs with
  | [] => []
  | c :: cs' =>
      if ascii_eqb c "\" then c :: c :: protect cs' else c :: protect cs'
  end.

Definition quote (q : ascii) (s : string) : string :=
  of_chars (q :: protect (chars s) ++ [q]).

(** The first success of a continuation on the suffixes of a text, the
    shortest suffix first: what a greedy [.*] leaves to what follows. *)
Fixpoint last_suffix (k : cont) (s : list ascii) (caps : captures)
  : option captures :=
  match s with
  | [] => k [] caps
  | _ :: s' =>
      match last_suffix k s' caps with
      | Some res => Some res
      | None => k s caps
      end
  end.

(** White space, at least one character. *)
Definition is_gap (cs : list ascii) : bool :=
  match cs with
  | [] => false
  | _ :: _ => forallb is_space cs
  end.

(** The group  ( \/ .* \/ )  of the two patterns with [matches]. *)
Definition slashed : regex := Seqs [Chr "/"; Star any; Chr "/"].

(** The body [this matches /pattern/flags], with its gaps. *)
Definition matches_text (gap1 gap2 pattern tail : list ascii) : list ascii :=
  chars "this" ++ gap1 ++ chars "matches" ++ gap2 ++
  "/"%char :: pattern ++ "/"%char :: tail.

Definition this_matches (gap1 gap2 pattern flags : string) : string :=
  "this" +:+ gap1 +:+ "matches" +:+ gap2 +:+ "/" +:+ pattern +:+ "/" +:+
  flags.

(** A character that starts no comparison operator. *)
Definition no_operator (c : ascii) : bool :=
  negb (ascii_eqb "<" c || ascii_eqb ">" c || ascii_eqb "=" c
        || ascii_eqb "!" c).

(** The operators of the pattern simpleComparison, in its order. *)
Definition comparison_operator : regex :=
  Alt (Lit "<=") (Alt (Lit ">=") (Alt (Lit "<")
    (Alt (Lit ">") (Alt (Lit "=") (Lit "!="))))).

Definition is_comparison (op : string) : bool :=
  existsb (String.eqb op) ["<="; ">="; "<"; ">"; "="; "!="].

(** The right-hand side of a comparison: [$name], or a literal that starts
    with neither a dollar sign nor white space. *)
Definition is_operand (right : list ascii) : bool :=
  match right with
  | [] => false
  | c :: name =>
      if ascii_eqb "$" c then is_identifier name else negb (is_space c)
  end.

(** [<] and [>] are read as such when no [=] follows them. *)
Definition reads_as (op : string) (rest : list ascii) : bool :=
  if String.eqb op "<" || String.eqb op ">"
  then negb (starts_with (ascii_eqb "=") rest)
  else true.

(** The body [this <op> right], with its gaps. *)
Definition comparison_text (gap1 : list ascii) (op : string)
    (gap2 right : list ascii) : list ascii :=
  chars "this" ++ gap1 ++ chars op ++ gap2 ++ right.

Definition this_compares (gap1 op gap2 right : string) : string :=
  "this" +:+ gap1 +:+ op +:+ gap2 +:+ right.

Definition comparison_form (gap1 op gap2 right : string) : bool :=
  forallb is_space (chars gap1) && is_comparison op
  && forallb is_space (chars gap2) && is_operand (chars right)
  && reads_as op (chars gap2 ++ chars right).

(** The body [not (this matches /pattern/)], with its gaps. *)
Definition not_matches (gap0 gap1 gap2 gap3 pattern gap4 : string) : string :=
  "not" +:+ gap0 +:+ "(" +:+ gap1 +:+ "this" +:+ gap2 +:+ "matches" +:+
  gap3 +:+ "/" +:+ pattern +:+ "/" +:+ gap4 +:+ ")".

(** The operators of a range. *)
Definition is_range (op : string) : bool :=
  existsb (String.eqb op) ["<="; ">="; "<"; ">"].

(** The body [this <op> $low and this <op> $high], with its gaps. *)
Definition range_text (gap1 : list ascii) (op1 : string)
    (gap2 low gap3 gap4 gap5 : list ascii) (op2 : string)
    (gap6 high : list ascii) : list ascii :=
  chars "this" ++ gap1 ++ chars op1 ++ gap2 ++ "$"%char :: low ++ gap3 ++
  chars "and" ++ gap4 ++ chars "this" ++ gap5 ++ chars op2 ++ gap6 ++
  "$"%char :: high.

Definition this_ranges
    (gap1 op1 gap2 low gap3 gap4 gap5 op2 gap6 high : string) : string :=
  "this" +:+ gap1 +:+ op1 +:+ gap2 +:+ "$" +:+ low +:+ gap3 +:+ "and" +:+
  gap4 +:+ "this" +:+ gap5 +:+ op2 +:+ gap6 +:+ "$" +:+ high.

Definition range_form
    (gap1 op1 gap2 low gap3 gap4 gap5 op2 gap6 high : string) : bool :=
  forallb is_space (chars gap1) && is_range op1
  && forallb is_space (chars gap2) && is_identifier (chars low)
  && is_gap (chars gap3) && is_gap (chars gap4)
  && forallb is_space (chars gap5) && is_range op2
  && forallb is_space (chars gap6) && is_identifier (chars high).

(** What follows the first operator in the pattern rangeAnd:
    \s* \$ ( ident ) \s+ and \s+ this \s* ( [<>] =? ) \s* \$ ( ident ) *)
Definition range_tail : regex :=
  Seqs [Star space; Chr "$"; Group 2 ident; Plus space; Lit "and";
        Plus space; Lit "this"; Star space; Group 3 range_operator;
        Star space; Chr "$"; Group 4 ident].

(** The arguments a constraint hands to a custom validator, and the
    parameters bound to them, as [evaluateCustomValidator] computes
    them. *)
Definition incomingArgs (constraint : ConstraintUsage) : list JsValue :=
  match callArgs constraint with
  | Some l => l
  | None => match argument constraint with VNull => [] | a => [a] end
  end.

Definition bound_args (validator : ValidatorDefinition)
    (constraint : ConstraintUsage) : gmap string JsValue :=
  bind_params (validator_params validator) 0 (incomingArgs constraint) ∅.

(** The value a parameter takes: the argument at its position, unless it
    is missing, null or undefined; then its default expression, or
    null. *)
Definition param_value (param : ParamDef) (incoming : option JsValue)
  : JsValue :=
  parseMaybeLiteral
    (nullish_or incoming
       (match param_defaultExpr param with
        | Some text => VStr text
        | None => VNull
        end)).

(** The names of the members that the language gives [Object.prototype];
    a read of [args] finds such a member when no parameter has its
    name. *)
Definition Object_prototype : list string :=
  ["constructor"; "hasOwnProperty"; "isPrototypeOf"; "propertyIsEnumerable";
   "toLocaleString"; "toString"; "valueOf"; "__proto__";
   "__defineGetter__"; "__defineSetter__"; "__lookupGetter__";
   "__lookupSetter__"].

Definition is_parameter (validator : ValidatorDefinition) (name : string)
  : bool :=
  existsb (String.eqb name) (map param_name (validator_params validator)).

(** [args[name]] is what [arg] reads, a property of [args] itself or
    undefined: no parameter is named [__proto__] (an assignment to that
    name makes no property of [args], and may give it another prototype),
    and the name is that of a parameter, or of no member of
    [Object.prototype]. *)
Definition own_or_undefined (validator : ValidatorDefinition)
    (name : string) : bool :=
  negb (is_parameter validator "__proto__")
  && (is_parameter validator name
      || negb (existsb (String.eqb name) Object_prototype)).

(** An argument that the loop of the script reads as an option. *)
Definition is_option (arg : string) : bool :=
  String.prefix "--type=" arg || String.eqb arg "--type".

(** ** A file system and more validators, to run the script and the
    bodies on *)

Module Desk.

(** One document, [doc.json], and one schema, [schema.scedel], in the
    working directory [/work]. *)
Definition node : NodeHost := {|
  path_resolve p := "/work/" +:+ p;
  existsSync p := String.eqb p "/work/doc.json";
  isFile p := Returned true;
  readFileSync p := Returned "{}";
  buildFromFile p :=
    if String.eqb p "/work/schema.scedel" then Returned Sample.repository
    else Thrown "ENOENT: no such file or directory";
  RangeError_message := "Maximum call stack size exceeded";
|}.

Definition lowercase : ValidatorDefinition :=
  {| validator_isBuiltin := false; validator_evaluate := None;
     validator_body := Some "this matches /^[a-z]+$/";
     validator_params := [] |}.

Definition lowercase_i : ValidatorDefinition :=
  {| validator_isBuiltin := false; validator_evaluate := None;
     validator_body := Some "this matches /^[a-z]+$/i";
     validator_params := [] |}.

Definition limit : ParamDef :=
  {| param_name := "limit"; param_defaultExpr := Some "10" |}.

Definition below : ValidatorDefinition :=
  {| validator_isBuiltin := false; validator_evaluate := None;
     validator_body := Some " this < $limit ";
     validator_params := [limit] |}.

Definition uppercase : ValidatorDefinition :=
  {| validator_isBuiltin := false; validator_evaluate := None;
     validator_body := Some "not (this matches /^[a-z]+$/)";
     validator_params := [] |}.

Definition between : ValidatorDefinition :=
  {| validator_isBuiltin := false; validator_evaluate := None;
     validator_body := Some "this >= $low and this < $high";
     validator_params :=
       [{| param_name := "low"; param_defaultExpr := Some "1" |};
        {| param_name := "high"; param_defaultExpr := Some "10" |}] |}.

End Desk.

(** ** Tactics *)

(** [step H]: the first call of a sequence that returned did return. *)
Ltac step H :=
  match type of H with
  | (?m ≫= _) = Some _ =>
      let E := fresh "E" in
      destruct m eqn:E; simpl in H; [|discriminate]
  end.

Create Rewrite HintDb relocation.

(** The two ways a step of the walk ends: with nothing appended, or with
    one diagnostic at the path of the call. *)
Ltac known_code := unfold known, walk_codes; simpl; tauto.

Ltac here := intros; cbn [map]; autorewrite with relocation; reflexivity.

Ltac nothing := exists []; split; [constructor|here].

Ltac single :=
  eexists [error "" _ _ _]; split; revgoals;
  [here|constructor; [known_code|constructor]].

(** * Properties *)

(** ** The helpers on concrete inputs *)

Example Number_tenth :
  Number "0.1" = S754_finite false 7205759403792794 (-56).
Proof. reflexivity. Qed.

Example Number_ties_to_even :
  Number "9007199254740993" = Number "9007199254740992".
Proof. reflexivity. Qed.

Example Number_negative_zero : Number "-0.0" = S754_zero true.
Proof. reflexivity. Qed.

Example Number_rounds_to_nearest :
  Number "0.30000000000000004" = S754_finite false 5404319552844596 (-54) /\
  Number "4.9" = S754_finite false 5516909543528858 (-50) /\
  Number "123456789012345680000" = S754_finite false 7535204407491802 14.
Proof. repeat split; reflexivity. Qed.

Example Number_same_value :
  strict_equal (VNum (Number "1.50")) (VNum (Number "1.5")) = true.
Proof. reflexivity. Qed.

Example trim_example : trim (String "009" " a b  ") = "a b".
Proof. reflexivity. Qed.

Example split_example : split "." "owner.name" = ["owner"; "name"].
Proof. reflexivity. Qed.

Example of_index_example : of_index 120 = "120".
Proof. reflexivity. Qed.

Example condition_re_example :
  (caps ← exec condition_re "owner.name  !=  'x y' ";
   Some (group 1 caps, group 2 caps, group 3 caps)) =
  Some ("owner.name", "!=", "'x y' ").
Proof. reflexivity. Qed.

Example condition_re_no_operator : exec condition_re "owner.name" = None.
Proof. reflexivity. Qed.

Example condition_re_bad_path : exec condition_re "owner..name = 1" = None.
Proof. reflexivity. Qed.

Example regexNegation_re_example :
  (caps ← exec regexNegation_re "not ( this matches /^a\/b$/ )";
   Some (group 1 caps)) = Some "/^a\/b$/".
Proof. reflexivity. Qed.

Example regex_literal_re_example :
  (caps ← exec regex_literal_re "/^a\/b$/gi";
   Some (group 1 caps, group 2 caps)) = Some ("^a\/b$", "gi").
Proof. reflexivity. Qed.

Example rangeAnd_re_example :
  (caps ← exec rangeAnd_re "this >= $min and this<$max";
   Some (group 1 caps, group 2 caps, group 3 caps, group 4 caps)) =
  Some (">=", "min", "<", "max").
Proof. reflexivity. Qed.

Example simpleComparison_re_example :
  (caps ← exec simpleComparison_re "this <= 10";
   Some (group 1 caps, group 2 caps)) = Some ("<=", "10").
Proof. reflexivity. Qed.

Example evaluateCondition_example :
  evaluateCondition ("status = " +:+ Sample.in_quotes "Rejected")
    (VObj [("status", VStr "Rejected")]) = Some true.
Proof. reflexivity. Qed.

Example validate_ticket_example :
  Sample.run 4 Sample.draft "Ticket" =
  Some [error "$.reason" "Expected field to be absent." "FieldMustBeAbsent"
          "ValidationError"].
Proof. reflexivity. Qed.

Example validate_endless_example :
  validateTypeNode (host := Sample.host) Sample.with_endless 50
    (ObjectRef (TNamed "Endless" [])) VNull "$" [] (Sample.top VNull) = None.
Proof. reflexivity. Qed.

Example validate_paths_example :
  validateTypeNode (host := Sample.host) Sample.repository 3
    (ObjectRef
       (TRecord
          [Field "items" (TArray (TNamed "Int" []) []) false None;
           Field "map" (TDict (TNamed "String" [Sample.lowercase])
                          (TNamed "Int" [])) false None]))
    (VObj [("items", VArr [VNum (Number "1"); VNum (Number "2"); VNull]);
           ("map", VObj [("X", VNull)])])
    "$" [] (Sample.top VNull) =
  Some [error "$.items[2]" "Expected Int." "TypeMismatch" "TypeError";
        error "$.map.[key:X]" "Constraint failed: String.lowercase"
          "ValidatorFailed" "ValidationError";
        error "$.map.X" "Expected Int." "TypeMismatch" "TypeError"].
Proof. reflexivity. Qed.

(** ** The walk *)

Section WalkFacts.

Context {host : JsHost}.
Variable repository : Repository.

(** *** The collector is append-only *)

Lemma applyConstraint_frame targetType constraint value path errors scope :
  applyConstraint repository targetType constraint value path errors scope =
  errors ++
  applyConstraint repository targetType constraint value path [] scope.
Proof.
  unfold applyConstraint.
  destruct (getValidator repository targetType (constraint_name constraint))
    as [validator|]; [|reflexivity].
  destruct (validator_isBuiltin validator),
    (validator_evaluate validator) as [evaluate|];
    try (destruct (evaluateCustomValidator _ _ _ _) as [[]|];
         rewrite ?app_nil_r; reflexivity).
  destruct (evaluate _ _) as [| |[]| | | |]; rewrite ?app_nil_r; reflexivity.
Qed.

Lemma applyConstraints_frame targetType constraints value path errors scope :
  applyConstraints repository targetType constraints value path errors scope =
  errors ++
  flat_map
    (fun constraint =>
       applyConstraint repository targetType constraint value path [] scope)
    constraints.
Proof.
  unfold applyConstraints.
  revert errors.
  induction constraints as [|constraint constraints IH]; intros errors; simpl.
  - now rewrite app_nil_r.
  - rewrite IH, applyConstraint_frame, <- app_assoc. reflexivity.
Qed.

Section Framed.

Variable f : walk.
Hypothesis Hf : framed f.

Lemma validateAgainstTypeName_in_frame value typeName path errors scope :
  validateAgainstTypeName_in repository f value typeName path errors scope =
  (errors ++.) <$>
  validateAgainstTypeName_in repository f value typeName path [] scope.
Proof.
  unfold validateAgainstTypeName_in.
  destruct (getType repository typeName) as [typeDefinition|];
    [|reflexivity].
  destruct (type_isBuiltin typeDefinition),
    (type_matches typeDefinition) as [matches|]; try apply Hf.
  destruct (negb (matches value)); simpl; now rewrite ?app_nil_r.
Qed.

Lemma validateItems_frame itemType array items i path errors scope :
  validateItems f itemType array items i path errors scope =
  (errors ++.) <$> validateItems f itemType array items i path [] scope.
Proof.
  revert i errors.
  induction items as [|item items IH]; intros i errors; simpl.
  - now rewrite app_nil_r.
  - rewrite (Hf _ _ _ errors).
    destruct (f _ item _ [] _) as [new|]; simpl; [|reflexivity].
    rewrite IH, (IH _ new).
    destruct (validateItems _ _ _ _ _ _ [] _); simpl; [|reflexivity].
    now rewrite app_assoc.
Qed.

Lemma validateField_frame value props field path errors scope :
  validateField f value props field path errors scope =
  (errors ++.) <$> validateField f value props field path [] scope.
Proof.
  unfold validateField.
  destruct (own_property props (field_name field)); [apply Hf|].
  destruct (_ || _); simpl; [now rewrite app_nil_r|].
  destruct (field_type field); simpl; now rewrite ?app_nil_r.
Qed.

Lemma validateFields_frame value props fields path errors scope :
  validateFields f value props fields path errors scope =
  (errors ++.) <$> validateFields f value props fields path [] scope.
Proof.
  revert errors.
  induction fields as [|field fields IH]; intros errors; simpl.
  - now rewrite app_nil_r.
  - rewrite (validateField_frame _ _ _ _ errors).
    destruct (validateField _ _ _ _ _ [] _) as [new|]; simpl;
      [|reflexivity].
    rewrite IH, (IH new).
    destruct (validateFields _ _ _ _ _ [] _); simpl; [|reflexivity].
    now rewrite app_assoc.
Qed.

Lemma validateEntries_frame keyType valueType value entries path errors
    scope :
  validateEntries f keyType valueType value entries path errors scope =
  (errors ++.) <$>
  validateEntries f keyType valueType value entries path [] scope.
Proof.
  revert errors.
  induction entries as [|[entryKey entryValue] entries IH];
    intros errors; simpl.
  - now rewrite app_nil_r.
  - rewrite (Hf _ _ _ errors).
    destruct (f _ (VStr entryKey) _ [] _) as [new1|]; simpl;
      [|reflexivity].
    rewrite (Hf _ _ _ (errors ++ new1)), (Hf _ _ _ new1).
    destruct (f _ entryValue _ [] _) as [new2|]; simpl; [|reflexivity].
    rewrite IH, (IH (new1 ++ new2)).
    destruct (validateEntries _ _ _ _ _ _ [] _); simpl; [|reflexivity].
    now rewrite !app_assoc.
Qed.

Lemma validateMembers_frame members value path errors scope :
  validateMembers f members value path errors scope =
  (errors ++.) <$> validateMembers f members value path [] scope.
Proof.
  revert errors.
  induction members as [|member members IH]; intros errors; simpl.
  - now rewrite app_nil_r.
  - rewrite (Hf _ _ _ errors).
    destruct (f _ value _ [] _) as [new|]; simpl; [|reflexivity].
    rewrite IH, (IH new).
    destruct (validateMembers _ _ _ _ [] _); simpl; [|reflexivity].
    now rewrite app_assoc.
Qed.

Lemma validateTypeNode_body_frame :
  framed (validateTypeNode_body repository f).
Proof.
  intros [| |node] value path errors scope; simpl;
    try (now rewrite app_nil_r).
  destruct node as
    [name constraints|name|inner|itemType constraints|fields
    |keyType valueType|members|members|condition thenType elseType
    |literal| |]; simpl.
  - unfold validateNamed_in.
    rewrite validateAgainstTypeName_in_frame.
    destruct (validateAgainstTypeName_in _ _ _ _ _ [] _) as [new|]; simpl;
      [|reflexivity].
    rewrite applyConstraints_frame, (applyConstraints_frame _ _ _ _ new).
    now rewrite app_assoc.
  - destruct value; simpl; rewrite ?app_nil_r; try reflexivity;
      apply validateAgainstTypeName_in_frame.
  - destruct value; simpl; rewrite ?app_nil_r; try reflexivity; apply Hf.
  - destruct value; simpl; rewrite ?app_nil_r; try reflexivity.
    rewrite validateItems_frame, applyConstraints_frame.
    rewrite (validateItems_frame _ _ _ _ _ (applyConstraints _ _ _ _ _ [] _)).
    rewrite applyConstraints_frame; simpl.
    destruct (validateItems _ _ _ _ _ _ [] _); simpl; [|reflexivity].
    now rewrite app_assoc.
  - destruct value; simpl; rewrite ?app_nil_r; try reflexivity.
    apply validateFields_frame.
  - destruct value; simpl; rewrite ?app_nil_r; try reflexivity.
    apply validateEntries_frame.
  - destruct (someValid _ _ _ _) as [[]|]; simpl; now rewrite ?app_nil_r.
  - apply validateMembers_frame.
  - destruct (evaluateCondition _ _) as [[]|]; try apply Hf.
    destruct (isValid_in f (ObjectRef thenType) value scope) as [[]|];
      simpl; rewrite ?app_nil_r; try reflexivity.
    destruct (isValid_in f (ObjectRef elseType) value scope) as [[]|];
      simpl; now rewrite ?app_nil_r.
  - destruct (negb _); simpl; now rewrite ?app_nil_r.
  - destruct value; simpl; now rewrite ?app_nil_r.
  - now rewrite app_nil_r.
Qed.

End Framed.

Lemma validateTypeNode_frame depth : framed (validateTypeNode repository depth).
Proof.
  induction depth as [|depth IH]; [easy|].
  apply validateTypeNode_body_frame, IH.
Qed.

(** *** No loop stops at a violation

    Each loop of the walk returns exactly when the walk of every child
    returns, and then yields the diagnostics of all the children, in
    order. *)

Section Each.

Variable f : walk.
Hypothesis Hf : framed f.

Lemma validateItems_each itemType array items i path errors scope result :
  validateItems f itemType array items i path errors scope = Some result <->
  exists news,
    length news = length items /\
    (forall j item new,
       items !! j = Some item -> news !! j = Some new ->
       f (ObjectRef itemType) item
         (path +:+ "[" +:+ of_index (i + j) +:+ "]") []
         {| scope_root := scope_root scope; scope_current := item;
            scope_parent := Some array |} = Some new) /\
    result = errors ++ concat news.
Proof.
  revert i errors result.
  induction items as [|item0 items IH]; intros i errors result; simpl.
  - split.
    + intros [= <-]. exists []. repeat split; [easy|now rewrite app_nil_r].
    + intros (news & Hlen & _ & ->). destruct news; [|discriminate].
      now rewrite app_nil_r.
  - rewrite (Hf _ _ _ errors). split.
    + destruct (f _ item0 _ [] _) as [new0|] eqn:E; simpl; [|easy].
      intros H. apply IH in H as (news & Hlen & Hall & ->).
      exists (new0 :: news). split; [simpl; lia|split].
      * intros [|j] item new; simpl.
        -- intros [= <-] [= <-]. now rewrite Nat.add_0_r.
        -- intros Hitem Hnew. replace (i + S j) with (S i + j) by lia.
           now apply Hall.
      * simpl. now rewrite app_assoc.
    + intros (news & Hlen & Hall & ->).
      destruct news as [|new0 news]; [discriminate|].
      pose proof (Hall 0 item0 new0 eq_refl eq_refl) as H0.
      rewrite Nat.add_0_r in H0. rewrite H0. simpl.
      apply IH. exists news. split; [simpl in Hlen; lia|split].
      * intros j item new Hitem Hnew.
        replace (S i + j) with (i + S j) by lia. now apply (Hall (S j)).
      * now rewrite app_assoc.
Qed.

Lemma validateEntries_each keyType valueType value entries path errors scope
    result :
  validateEntries f keyType valueType value entries path errors scope
    = Some result <->
  exists news,
    Forall2
      (fun entry new =>
         exists newKey newValue,
           f (ObjectRef keyType) (VStr (fst entry))
             (path +:+ ".[key:" +:+ fst entry +:+ "]") []
             {| scope_root := scope_root scope;
                scope_current := VStr (fst entry);
                scope_parent := Some value |} = Some newKey /\
           f (ObjectRef valueType) (snd entry)
             (path +:+ "." +:+ fst entry) []
             {| scope_root := scope_root scope;
                scope_current := snd entry;
                scope_parent := Some value |} = Some newValue /\
           new = newKey ++ newValue)
      entries news /\
    result = errors ++ concat news.
Proof.
  revert errors result.
  induction entries as [|[entryKey entryValue] entries IH];
    intros errors result; simpl.
  - split.
    + intros [= <-]. exists []. split; [constructor|now rewrite app_nil_r].
    + intros (news & Hall & ->). inversion Hall. now rewrite app_nil_r.
  - rewrite (Hf _ _ _ errors). split.
    + destruct (f _ (VStr entryKey) _ [] _) as [newKey|] eqn:E1; simpl;
        [|easy].
      rewrite (Hf _ _ _ (errors ++ newKey)).
      destruct (f _ entryValue _ [] _) as [newValue|] eqn:E2; simpl;
        [|easy].
      intros H. apply IH in H as (news & Hall & ->).
      exists ((newKey ++ newValue) :: news). split.
      * constructor; [|exact Hall]. now exists newKey, newValue.
      * simpl. now rewrite !app_assoc.
    + intros (news & Hall & ->).
      inversion Hall as [|? new ? news' Hnew Hall']; subst.
      destruct Hnew as (newKey & newValue & E1 & E2 & ->). simpl in *.
      rewrite E1. simpl. rewrite (Hf _ _ _ (errors ++ newKey)), E2. simpl.
      apply IH. exists news'. split; [exact Hall'|].
      now rewrite !app_assoc.
Qed.

Lemma validateMembers_each members value path errors scope result :
  validateMembers f members value path errors scope = Some result <->
  exists news,
    Forall2
      (fun member new => f (ObjectRef member) value path [] scope = Some new)
      members news /\
    result = errors ++ concat news.
Proof.
  revert errors result.
  induction members as [|member members IH]; intros errors result; simpl.
  - split.
    + intros [= <-]. exists []. split; [constructor|now rewrite app_nil_r].
    + intros (news & Hall & ->). inversion Hall. now rewrite app_nil_r.
  - rewrite (Hf _ _ _ errors). split.
    + destruct (f _ value _ [] _) as [new|] eqn:E; simpl; [|easy].
      intros H. apply IH in H as (news & Hall & ->).
      exists (new :: news). split; [now constructor|].
      simpl. now rewrite app_assoc.
    + intros (news & Hall & ->).
      inversion Hall as [|? new ? news' Hnew Hall']; subst.
      rewrite Hnew. simpl. apply IH. exists news'. split; [exact Hall'|].
      now rewrite app_assoc.
Qed.

Lemma validateFields_each value props fields path errors scope result :
  validateFields f value props fields path errors scope = Some result <->
  exists news,
    Forall2
      (fun field new =>
         validateField f value props field path [] scope = Some new)
      fields news /\
    result = errors ++ concat news.
Proof.
  revert errors result.
  induction fields as [|field fields IH]; intros errors result; simpl.
  - split.
    + intros [= <-]. exists []. split; [constructor|now rewrite app_nil_r].
    + intros (news & Hall & ->). inversion Hall. now rewrite app_nil_r.
  - rewrite (validateField_frame _ Hf).
    split.
    + destruct (validateField _ _ _ _ _ [] _) as [new|] eqn:E; simpl;
        [|easy].
      intros H. apply IH in H as (news & Hall & ->).
      exists (new :: news). split; [now constructor|].
      simpl. now rewrite app_assoc.
    + intros (news & Hall & ->).
      inversion Hall as [|? new ? news' Hnew Hall']; subst.
      rewrite Hnew. simpl. apply IH. exists news'. split; [exact Hall'|].
      now rewrite app_assoc.
Qed.

End Each.

(** *** A deeper call stack changes no result *)

Section Extends.

Variables f g : walk.
Hypothesis Hfg : extends f g.

Lemma validateAgainstTypeName_in_extends value typeName path errors scope
    result :
  validateAgainstTypeName_in repository f value typeName path errors scope
    = Some result ->
  validateAgainstTypeName_in repository g value typeName path errors scope
    = Some result.
Proof.
  unfold validateAgainstTypeName_in.
  destruct (getType repository typeName) as [typeDefinition|]; [|easy].
  destruct (type_isBuiltin typeDefinition),
    (type_matches typeDefinition); try easy; apply Hfg.
Qed.

Lemma isValid_in_extends typeNode value scope result :
  isValid_in f typeNode value scope = Some result ->
  isValid_in g typeNode value scope = Some result.
Proof.
  unfold isValid_in. intros H. step H.
  now rewrite (Hfg _ _ _ _ _ _ E).
Qed.

Lemma validateItems_extends itemType array items i path errors scope
    result :
  validateItems f itemType array items i path errors scope = Some result ->
  validateItems g itemType array items i path errors scope = Some result.
Proof.
  revert i errors.
  induction items as [|item items IH]; intros i errors; simpl; [easy|].
  intros H. step H. rewrite (Hfg _ _ _ _ _ _ E); simpl. now apply IH.
Qed.

Lemma validateField_extends value props field path errors scope result :
  validateField f value props field path errors scope = Some result ->
  validateField g value props field path errors scope = Some result.
Proof.
  unfold validateField.
  destruct (own_property props (field_name field)); [apply Hfg|easy].
Qed.

Lemma validateFields_extends value props fields path errors scope result :
  validateFields f value props fields path errors scope = Some result ->
  validateFields g value props fields path errors scope = Some result.
Proof.
  revert errors.
  induction fields as [|field fields IH]; intros errors; simpl; [easy|].
  intros H. step H. rewrite (validateField_extends _ _ _ _ _ _ _ E); simpl.
  now apply IH.
Qed.

Lemma validateEntries_extends keyType valueType value entries path errors
    scope result :
  validateEntries f keyType valueType value entries path errors scope
    = Some result ->
  validateEntries g keyType valueType value entries path errors scope
    = Some result.
Proof.
  revert errors.
  induction entries as [|[entryKey entryValue] entries IH];
    intros errors; simpl; [easy|].
  intros H. step H. rewrite (Hfg _ _ _ _ _ _ E); simpl.
  step H. rewrite (Hfg _ _ _ _ _ _ E0); simpl. now apply IH.
Qed.

Lemma someValid_extends members value scope result :
  someValid f members value scope = Some result ->
  someValid g members value scope = Some result.
Proof.
  induction members as [|member members IH]; simpl; [easy|].
  intros H. step H. rewrite (isValid_in_extends _ _ _ _ E); simpl.
  destruct b; [easy|now apply IH].
Qed.

Lemma validateMembers_extends members value path errors scope result :
  validateMembers f members value path errors scope = Some result ->
  validateMembers g members value path errors scope = Some result.
Proof.
  revert errors.
  induction members as [|member members IH]; intros errors; simpl;
    [easy|].
  intros H. step H. rewrite (Hfg _ _ _ _ _ _ E); simpl. now apply IH.
Qed.

Lemma validateTypeNode_body_extends :
  extends (validateTypeNode_body repository f)
    (validateTypeNode_body repository g).
Proof.
  intros [| |node] value path errors scope result; simpl; try easy.
  destruct node as
    [name constraints|name|inner|itemType constraints|fields
    |keyType valueType|members|members|condition thenType elseType
    |literal| |]; simpl.
  - unfold validateNamed_in. intros H. step H.
    now rewrite (validateAgainstTypeName_in_extends _ _ _ _ _ _ E).
  - destruct value; try easy; apply validateAgainstTypeName_in_extends.
  - destruct value; try easy; apply Hfg.
  - destruct value; try easy. apply validateItems_extends.
  - destruct value; try easy. apply validateFields_extends.
  - destruct value; try easy. apply validateEntries_extends.
  - intros H. step H. now rewrite (someValid_extends _ _ _ _ E).
  - apply validateMembers_extends.
  - destruct (evaluateCondition _ _) as [[]|]; try apply Hfg.
    intros H.
    destruct (isValid_in f (ObjectRef thenType) value scope)
      as [validThen|] eqn:E; simpl in H; [|discriminate].
    rewrite (isValid_in_extends _ _ _ _ E); simpl.
    destruct validThen; [easy|].
    destruct (isValid_in f (ObjectRef elseType) value scope)
      as [validElse|] eqn:E'; simpl in H; [|discriminate].
    now rewrite (isValid_in_extends _ _ _ _ E').
  - easy.
  - easy.
  - easy.
Qed.

End Extends.

Lemma validateTypeNode_S depth :
  extends (validateTypeNode repository depth)
    (validateTypeNode repository (S depth)).
Proof.
  induction depth as [|depth IH]; [easy|].
  apply validateTypeNode_body_extends, IH.
Qed.

Lemma validateTypeNode_le depth depth' :
  depth <= depth' ->
  extends (validateTypeNode repository depth)
    (validateTypeNode repository depth').
Proof.
  induction 1 as [|depth' _ IH]; [easy|].
  intros typeNode value path errors scope result H.
  now apply validateTypeNode_S, IH.
Qed.

End WalkFacts.

(** *** The walk returns *)

(** Induction on a node, with the property at hand for its children. *)
Lemma TypeNode_children_ind (P : TypeNode -> Prop) :
  (forall node, Forall P (children node) -> P node) ->
  forall node, P node.
Proof.
  intros step.
  fix IH 1. intros node. apply step.
  destruct node as
    [name constraints|name|inner|itemType constraints|fields
    |keyType valueType|members|members|condition thenType elseType
    |literal| |]; simpl; repeat constructor; try apply IH.
  - induction fields as [|[name type optional defaultExpr] fields IHf];
      simpl; constructor; [apply IH|exact IHf].
  - induction members as [|member members IHm]; constructor;
      [apply IH|exact IHm].
  - induction members as [|member members IHm]; constructor;
      [apply IH|exact IHm].
Qed.

Lemma names_child node child :
  In child (children node) -> incl (names child) (names node).
Proof.
  destruct node as
    [name constraints|name|inner|itemType constraints|fields
    |keyType valueType|members|members|condition thenType elseType
    |literal| |]; simpl; try easy.
  - now intros [<- | []].
  - now intros [<- | []].
  - induction fields as [|[name type optional defaultExpr] fields IH];
      simpl; [easy|].
    intros [<- | Hin]; [now apply incl_appl|].
    apply incl_appr. now apply IH.
  - intros [<- | [<- | []]]; [now apply incl_appl|now apply incl_appr].
  - induction members as [|member members IH]; simpl; [easy|].
    intros [<- | Hin]; [now apply incl_appl|].
    apply incl_appr. now apply IH.
  - induction members as [|member members IH]; simpl; [easy|].
    intros [<- | Hin]; [now apply incl_appl|].
    apply incl_appr. now apply IH.
  - intros [<- | [<- | []]]; [now apply incl_appl|now apply incl_appr].
Qed.

Lemma names_below_child rank bound node child :
  names_below rank bound node ->
  In child (children node) ->
  names_below rank bound child.
Proof.
  unfold names_below. rewrite !List.Forall_forall.
  intros Hnode Hchild name Hname.
  apply Hnode. now apply (names_child node child).
Qed.

Section Returns.

Context {host : JsHost}.
Variable repository : Repository.

Lemma returns_le depth depth' typeNode :
  depth <= depth' ->
  returns (validateTypeNode repository depth) typeNode ->
  returns (validateTypeNode repository depth') typeNode.
Proof.
  intros Hle Hreturns value path errors scope.
  destruct (Hreturns value path errors scope) as [result Hresult].
  exists result. now apply (validateTypeNode_le repository depth depth').
Qed.

(** One depth serves all the nodes of a list. *)
Lemma returns_all nodes :
  Forall
    (fun node =>
       exists depth,
         returns (validateTypeNode repository depth) (ObjectRef node)) nodes ->
  exists depth,
    Forall
      (fun node =>
         returns (validateTypeNode repository depth) (ObjectRef node)) nodes.
Proof.
  induction 1 as [|node nodes (depth1 & H1) _ (depth2 & H2)].
  - now exists 0.
  - exists (Nat.max depth1 depth2). constructor.
    + apply (returns_le depth1); [lia|exact H1].
    + apply (Forall_impl _ _ _ H2). intros node' Hnode'.
      apply (returns_le depth2); [lia|exact Hnode'].
Qed.

Section Loops.

Variable f : walk.

Lemma validateItems_returns itemType array items i path errors scope :
  returns f (ObjectRef itemType) ->
  is_Some (validateItems f itemType array items i path errors scope).
Proof.
  intros Hitem. revert i errors.
  induction items as [|item items IH]; intros i errors; simpl; [easy|].
  destruct (Hitem item (path +:+ "[" +:+ of_index i +:+ "]") errors
              {| scope_root := scope_root scope; scope_current := item;
                 scope_parent := Some array |}) as [errors' ->].
  apply IH.
Qed.

Lemma validateFields_returns value props fields path errors scope :
  Forall (fun field => returns f (ObjectRef (field_type field))) fields ->
  is_Some (validateFields f value props fields path errors scope).
Proof.
  intros Hfields. revert errors.
  induction Hfields as [|field fields Hfield _ IH]; intros errors; simpl;
    [easy|].
  assert (is_Some (validateField f value props field path errors scope))
    as [errors' ->]; [|apply IH].
  unfold validateField.
  destruct (own_property props (field_name field)); [apply Hfield|].
  destruct (_ || _); [easy|]. now destruct (field_type field).
Qed.

Lemma validateEntries_returns keyType valueType value entries path errors
    scope :
  returns f (ObjectRef keyType) ->
  returns f (ObjectRef valueType) ->
  is_Some
    (validateEntries f keyType valueType value entries path errors scope).
Proof.
  intros Hkey Hvalue. revert errors.
  induction entries as [|[entryKey entryValue] entries IH]; intros errors;
    simpl; [easy|].
  destruct (Hkey (VStr entryKey) (path +:+ ".[key:" +:+ entryKey +:+ "]")
              errors
              {| scope_root := scope_root scope;
                 scope_current := VStr entryKey;
                 scope_parent := Some value |}) as [errors1 ->].
  simpl.
  destruct (Hvalue entryValue (path +:+ "." +:+ entryKey) errors1
              {| scope_root := scope_root scope;
                 scope_current := entryValue;
                 scope_parent := Some value |}) as [errors2 ->].
  apply IH.
Qed.

Lemma isValid_in_returns typeNode value scope :
  returns f typeNode -> is_Some (isValid_in f typeNode value scope).
Proof.
  intros Hnode. unfold isValid_in.
  now destruct (Hnode value "$" [] scope) as [errors ->].
Qed.

Lemma someValid_returns members value scope :
  Forall (fun member => returns f (ObjectRef member)) members ->
  is_Some (someValid f members value scope).
Proof.
  induction 1 as [|member members Hmember _ IH]; simpl; [easy|].
  destruct (isValid_in_returns _ value scope Hmember) as [[] ->]; [easy|].
  exact IH.
Qed.

Lemma validateMembers_returns members value path errors scope :
  Forall (fun member => returns f (ObjectRef member)) members ->
  is_Some (validateMembers f members value path errors scope).
Proof.
  intros Hmembers. revert errors.
  induction Hmembers as [|member members Hmember _ IH]; intros errors; simpl;
    [easy|].
  destruct (Hmember value path errors scope) as [errors' ->]. apply IH.
Qed.

End Loops.

(** On a stratified repository the walk returns, given enough depth of
    call stack: the depth depends on the node, not on the value. *)
Lemma validateTypeNode_returns rank :
  stratified repository rank ->
  forall typeNode,
    exists depth, returns (validateTypeNode repository depth) typeNode.
Proof.
  intros Hstratified.
  assert (forall bound node,
            names_below rank bound node ->
            exists depth,
              returns (validateTypeNode repository depth) (ObjectRef node))
    as Hnodes.
  { induction bound as [bound IHbound] using lt_wf_ind.
    assert (forall name,
              rank name < bound ->
              exists depth,
                forall value path errors scope,
                  is_Some
                    (validateAgainstTypeName repository depth value name path
                       errors scope)) as Hname.
    { intros name Hrank.
      unfold validateAgainstTypeName, validateAgainstTypeName_in.
      destruct (getType repository name) as [typeDefinition|] eqn:Hdef;
        [|now exists 0].
      destruct (type_expr typeDefinition) as [| |body] eqn:Hexpr.
      - exists 1. intros value path errors scope.
        destruct (type_isBuiltin typeDefinition),
          (type_matches typeDefinition) as [matches|]; try easy.
        now destruct (negb (matches value)).
      - exists 1. intros value path errors scope.
        destruct (type_isBuiltin typeDefinition),
          (type_matches typeDefinition) as [matches|]; try easy.
        now destruct (negb (matches value)).
      - destruct (IHbound (rank name) Hrank body
                    (Hstratified _ _ _ Hdef Hexpr)) as [depth Hbody].
        exists depth. intros value path errors scope.
        destruct (type_isBuiltin typeDefinition),
          (type_matches typeDefinition) as [matches|]; try apply Hbody.
        now destruct (negb (matches value)). }
    induction node as [node IHnode] using TypeNode_children_ind.
    intros Hbelow.
    assert (exists depth,
              Forall
                (fun child =>
                   returns (validateTypeNode repository depth)
                     (ObjectRef child)) (children node))
      as [depth Hchildren].
    { apply returns_all. rewrite List.Forall_forall in IHnode |- *.
      intros child Hchild. apply (IHnode child Hchild).
      now apply (names_below_child rank bound node). }
    destruct node as
      [name constraints|name|inner|itemType constraints|fields
      |keyType valueType|members|members|condition thenType elseType
      |literal| |]; simpl in Hchildren.
    - destruct (Hname name) as [depth' Hreturns].
      { now inversion Hbelow. }
      unfold validateAgainstTypeName in Hreturns.
      exists (S depth'). intros value path errors scope. simpl.
      unfold validateNamed_in.
      now destruct (Hreturns value path errors scope) as [errors' ->].
    - destruct (Hname name) as [depth' Hreturns].
      { now inversion Hbelow. }
      unfold validateAgainstTypeName in Hreturns.
      exists (S depth'). intros value path errors scope. simpl.
      destruct value; try easy; apply Hreturns.
    - inversion Hchildren as [|? ? Hinner _]; subst.
      exists (S depth). intros value path errors scope. simpl.
      destruct value; try easy; apply Hinner.
    - inversion Hchildren as [|? ? Hitem _]; subst.
      exists (S depth). intros value path errors scope. simpl.
      destruct value; try easy. now apply validateItems_returns.
    - exists (S depth). intros value path errors scope. simpl.
      destruct value; try easy. apply validateFields_returns.
      exact (proj1 (List.Forall_map _ _ _) Hchildren).
    - inversion Hchildren as [|? ? Hkey Hrest]; subst.
      inversion Hrest as [|? ? Hvalue _]; subst.
      exists (S depth). intros value path errors scope. simpl.
      destruct value; try easy. now apply validateEntries_returns.
    - exists (S depth). intros value path errors scope. simpl.
      destruct (someValid_returns _ members value scope Hchildren)
        as [[] ->]; easy.
    - exists (S depth). intros value path errors scope. simpl.
      now apply validateMembers_returns.
    - inversion Hchildren as [|? ? Hthen Hrest]; subst.
      inversion Hrest as [|? ? Helse _]; subst.
      exists (S depth). intros value path errors scope. simpl.
      destruct (evaluateCondition _ _) as [[]|];
        [apply Hthen|apply Helse|].
      destruct (isValid_in_returns _ _ value scope Hthen) as [[] ->];
        [easy|]. simpl.
      destruct (isValid_in_returns _ _ value scope Helse) as [[] ->]; easy.
    - exists 1. intros value path errors scope. simpl.
      now destruct (negb _).
    - exists 1. intros value path errors scope. simpl. now destruct value.
    - now exists 1. }
  intros [| |node].
  - now exists 1.
  - now exists 1.
  - apply (Hnodes (S (list_max (map rank (names node))))).
    unfold names_below. apply List.Forall_forall. intros name Hname.
    assert (rank name <= list_max (map rank (names node))); [|lia].
    clear - Hname. induction (names node) as [|n ns IH]; [easy|].
    simpl. destruct Hname as [-> | Hin]; [lia|]. specialize (IH Hin). lia.
Qed.

End Returns.


Section Entry.

Context {host : JsHost}.
Variable repository : Repository.

(** On a stratified repository [validate] returns, given enough depth of
    call stack. *)
Lemma validate_returns rank jsonInput rootType :
  stratified repository rank ->
  exists depth, is_Some (validate repository depth jsonInput rootType).
Proof.
  intros Hstratified. unfold validate.
  destruct (match jsonInput with
            | VStr text => JSON_parse text
            | _ => Returned jsonInput
            end) as [value|message]; [|now exists 0].
  destruct (resolveRootType repository rootType) as [resolvedRoot|message];
    [|now exists 0].
  unfold validateAgainstTypeName, validateAgainstTypeName_in.
  destruct (getType repository resolvedRoot) as [typeDefinition|];
    [|now exists 0].
  destruct (validateTypeNode_returns repository rank Hstratified
              (type_expr typeDefinition)) as [depth Hreturns].
  exists depth.
  destruct (type_isBuiltin typeDefinition),
    (type_matches typeDefinition) as [matches|]; try apply Hreturns.
  now destruct (negb (matches value)).
Qed.

End Entry.

(** The sample repository is stratified, so [validate] returns on it. *)
Lemma sample_stratified : stratified Sample.repository Sample.rank.
Proof.
  intros name typeDefinition body. simpl. unfold Sample.types.
  destruct (String.eqb name "String") eqn:E1; [now intros [= <-]|].
  destruct (String.eqb name "Int") eqn:E2; [now intros [= <-]|].
  destruct (String.eqb name "Root") eqn:E3.
  { apply String.eqb_eq in E3 as ->. intros [= <-] [= <-].
    repeat constructor. }
  destruct (String.eqb name "Ticket") eqn:E4; [|easy].
  apply String.eqb_eq in E4 as ->. intros [= <-] [= <-].
  repeat constructor.
Qed.

Example validate_returns_example :
  exists depth, is_Some (Sample.run depth Sample.draft "Ticket").
Proof. apply (validate_returns _ Sample.rank), sample_stratified. Qed.


(** ** The matcher *)

Lemma run_Star r s caps k :
  run (Star r) s caps k = iterate r k (length s) s caps.
Proof. reflexivity. Qed.

Lemma run_Group i r s caps k :
  run (Group i r) s caps k =
  run r s caps
    (fun s' caps' => k s' ((i, firstn (length s - length s') s) :: caps')).
Proof. reflexivity. Qed.

Lemma run_Seq r1 r2 s caps k :
  run (Seq r1 r2) s caps k = run r1 s caps (fun s' caps' => run r2 s' caps' k).
Proof. reflexivity. Qed.

Lemma run_Alt r1 r2 s caps k :
  run (Alt r1 r2) s caps k =
  match run r1 s caps k with
  | Some res => Some res
  | None => run r2 s caps k
  end.
Proof. reflexivity. Qed.

Lemma run_Class p s caps k :
  run (Class p) s caps k =
  match s with
  | c :: s' => if p c then k s' caps else None
  | [] => None
  end.
Proof. reflexivity. Qed.

(** A greedy repetition of a class stops where the class stops, when that
    leads to a match... *)
Lemma iterate_Class_greedy p k res :
  forall n s caps,
    length s <= n ->
    k (drop_while p s) caps = Some res ->
    iterate (Class p) k n s caps = Some res.
Proof.
  induction n as [|n IH]; intros s caps Hlen Hk.
  - destruct s; [exact Hk|simpl in Hlen; lia].
  - destruct s as [|c s']; simpl; [exact Hk|].
    simpl in Hk. destruct (p c); [|exact Hk].
    replace (length s' <? S (length s'))%nat with true
      by (symmetry; apply Nat.ltb_lt; lia).
    rewrite IH; [reflexivity|simpl in Hlen; lia|exact Hk].
Qed.

(** ... and also when what follows refuses every text that starts in the
    class. *)
Lemma iterate_Class_refused p k :
  (forall c s' caps', p c = true -> k (c :: s') caps' = None) ->
  forall n s caps,
    length s <= n ->
    iterate (Class p) k n s caps = k (drop_while p s) caps.
Proof.
  intros Hk. induction n as [|n IH]; intros s caps Hlen.
  - destruct s; [reflexivity|simpl in Hlen; lia].
  - destruct s as [|c s']; [reflexivity|].
    simpl. destruct (p c) eqn:Hc; [|reflexivity].
    replace (length s' <? S (length s'))%nat with true
      by (symmetry; apply Nat.ltb_lt; lia).
    rewrite IH by (simpl in Hlen; lia).
    destruct (k _ caps) eqn:E; [reflexivity|].
    now rewrite Hk.
Qed.

Lemma ident_char_not_dot c : is_ident_char c = true -> ascii_eqb "." c = false.
Proof. destruct c as [[] [] [] [] [] [] [] []]; easy. Qed.

Lemma ident_char_not_space c : is_ident_char c = true -> is_space c = false.
Proof. destruct c as [[] [] [] [] [] [] [] []]; easy. Qed.

Lemma ident_char_not_equals c :
  is_ident_char c = true -> ascii_eqb "=" c = false.
Proof. destruct c as [[] [] [] [] [] [] [] []]; easy. Qed.

Lemma ident_char_not_bang c :
  is_ident_char c = true -> ascii_eqb "!" c = false.
Proof. destruct c as [[] [] [] [] [] [] [] []]; easy. Qed.

Lemma space_not_equals c : is_space c = true -> ascii_eqb "=" c = false.
Proof. destruct c as [[] [] [] [] [] [] [] []]; easy. Qed.

Lemma space_not_bang c : is_space c = true -> ascii_eqb "!" c = false.
Proof. destruct c as [[] [] [] [] [] [] [] []]; easy. Qed.

Lemma ident_start_char c : is_ident_start c = true -> is_ident_char c = true.
Proof. unfold is_ident_char. now intros ->. Qed.

Lemma drop_while_all p cs rest :
  forallb p cs = true ->
  starts_with p rest = false ->
  drop_while p (cs ++ rest) = rest.
Proof.
  intros Hall Hrest. induction cs as [|c cs IH]; simpl.
  - destruct rest as [|c rest]; [reflexivity|].
    simpl in *. now rewrite Hrest.
  - simpl in Hall. apply andb_true_iff in Hall as [-> Hall]. now apply IH.
Qed.

(** An identifier is matched whole, when what follows it is not an
    identifier character and the continuation refuses every text that
    starts with one. *)
Lemma run_ident segment rest caps k :
  is_identifier segment = true ->
  starts_with is_ident_char rest = false ->
  (forall c s' caps', is_ident_char c = true -> k (c :: s') caps' = None) ->
  run ident (segment ++ rest) caps k = k rest caps.
Proof.
  intros Hid Hrest Hk.
  destruct segment as [|c cs]; [discriminate|].
  simpl in Hid. apply andb_true_iff in Hid as [Hc Hcs].
  rewrite <- app_comm_cons. unfold ident.
  rewrite run_Seq, run_Class, Hc, run_Star.
  rewrite (iterate_Class_refused _ _ Hk) by lia.
  now rewrite drop_while_all.
Qed.

Lemma iterate_S r k n s caps :
  iterate r k (S n) s caps =
  match
    run r s caps
      (fun s' caps' =>
         if (length s' <? length s)%nat then iterate r k n s' caps' else None)
  with
  | Some res => Some res
  | None => k s caps
  end.
Proof. reflexivity. Qed.

Lemma run_dot_segment_refused c s caps k :
  ascii_eqb "." c = false -> run dot_segment (c :: s) caps k = None.
Proof.
  intros Hc. unfold dot_segment, Chr. now rewrite run_Seq, run_Class, Hc.
Qed.

Lemma run_dot_segment segment rest caps k :
  is_identifier segment = true ->
  starts_with is_ident_char rest = false ->
  (forall c s' caps', is_ident_char c = true -> k (c :: s') caps' = None) ->
  run dot_segment ("."%char :: segment ++ rest) caps k = k rest caps.
Proof.
  intros Hid Hrest Hk. unfold dot_segment, Chr.
  rewrite run_Seq, run_Class.
  replace (ascii_eqb "." ".") with true by reflexivity.
  now apply run_ident.
Qed.

(** The segments of a dotted path are matched to the last one. *)
Lemma iterate_dot_segments k res rest :
  (forall c s' caps', is_ident_char c = true -> k (c :: s') caps' = None) ->
  starts_with is_ident_char rest = false ->
  starts_with (ascii_eqb ".") rest = false ->
  forall segments n caps,
    Forall (fun segment => is_identifier segment = true) segments ->
    length (dotted segments ++ rest) <= n ->
    k rest caps = Some res ->
    iterate dot_segment k n (dotted segments ++ rest) caps = Some res.
Proof.
  intros Hk Hrest Hdot.
  induction segments as [|segment segments IH]; intros n caps Hall Hlen Hres.
  - change (dotted [] ++ rest) with rest.
    destruct n as [|n]; [exact Hres|]. rewrite iterate_S.
    destruct rest as [|c rest']; [now rewrite Hres|].
    rewrite run_dot_segment_refused by exact Hdot. exact Hres.
  - inversion Hall as [|? ? Hid Hall']; subst.
    change (dotted (segment :: segments))
      with (("."%char :: segment) ++ dotted segments) in *.
    rewrite <- app_assoc in *. rewrite <- app_comm_cons in *.
    destruct n as [|n]; [simpl in Hlen; lia|]. rewrite iterate_S.
    rewrite run_dot_segment; [|exact Hid| |].
    + replace (_ <? _)%nat with true
        by (symmetry; apply Nat.ltb_lt; simpl; rewrite !length_app; lia).
      rewrite IH; [reflexivity|exact Hall'| |exact Hres].
      simpl in Hlen. rewrite length_app in Hlen. lia.
    + destruct segments as [|next segments']; [exact Hrest|reflexivity].
    + intros c s' caps' Hc.
      destruct (_ <? _)%nat; [|reflexivity].
      destruct n as [|n']; [now apply Hk|]. rewrite iterate_S.
      rewrite run_dot_segment_refused by now apply ident_char_not_dot.
      now apply Hk.
Qed.

(** *** The decimal pattern *)

Lemma digit_not_dot c : is_digit c = true -> ascii_eqb "." c = false.
Proof. destruct c as [[] [] [] [] [] [] [] []]; easy. Qed.

Lemma digit_not_minus c : is_digit c = true -> ascii_eqb "-" c = false.
Proof. destruct c as [[] [] [] [] [] [] [] []]; easy. Qed.

Lemma run_Plus_digit s caps k :
  (forall c s' caps', is_digit c = true -> k (c :: s') caps' = None) ->
  run (Plus digit) s caps k =
  match s with
  | c :: s' => if is_digit c then k (drop_digits s') caps else None
  | [] => None
  end.
Proof.
  intros Hk. unfold Plus, digit. rewrite run_Seq, run_Class.
  destruct s as [|c s']; [reflexivity|].
  destruct (is_digit c); [|reflexivity].
  rewrite run_Star. now apply iterate_Class_refused.
Qed.

Lemma at_end_refuses c s caps : at_end (c :: s) caps = None.
Proof. reflexivity. Qed.

Lemma run_fraction_refuses_digit c s caps :
  is_digit c = true -> run fraction_re (c :: s) caps at_end = None.
Proof.
  intros Hc. unfold fraction_re, Opt, Chr.
  rewrite run_Alt, run_Seq, run_Class.
  now rewrite (digit_not_dot _ Hc).
Qed.

Lemma run_fraction s caps :
  succeeds (run fraction_re s caps at_end) = fraction_or_end s.
Proof.
  unfold fraction_re, Opt, Chr.
  rewrite run_Alt, run_Seq, run_Class.
  destruct s as [|c rest]; [reflexivity|].
  unfold fraction_or_end.
  destruct (ascii_eqb "." c); [|reflexivity].
  rewrite run_Plus_digit by (intros; apply at_end_refuses).
  destruct rest as [|d rest]; [reflexivity|]. unfold digits_then.
  destruct (is_digit d); [|reflexivity].
  now destruct (drop_digits rest).
Qed.

Lemma run_digits_fraction s caps :
  succeeds (run (Seq (Plus digit) fraction_re) s caps at_end) =
  digits_then fraction_or_end s.
Proof.
  rewrite run_Seq.
  rewrite run_Plus_digit
    by (intros; now apply run_fraction_refuses_digit).
  destruct s as [|c rest]; [reflexivity|]. unfold digits_then.
  destruct (is_digit c); [|reflexivity].
  apply run_fraction.
Qed.

Lemma number_re_decimal text :
  test number_re text = is_decimal_literal text.
Proof.
  unfold test, exec, is_decimal_literal, number_re.
  change (Seqs [Opt (Chr "-"); Plus digit; Opt (Seq (Chr ".") (Plus digit))])
    with (Seq (Opt (Chr "-")) (Seq (Plus digit) fraction_re)).
  fold (succeeds (run (Seq (Opt (Chr "-")) (Seq (Plus digit) fraction_re))
                    (chars text) [] at_end)).
  rewrite run_Seq. unfold Opt at 1. rewrite run_Alt.
  unfold Chr at 1. rewrite run_Class.
  change (run Eps (chars text) [] ?k)
    with (run (Seq (Plus digit) fraction_re) (chars text) [] at_end).
  destruct (chars text) as [|c cs]; [reflexivity|].
  destruct (ascii_eqb "-" c) eqn:Hminus.
  - assert (run (Seq (Plus digit) fraction_re) (c :: cs) [] at_end = None)
      as Hnone.
    { rewrite run_Seq, run_Plus_digit
        by (intros; now apply run_fraction_refuses_digit).
      destruct (is_digit c) eqn:Hc; [|reflexivity].
      now rewrite (digit_not_minus _ Hc) in Hminus. }
    rewrite Hnone, <- (run_digits_fraction cs []).
    now destruct (run _ cs [] at_end).
  - apply run_digits_fraction.
Qed.

(** *** The pattern of conditional guards *)

Lemma firstn_consumed {A} (consumed rest : list A) :
  firstn (length (consumed ++ rest) - length rest) (consumed ++ rest)
  = consumed.
Proof.
  rewrite length_app. replace (_ + _ - _) with (length consumed) by lia.
  now rewrite firstn_app, Nat.sub_diag, firstn_all, firstn_O, app_nil_r.
Qed.

Lemma drop_while_everything cs : drop_while (fun _ => true) cs = [].
Proof. induction cs as [|c cs IH]; [reflexivity|exact IH]. Qed.

Lemma run_literal literal caps :
  literal <> [] ->
  run (Group 3 (Plus any)) literal caps at_end = Some ((3, literal) :: caps).
Proof.
  intros Hne. destruct literal as [|c rest]; [easy|].
  rewrite run_Group. unfold Plus, any. rewrite run_Seq, run_Class, run_Star.
  apply iterate_Class_greedy; [lia|].
  rewrite drop_while_everything.
  simpl. now rewrite firstn_all.
Qed.

Lemma run_gap_literal gap literal caps :
  forallb is_space gap = true ->
  literal <> [] ->
  starts_with is_space literal = false ->
  run (Seq (Star space) (Group 3 (Plus any))) (gap ++ literal) caps at_end
  = Some ((3, literal) :: caps).
Proof.
  intros Hgap Hne Hstart. unfold space. rewrite run_Seq, run_Star.
  apply iterate_Class_greedy; [lia|].
  rewrite drop_while_all by assumption. now apply run_literal.
Qed.

Lemma run_Lit_chars cs rest caps k :
  run (Lit_chars cs) (cs ++ rest) caps k = k rest caps.
Proof.
  induction cs as [|c cs IH]; [reflexivity|].
  cbn [Lit_chars]. unfold Chr. rewrite <- app_comm_cons, run_Seq, run_Class.
  unfold ascii_eqb. now rewrite Ascii.eqb_refl.
Qed.

Lemma run_Lit_chars_refused c cs d s caps k :
  ascii_eqb c d = false -> run (Lit_chars (c :: cs)) (d :: s) caps k = None.
Proof.
  intros Hcd. cbn [Lit_chars]. unfold Chr.
  now rewrite run_Seq, run_Class, Hcd.
Qed.

Lemma run_operator_refused c s caps k :
  ascii_eqb "=" c = false -> ascii_eqb "!" c = false ->
  run (Group 2 operator_re) (c :: s) caps k = None.
Proof.
  intros Heq Hbang. rewrite run_Group. unfold operator_re, Lit.
  rewrite run_Alt.
  change (chars "=") with ["="%char].
  change (chars "!=") with ["!"%char; "="%char].
  now rewrite !run_Lit_chars_refused.
Qed.

Lemma run_operator op rest caps k res :
  is_operator op = true ->
  k rest ((2, op) :: caps) = Some res ->
  run (Group 2 operator_re) (op ++ rest) caps k = Some res.
Proof.
  intros Hop Hres. rewrite run_Group. unfold operator_re, Lit.
  rewrite run_Alt.
  change (chars "=") with ["="%char].
  change (chars "!=") with ["!"%char; "="%char].
  destruct op as [|c [|d [|e op']]]; try discriminate;
    unfold is_operator in Hop.
  - apply Ascii.eqb_eq in Hop as <-.
    now rewrite run_Lit_chars, firstn_consumed, Hres.
  - apply andb_true_iff in Hop as [Hc Hd].
    apply Ascii.eqb_eq in Hc as <-. apply Ascii.eqb_eq in Hd as <-.
    rewrite <- app_comm_cons at 1.
    rewrite run_Lit_chars_refused by reflexivity.
    now rewrite run_Lit_chars, firstn_consumed, Hres.
Qed.

Lemma operator_first op :
  is_operator op = true ->
  starts_with is_ident_char op = false /\
  starts_with is_space op = false /\
  starts_with (ascii_eqb ".") op = false.
Proof.
  destruct op as [|c [|d [|e op']]]; try discriminate;
    unfold is_operator, starts_with.
  - intros H. apply Ascii.eqb_eq in H as <-. easy.
  - intros H. apply andb_true_iff in H as [H _].
    apply Ascii.eqb_eq in H as <-. easy.
Qed.

Lemma run_guard_tail gap1 op gap2 literal caps :
  forallb is_space gap1 = true ->
  is_operator op = true ->
  forallb is_space gap2 = true ->
  literal <> [] ->
  starts_with is_space literal = false ->
  run guard_tail_re (gap1 ++ op ++ gap2 ++ literal) caps at_end
  = Some ((3, literal) :: (2, op) :: caps).
Proof.
  intros Hgap1 Hop Hgap2 Hne Hstart. unfold guard_tail_re, space at 1.
  rewrite run_Seq, run_Star.
  rewrite iterate_Class_refused; [|intros c s' caps' Hc|lia].
  - rewrite drop_while_all; [|exact Hgap1|].
    + apply run_operator; [exact Hop|]. now apply run_gap_literal.
    + destruct op as [|c op']; [discriminate|].
      now destruct (operator_first _ Hop) as (_ & H & _).
  - rewrite run_Seq.
    apply run_operator_refused;
      [now apply space_not_equals|now apply space_not_bang].
Qed.

Lemma run_guard_tail_refused c s caps :
  is_ident_char c = true -> run guard_tail_re (c :: s) caps at_end = None.
Proof.
  intros Hc. unfold guard_tail_re, space at 1. rewrite run_Seq, run_Star.
  rewrite iterate_Class_refused; [|intros c' s' caps' Hc'|lia].
  - simpl drop_while. rewrite (ident_char_not_space _ Hc), run_Seq.
    apply run_operator_refused;
      [now apply ident_char_not_equals|now apply ident_char_not_bang].
  - rewrite run_Seq.
    apply run_operator_refused;
      [now apply space_not_equals|now apply space_not_bang].
Qed.

Lemma guard_tail_first gap1 op rest :
  forallb is_space gap1 = true ->
  is_operator op = true ->
  starts_with is_ident_char (gap1 ++ op ++ rest) = false /\
  starts_with (ascii_eqb ".") (gap1 ++ op ++ rest) = false.
Proof.
  intros Hgap Hop. destruct gap1 as [|c gap1'].
  - destruct op as [|c op']; [discriminate|].
    destruct (operator_first _ Hop) as (H1 & _ & H2). now split.
  - simpl in Hgap. apply andb_true_iff in Hgap as [Hc _].
    unfold starts_with. simpl. clear - Hc.
    destruct c as [[] [] [] [] [] [] [] []]; easy.
Qed.

(** A guard of the form [dotted.path <op> literal] matches the pattern,
    and the three groups are its path, its operator and its literal. *)
Lemma exec_condition_re first more gap1 op gap2 literal :
  is_identifier first = true ->
  Forall (fun segment => is_identifier segment = true) more ->
  forallb is_space gap1 = true ->
  is_operator op = true ->
  forallb is_space gap2 = true ->
  literal <> [] ->
  starts_with is_space literal = false ->
  exec condition_re
    (of_chars (first ++ dotted more ++ gap1 ++ op ++ gap2 ++ literal)) =
  Some [(3, literal); (2, op); (1, first ++ dotted more)].
Proof.
  intros Hfirst Hmore Hgap1 Hop Hgap2 Hne Hstart.
  unfold exec, chars, of_chars. rewrite list_ascii_of_string_of_list_ascii.
  change condition_re
    with (Seq (Group 1 (Seq ident (Star dot_segment))) guard_tail_re).
  set (tail := gap1 ++ op ++ gap2 ++ literal).
  destruct (guard_tail_first gap1 op (gap2 ++ literal) Hgap1 Hop)
    as [Hident Hdot]. fold tail in Hident, Hdot.
  set (text := first ++ dotted more ++ tail).
  set (k := fun (s' : list ascii) (caps' : captures) =>
              run guard_tail_re s' 
                ((1, firstn (length text - length s') text) :: caps') at_end).
  assert (forall c s' caps',
            is_ident_char c = true -> k (c :: s') caps' = None) as Hk.
  { intros c s' caps' Hc. now apply run_guard_tail_refused. }
  rewrite run_Seq, run_Group, run_Seq. fold k. subst text.
  rewrite run_ident; [|exact Hfirst| |].
  - rewrite run_Star.
    apply iterate_dot_segments; try assumption; [lia|].
    unfold k. rewrite app_assoc, firstn_consumed.
    now apply run_guard_tail.
  - destruct more as [|segment more']; [exact Hident|reflexivity].
  - intros c s' caps' Hc. rewrite run_Star.
    destruct (length (c :: s')) as [|n] eqn:Hn; [discriminate|].
    rewrite iterate_S.
    rewrite run_dot_segment_refused by now apply ident_char_not_dot.
    now apply Hk.
Qed.

(** *** Splitting a dotted path *)

Lemma split_chars_segment segment :
  forallb is_ident_char segment = true ->
  forall cur rest,
    split_chars "." cur (segment ++ rest) =
    split_chars "." (rev segment ++ cur) rest.
Proof.
  induction segment as [|c segment IH]; intros Hall cur rest; [reflexivity|].
  simpl in Hall. apply andb_true_iff in Hall as [Hc Hall].
  rewrite <- app_comm_cons. cbn [split_chars].
  replace (ascii_eqb c ".") with false.
  - rewrite IH by exact Hall. simpl. now rewrite <- app_assoc.
  - clear - Hc. destruct c as [[] [] [] [] [] [] [] []]; easy.
Qed.

Lemma identifier_chars segment :
  is_identifier segment = true -> forallb is_ident_char segment = true.
Proof.
  destruct segment as [|c cs]; [discriminate|]. simpl.
  intros H. apply andb_true_iff in H as [Hc Hcs].
  now rewrite (ident_start_char _ Hc).
Qed.

Lemma split_dotted first more :
  is_identifier first = true ->
  Forall (fun segment => is_identifier segment = true) more ->
  split "." (of_chars (first ++ dotted more)) = map of_chars (first :: more).
Proof.
  intros Hfirst Hmore. unfold split, chars, of_chars.
  rewrite list_ascii_of_string_of_list_ascii.
  assert (forall cur,
            split_chars "." cur (first ++ dotted more) =
            string_of_list_ascii (rev cur ++ first)
            :: map string_of_list_ascii more) as H.
  { revert first Hfirst.
    induction Hmore as [|segment more Hsegment Hmore IH];
      intros first Hfirst cur.
    - unfold dotted. simpl concat.
      rewrite split_chars_segment by now apply identifier_chars.
      simpl. now rewrite rev_app_distr, rev_involutive.
    - change (dotted (segment :: more))
        with ("."%char :: segment ++ dotted more).
      rewrite split_chars_segment by now apply identifier_chars.
      cbn [split_chars].
      replace (ascii_eqb "." ".") with true by reflexivity.
      unfold of_chars. rewrite rev_app_distr, rev_involutive.
      rewrite (IH segment Hsegment []). reflexivity. }
  apply (H []).
Qed.

(** ** Literal coercion *)

Lemma decode_loop_unescape cs :
  forall out,
    decode_loop cs false out = out ++ unescape cs /\
    decode_loop cs true out =
    out ++ match cs with
           | [] => []
           | e :: rest => escape e :: unescape rest
           end.
Proof.
  induction cs as [|c cs IH]; intros out; simpl.
  - now rewrite app_nil_r.
  - split.
    + destruct (ascii_eqb c "\").
      * apply IH.
      * destruct (IH (out ++ [c])) as [-> _]. now rewrite <- app_assoc.
    + unfold escape.
      destruct (ascii_eqb c "n"); [|destruct (ascii_eqb c "r");
        [|destruct (ascii_eqb c "t")]];
      match goal with
      | |- decode_loop _ _ (_ ++ [?x]) = _ =>
          destruct (IH (out ++ [x])) as [-> _]; now rewrite <- app_assoc
      end.
Qed.

Lemma decodeStringLiteral_unescape text :
  decodeStringLiteral text = of_chars (unescape (enclosed (chars text))).
Proof.
  unfold decodeStringLiteral.
  now destruct (decode_loop_unescape (enclosed (chars text)) []) as [-> _].
Qed.

Lemma ascii_eqb_eq a b : ascii_eqb a b = true -> a = b.
Proof. apply Ascii.eqb_eq. Qed.

Lemma quoted_first text :
  quoted text = true ->
  exists rest, text = String double_quote rest \/ text = String "'" rest.
Proof.
  unfold quoted, startsWith, chars.
  destruct text as [|c rest]; simpl; [easy|].
  intros H. exists rest.
  apply orb_true_iff in H as [H|H]; apply andb_true_iff in H as [H _];
    apply ascii_eqb_eq in H as ->; auto.
Qed.

Lemma quoted_not_number text :
  quoted text = true -> test number_re text = false.
Proof.
  intros H. apply quoted_first in H as (rest & [-> | ->]); reflexivity.
Qed.

Lemma quoted_not_keyword text :
  quoted text = true ->
  String.eqb text "true" = false /\ String.eqb text "false" = false /\
  String.eqb text "null" = false.
Proof.
  intros H. apply quoted_first in H as (rest & [-> | ->]); easy.
Qed.

Lemma number_not_keyword text :
  test number_re text = true ->
  String.eqb text "true" = false /\ String.eqb text "false" = false /\
  String.eqb text "null" = false.
Proof.
  intros H. repeat split; apply not_true_is_false; intros E;
    apply String.eqb_eq in E; subst; discriminate.
Qed.

(** C7.  Literal coercion.  A string operand is trimmed first; then
    [true] and [false] give the booleans, [null] gives null, a decimal
    literal (an optional minus sign, digits, optionally a dot and digits)
    gives the number it denotes, a text in single or double quotes gives
    the enclosed characters with the escapes decoded, and any other text
    gives the trimmed text.  An operand that is not a string is returned
    as it is. *)
Theorem parseMaybeLiteral_spec (value : JsValue) :
  match value with
  | VStr s =>
      let text := trim s in
      (text = "true" -> parseMaybeLiteral value = VBool true) /\
      (text = "false" -> parseMaybeLiteral value = VBool false) /\
      (text = "null" -> parseMaybeLiteral value = VNull) /\
      (is_decimal_literal text = true ->
       parseMaybeLiteral value = VNum (Number text)) /\
      (quoted text = true ->
       parseMaybeLiteral value =
       VStr (of_chars (unescape (enclosed (chars text))))) /\
      (text <> "true" -> text <> "false" -> text <> "null" ->
       is_decimal_literal text = false -> quoted text = false ->
       parseMaybeLiteral value = VStr text)
  | _ => parseMaybeLiteral value = value
  end.
Proof.
  destruct value as [| | | |s| |]; try reflexivity.
  cbv zeta. rewrite <- number_re_decimal.
  unfold parseMaybeLiteral. fold (quoted (trim s)).
  set (text := trim s).
  repeat split.
  - now intros ->.
  - now intros ->.
  - now intros ->.
  - intros H. destruct (number_not_keyword _ H) as (-> & -> & ->).
    now rewrite H.
  - intros H. destruct (quoted_not_keyword _ H) as (-> & -> & ->).
    rewrite (quoted_not_number _ H), H.
    now rewrite decodeStringLiteral_unescape.
  - intros H1 H2 H3 -> ->.
    apply String.eqb_neq in H1, H2, H3. now rewrite H1, H2, H3.
Qed.

Lemma parseMaybeLiteral_spec_witness :
  parseMaybeLiteral (VStr " 'a\tb\'c' ") =
  VStr (String "a" (String "009" "b'c")) /\
  parseMaybeLiteral (VStr " -12.50") =
  VNum (S754_finite true 7036874417766400 (-49)) /\
  parseMaybeLiteral (VStr "12.") = VStr "12.".
Proof.
  split; [|split].
  - destruct (parseMaybeLiteral_spec (VStr " 'a\tb\'c' "))
      as (_ & _ & _ & _ & H & _).
    rewrite H; reflexivity.
  - destruct (parseMaybeLiteral_spec (VStr " -12.50"))
      as (_ & _ & _ & H & _).
    rewrite H; reflexivity.
  - destruct (parseMaybeLiteral_spec (VStr "12."))
      as (_ & _ & _ & _ & _ & H).
    rewrite H; [reflexivity|discriminate ..|reflexivity|reflexivity].
Defined.

(** ** Conditional guards *)

Lemma of_chars_chars s : of_chars (chars s) = s.
Proof. apply string_of_list_ascii_of_string. Qed.

Lemma chars_of_chars cs : chars (of_chars cs) = cs.
Proof. apply list_ascii_of_string_of_list_ascii. Qed.

(** A guard of the form [dotted.path <op> literal] matches the pattern of
    [evaluateCondition]; the path that is split out of it is the dotted
    path, segment by segment. *)
Lemma exec_guard (g : Guard) :
  guard_form g = true ->
  exists m,
    exec condition_re (guard_text g) = Some m /\
    split "." (group 1 m) = guard_path g /\
    group 2 m = guard_op g /\
    group 3 m = guard_literal g.
Proof.
  unfold guard_form. rewrite !andb_true_iff, !negb_true_iff.
  intros ((((((Hfirst & Hmore) & Hgap1) & Hop) & Hgap2) & Hne) & Hstart).
  assert (Forall (fun segment => is_identifier segment = true)
            (map chars (guard_more g))) as Hmore'.
  { clear - Hmore.
    induction (guard_more g) as [|segment more IH]; [constructor|].
    cbn [forallb] in Hmore. apply andb_true_iff in Hmore as [H1 H2].
    constructor; [exact H1|now apply IH]. }
  assert (chars (guard_literal g) <> []) as Hne'.
  { intros H. apply String.eqb_neq in Hne. apply Hne.
    now rewrite <- (of_chars_chars (guard_literal g)), H. }
  eexists. split; [|split; [|split]].
  - now apply exec_condition_re.
  - unfold group. cbn [group_chars Nat.eqb].
    rewrite split_dotted by assumption.
    unfold guard_path. cbn [map]. rewrite of_chars_chars. f_equal.
    rewrite map_map. rewrite <- (map_id (guard_more g)) at 2.
    apply map_ext. intros segment. apply of_chars_chars.
  - unfold group. cbn [group_chars Nat.eqb]. apply of_chars_chars.
  - unfold group. cbn [group_chars Nat.eqb]. apply of_chars_chars.
Qed.

Lemma resolve_path_app objectValue before after :
  resolve_path objectValue (before ++ after) =
  resolve_path objectValue before
  ≫= fun current => resolve_path current after.
Proof.
  revert objectValue.
  induction before as [|segment before IH]; intros objectValue; simpl;
    [reflexivity|].
  destruct objectValue as [| | | | | |props]; try reflexivity.
  destruct (own_property props segment) as [next|]; [apply IH|reflexivity].
Qed.

Lemma resolve_path_stuck objectValue before segment after current :
  resolve_path objectValue before = Some current ->
  match current with
  | VObj props => own_property props segment = None
  | _ => True
  end ->
  resolve_path objectValue (before ++ segment :: after) = None.
Proof.
  intros Hbefore Hstuck. rewrite resolve_path_app, Hbefore. simpl.
  destruct current as [| | | | | |props]; try reflexivity.
  now rewrite Hstuck.
Qed.

(** Whatever the condition, once it matches the pattern. *)
Lemma evaluateCondition_matched condition objectValue m :
  exec condition_re condition = Some m ->
  (isObject objectValue = true ->
   forall before segment after current,
     split "." (group 1 m) = before ++ segment :: after ->
     resolve_path objectValue before = Some current ->
     match current with
     | VObj props => own_property props segment = None
     | _ => True
     end ->
     evaluateCondition condition objectValue = Some false) /\
  (isObject objectValue = false ->
   evaluateCondition condition objectValue = None).
Proof.
  intros Hm. unfold evaluateCondition. rewrite Hm. split.
  - intros -> before segment after current Hpath Hbefore Hstuck. simpl.
    now rewrite Hpath, (resolve_path_stuck _ _ _ _ _ Hbefore Hstuck).
  - now intros ->.
Qed.

(** C4, as the specification states it, at the guard [a.b = 1] and the
    scope [[]]: the guard has the form [dotted.path <op> literal] and the
    scope is not an object, so it would be false.  It is not: the guard is
    indeterminate. *)
Lemma evaluateCondition_scope_not_object_counterexample :
  guard_form Sample.ab_is_1 = true /\
  guard_text Sample.ab_is_1 = "a.b = 1" /\
  isObject (VArr []) = false /\
  evaluateCondition "a.b = 1" (VArr []) = None /\
  evaluateCondition "a.b = 1" (VArr []) <> Some false.
Proof. vm_compute. repeat split; discriminate. Qed.

(** C4, amended.  For a guard of the form [dotted.path <op> literal],
    with [=] or [!=]: evaluated against an object, the guard is false
    whenever the walk along the path reaches a value that is not an object
    or an object that lacks the next segment; evaluated against a scope
    that is not an object, the guard is indeterminate. *)
Theorem evaluateCondition_unresolved_path (g : Guard) objectValue :
  guard_form g = true ->
  (isObject objectValue = true ->
   forall before segment after current,
     guard_path g = before ++ segment :: after ->
     resolve_path objectValue before = Some current ->
     match current with
     | VObj props => own_property props segment = None
     | _ => True
     end ->
     evaluateCondition (guard_text g) objectValue = Some false) /\
  (isObject objectValue = false ->
   evaluateCondition (guard_text g) objectValue = None).
Proof.
  intros Hform.
  destruct (exec_guard g Hform) as (m & Hm & Hpath & _).
  destruct (evaluateCondition_matched _ objectValue m Hm) as [Hobject Hother].
  split; [|exact Hother].
  intros His before segment after current Hsplit Hbefore Hstuck.
  apply (Hobject His before segment after current);
    [now rewrite Hpath|exact Hbefore|exact Hstuck].
Qed.

Lemma evaluateCondition_unresolved_path_witness :
  evaluateCondition "owner.name != 'x'"
    (VObj [("owner", VObj [("id", VNull)])]) = Some false /\
  evaluateCondition "owner.name != 'x'"
    (VObj [("owner", VStr "ann")]) = Some false /\
  evaluateCondition "owner.name != 'x'" (VStr "ann") = None.
Proof.
  pose (g := Sample.owner_name_is_not_x).
  split; [|split].
  - exact (proj1 (evaluateCondition_unresolved_path g
                    (VObj [("owner", VObj [("id", VNull)])]) eq_refl) eq_refl
             ["owner"] "name" [] (VObj [("id", VNull)]) eq_refl eq_refl
             eq_refl).
  - exact (proj1 (evaluateCondition_unresolved_path g
                    (VObj [("owner", VStr "ann")]) eq_refl) eq_refl
             ["owner"] "name" [] (VStr "ann") eq_refl eq_refl I).
  - exact (proj2 (evaluateCondition_unresolved_path g (VStr "ann") eq_refl)
             eq_refl).
Defined.

(** ** Constraints *)

Section Constraints.

Context {host : JsHost}.
Variable repository : Repository.

(** C6.  One application of a constraint appends at most one
    diagnostic.  It is UnknownConstraint (SemanticError) when the
    repository has no validator for the target type and the constraint
    name.  For a builtin validator it is ConstraintViolation exactly
    when the native predicate, called with the value and the resolved
    argument, returns false; the resolved argument is the coerced call
    argument when there is one, the list of the coerced call arguments
    when there are several, and the raw argument when there is none.  For
    a custom validator it is ValidatorFailed exactly when the body
    evaluates to false; a body that is missing, or that has none of the
    four shapes, is indeterminate and gives no diagnostic. *)
Theorem applyConstraint_spec targetType constraint value path errors scope :
  let outcome :=
    applyConstraint repository targetType constraint value path errors
      scope in
  let failure code category :=
    error path
      ("Constraint failed: " +:+ targetType +:+ "." +:+
       constraint_name constraint) code category in
  (exists new, outcome = errors ++ new /\ length new <= 1) /\
  (getValidator repository targetType (constraint_name constraint) = None ->
   outcome =
   errors ++
   [error path
      ("Unknown constraint: " +:+ targetType +:+ "." +:+
       constraint_name constraint) "UnknownConstraint" "SemanticError"]) /\
  (forall validator evaluate,
     getValidator repository targetType (constraint_name constraint)
       = Some validator ->
     validator_isBuiltin validator = true ->
     validator_evaluate validator = Some evaluate ->
     (evaluate value (resolveConstraintArgument constraint) = VBool false ->
      outcome = errors ++ [failure "ConstraintViolation" "ValidationError"])
     /\
     (evaluate value (resolveConstraintArgument constraint) <> VBool false ->
      outcome = errors)) /\
  (forall a, callArgs constraint = Some [a] ->
             resolveConstraintArgument constraint = parseMaybeLiteral a) /\
  (forall args, callArgs constraint = Some args -> 2 <= length args ->
                resolveConstraintArgument constraint =
                VArr (map parseMaybeLiteral args)) /\
  (callArgs constraint = None \/ callArgs constraint = Some [] ->
   resolveConstraintArgument constraint = argument constraint) /\
  (forall validator,
     getValidator repository targetType (constraint_name constraint)
       = Some validator ->
     validator_isBuiltin validator = false \/
     validator_evaluate validator = None ->
     (evaluateCustomValidator validator constraint value scope = Some false ->
      outcome = errors ++ [failure "ValidatorFailed" "ValidationError"]) /\
     (evaluateCustomValidator validator constraint value scope <> Some false
      -> outcome = errors) /\
     (validator_body validator = None ->
      evaluateCustomValidator validator constraint value scope = None) /\
     (forall text,
        validator_body validator = Some text ->
        exec regexNegation_re (trim text) = None ->
        exec regexMatch_re (trim text) = None ->
        exec rangeAnd_re (trim text) = None ->
        exec simpleComparison_re (trim text) = None ->
        evaluateCustomValidator validator constraint value scope = None)).
Proof.
  cbv zeta. unfold applyConstraint.
  split; [|split; [|split; [|split; [|split; [|split]]]]].
  - destruct (getValidator _ _ _) as [validator|];
      [|eexists; split; [reflexivity|simpl; lia]].
    destruct (validator_isBuiltin validator),
      (validator_evaluate validator) as [evaluate|];
      try (destruct (evaluateCustomValidator _ _ _ _) as [[]|];
           solve [ exists []; rewrite app_nil_r; split; [reflexivity|simpl; lia]
                 | eexists; split; [reflexivity|simpl; lia] ]).
    destruct (evaluate _ _) as [| |[]| | | |];
      solve [ exists []; rewrite app_nil_r; split; [reflexivity|simpl; lia]
            | eexists; split; [reflexivity|simpl; lia] ].
  - now intros ->.
  - intros validator evaluate -> -> ->. split.
    + now intros ->.
    + intros H. destruct (evaluate _ _) as [| |[]| | | |]; congruence.
  - unfold resolveConstraintArgument. now intros a ->.
  - unfold resolveConstraintArgument. intros args -> Hlen.
    destruct args as [|a [|b rest]]; simpl in Hlen; try lia. reflexivity.
  - unfold resolveConstraintArgument. now intros [-> | ->].
  - intros validator -> Hcustom.
    split; [|split; [|split]].
    + intros Hfalse.
      destruct (validator_isBuiltin validator),
        (validator_evaluate validator); try now rewrite Hfalse.
      destruct Hcustom; discriminate.
    + intros Hother.
      destruct (validator_isBuiltin validator),
        (validator_evaluate validator);
        try (destruct (evaluateCustomValidator _ _ _ _) as [[]|];
             congruence).
      destruct Hcustom; discriminate.
    + unfold evaluateCustomValidator. now intros ->.
    + unfold evaluateCustomValidator. intros text -> -> -> -> ->.
      now destruct text.
Qed.

End Constraints.

Lemma applyConstraint_spec_witness :
  applyConstraint (host := Sample.host) Sample.repository "String"
    Sample.min3 (VStr "ab") "$.reason" [] (Sample.top VNull) =
  [error "$.reason" "Constraint failed: String.min" "ConstraintViolation"
     "ValidationError"] /\
  applyConstraint (host := Sample.host) Sample.repository "Int"
    Sample.unknownRule (VNull) "$" [] (Sample.top VNull) =
  [error "$" "Unknown constraint: Int.unknownRule" "UnknownConstraint"
     "SemanticError"] /\
  applyConstraint (host := Sample.host) Sample.repository "String"
    Sample.lowercase (VStr "aB") "$" [] (Sample.top VNull) =
  [error "$" "Constraint failed: String.lowercase" "ValidatorFailed"
     "ValidationError"].
Proof.
  split; [|split].
  - destruct (applyConstraint_spec (host := Sample.host) Sample.repository
                "String" Sample.min3 (VStr "ab") "$.reason" []
                (Sample.top VNull)) as (_ & _ & H & _).
    destruct (Sample.validators "String" "min") as [validator|] eqn:Hv;
      [|discriminate Hv].
    vm_compute in Hv. injection Hv as <-.
    exact (proj1 (H _ _ eq_refl eq_refl eq_refl) eq_refl).
  - destruct (applyConstraint_spec (host := Sample.host) Sample.repository
                "Int" Sample.unknownRule VNull "$" []
                (Sample.top VNull)) as (_ & H & _).
    exact (H eq_refl).
  - destruct (applyConstraint_spec (host := Sample.host) Sample.repository
                "String" Sample.lowercase (VStr "aB") "$" []
                (Sample.top VNull)) as (_ & _ & _ & _ & _ & _ & H).
    destruct (Sample.validators "String" "lowercase") as [validator|] eqn:Hv;
      [|discriminate Hv].
    vm_compute in Hv. injection Hv as <-.
    exact (proj1 (H _ eq_refl (or_introl eq_refl)) eq_refl).
Defined.

(** ** The structural evaluator *)

Section Claims.

Context {host : JsHost}.
Variable repository : Repository.

(** *** Unions and conditionals *)

Lemma isValid_in_spec (f : walk) typeNode value scope :
  isValid_in f typeNode value scope =
  match f typeNode value "$" [] scope with
  | Some [] => Some true
  | Some (_ :: _) => Some false
  | None => None
  end.
Proof.
  unfold isValid_in. now destruct (f _ _ _ _ _) as [[|first rest]|].
Qed.

Lemma accepts_true (f : walk) value scope member :
  accepts f value scope member = true <->
  f (ObjectRef member) value "$" [] scope = Some [].
Proof.
  unfold accepts.
  destruct (f _ _ _ _ _) as [[|first rest]|]; split; easy.
Qed.

Lemma someValid_spec (f : walk) members value scope :
  (forall member, In member members ->
     exists result, f (ObjectRef member) value "$" [] scope = Some result) ->
  someValid f members value scope =
  Some (existsb (accepts f value scope) members).
Proof.
  induction members as [|member members IH]; intros Hret; [reflexivity|].
  simpl. rewrite isValid_in_spec. unfold accepts at 1.
  destruct (Hret member (or_introl eq_refl)) as ([|first rest] & ->);
    simpl; [reflexivity|].
  apply IH. intros m Hm. apply Hret. now right.
Qed.

(** C2.  Unions.  Provided the isolated evaluation of each member
    returns, a union appends nothing if and only if some member
    validates the value with no diagnostic in an evaluation of its own
    (at the path [$], into a fresh collector); otherwise it appends one
    TypeMismatch at the current path, and nothing else, however many
    members there are. *)
Theorem union_spec depth members value path errors scope :
  (forall member,
     In member members ->
     exists result,
       validateTypeNode repository depth (ObjectRef member) value "$" []
         scope = Some result) ->
  let accepted :=
    exists member,
      In member members /\
      validateTypeNode repository depth (ObjectRef member) value "$" []
        scope = Some [] in
  let outcome :=
    validateTypeNode repository (S depth) (ObjectRef (TUnion members)) value
      path errors scope in
  let mismatch :=
    error path "Value does not match any union member." "TypeMismatch"
      "TypeError" in
  (outcome = Some errors <-> accepted) /\
  (outcome = Some (errors ++ [mismatch]) <-> ~ accepted).
Proof.
  intros Hret accepted outcome mismatch.
  assert (errors ++ [mismatch] <> errors) as Hne.
  { intros H. apply (f_equal length) in H. rewrite length_app in H.
    simpl in H. lia. }
  assert (accepted <->
          existsb (accepts (validateTypeNode repository depth) value scope)
            members = true) as Hacc.
  { rewrite existsb_exists. subst accepted.
    split; intros (m & Hm & Hok); exists m; split; try easy;
      now apply accepts_true. }
  subst outcome. simpl. rewrite (someValid_spec _ _ _ _ Hret). simpl.
  destruct (existsb _ _).
  - assert accepted as Hyes by now apply Hacc.
    split; split.
    + now intros _.
    + reflexivity.
    + intros [= H]. symmetry in H. now destruct Hne.
    + intros Hno. now destruct Hno.
  - assert (~ accepted) as Hno by (rewrite Hacc; easy).
    split; split.
    + intros [= H]. now destruct Hne.
    + intros Hyes. now destruct Hno.
    + now intros _.
    + reflexivity.
Qed.

(** C3.  Conditionals.  The guard is evaluated against the parent of
    the scope when there is one, else against its root.  If it is true
    the value is validated against [thenType] alone, if it is false
    against [elseType] alone.  If it is indeterminate, as it is when the
    scope is not an object or when the condition does not parse, the
    value is accepted if and only if one of the two branches validates
    it with no diagnostic in an evaluation of its own; otherwise one
    TypeMismatch is appended at the current path. *)
Theorem conditional_spec depth condition thenType elseType value path errors
    scope :
  let object :=
    match scope_parent scope with
    | Some parent => parent
    | None => scope_root scope
    end in
  let guard := evaluateCondition condition object in
  let outcome :=
    validateTypeNode repository (S depth)
      (ObjectRef (TConditional condition thenType elseType)) value path
      errors scope in
  let alone branch :=
    validateTypeNode repository depth (ObjectRef branch) value "$" [] scope in
  let mismatch :=
    error path "Value does not match conditional branches." "TypeMismatch"
      "TypeError" in
  (guard = Some true ->
   outcome =
   validateTypeNode repository depth (ObjectRef thenType) value path errors
     scope) /\
  (guard = Some false ->
   outcome =
   validateTypeNode repository depth (ObjectRef elseType) value path errors
     scope) /\
  (isObject object = false -> guard = None) /\
  (exec condition_re condition = None -> guard = None) /\
  (guard = None ->
   (alone thenType = Some [] -> outcome = Some errors) /\
   (forall fromThen,
      alone thenType = Some fromThen -> alone elseType = Some [] ->
      outcome = Some errors) /\
   (forall fromThen fromElse,
      alone thenType = Some fromThen -> alone elseType = Some fromElse ->
      fromThen <> [] -> fromElse <> [] ->
      outcome = Some (errors ++ [mismatch]))).
Proof.
  cbv zeta. simpl. unfold condition_object.
  split; [|split; [|split; [|split]]].
  - now intros ->.
  - now intros ->.
  - unfold evaluateCondition. now intros ->.
  - unfold evaluateCondition. intros ->. now destruct (negb _).
  - intros ->. rewrite !isValid_in_spec. split; [|split].
    + now intros ->.
    + intros fromThen -> ->. now destruct fromThen.
    + intros fromThen fromElse -> -> H1 H2. now destruct fromThen, fromElse.
Qed.

(** *** Vacuous nodes *)

(** C10.  A type node that is null, that is not an object, or whose
    kind is not one of the eleven the evaluator handles accepts every
    value, in every scope: the call returns and appends nothing.  So
    such a node counts as valid in an isolated evaluation, and a
    user-defined type whose body is such a node accepts every value. *)
Theorem validateTypeNode_vacuous depth typeNode value path errors scope :
  typeNode = NullRef \/ typeNode = NonObjectRef \/
  typeNode = ObjectRef TUnknownKind ->
  validateTypeNode repository (S depth) typeNode value path errors scope
    = Some errors /\
  isValid repository (S depth) typeNode value scope = Some true /\
  (forall typeName typeDefinition,
     getType repository typeName = Some typeDefinition ->
     type_isBuiltin typeDefinition = false ->
     type_expr typeDefinition = typeNode ->
     validateAgainstTypeName repository (S depth) value typeName path errors
       scope = Some errors).
Proof.
  intros Hvacuous.
  assert (forall path errors,
            validateTypeNode repository (S depth) typeNode value path errors
              scope = Some errors) as Hreturns.
  { intros path' errors'. now destruct Hvacuous as [-> | [-> | ->]]. }
  split; [apply Hreturns|split].
  - unfold isValid. now rewrite isValid_in_spec, Hreturns.
  - intros typeName typeDefinition Hdef Huser Hexpr.
    unfold validateAgainstTypeName, validateAgainstTypeName_in.
    rewrite Hdef, Huser, Hexpr. apply Hreturns.
Qed.

(** *** Named nodes *)

(** C9.  Named nodes.  Whatever the check against the type name
    appended, every attached constraint is then applied to the value, in
    order, at the same path: also after UnknownType for a name the
    repository does not know, and after the TypeMismatch of a builtin
    type. *)
Theorem validateNamed_applies_constraints depth name constraints value path
    errors scope :
  let outcome :=
    validateTypeNode repository (S depth)
      (ObjectRef (TNamed name constraints)) value path errors scope in
  let fromConstraints :=
    flat_map
      (fun constraint =>
         applyConstraint repository name constraint value path [] scope)
      constraints in
  (forall fromType,
     validateAgainstTypeName repository depth value name path [] scope
       = Some fromType ->
     outcome = Some (errors ++ fromType ++ fromConstraints)) /\
  (getType repository name = None ->
   outcome =
   Some (errors ++
         [error path ("Unknown type: " +:+ name) "UnknownType" "TypeError"]
         ++ fromConstraints)) /\
  (forall typeDefinition matches,
     getType repository name = Some typeDefinition ->
     type_isBuiltin typeDefinition = true ->
     type_matches typeDefinition = Some matches ->
     matches value = false ->
     outcome =
     Some (errors ++
           [error path ("Expected " +:+ name +:+ ".") "TypeMismatch"
              "TypeError"] ++ fromConstraints)).
Proof.
  cbv zeta.
  assert (forall fromType,
            validateAgainstTypeName repository depth value name path []
              scope = Some fromType ->
            validateTypeNode repository (S depth)
              (ObjectRef (TNamed name constraints)) value path errors scope =
            Some (errors ++ fromType ++
                  flat_map
                    (fun constraint =>
                       applyConstraint repository name constraint value path
                         [] scope) constraints)) as Hgeneral.
  { intros fromType H. simpl. unfold validateNamed_in.
    rewrite validateAgainstTypeName_in_frame
      by apply validateTypeNode_frame.
    unfold validateAgainstTypeName in H. rewrite H. simpl.
    now rewrite applyConstraints_frame, app_assoc. }
  split; [exact Hgeneral|split].
  - intros Hunknown. apply Hgeneral.
    unfold validateAgainstTypeName, validateAgainstTypeName_in.
    now rewrite Hunknown.
  - intros typeDefinition matches Hdef Hbuiltin Hmatches Hno.
    apply Hgeneral.
    unfold validateAgainstTypeName, validateAgainstTypeName_in.
    now rewrite Hdef, Hbuiltin, Hmatches, Hno.
Qed.

(** *** Records *)

(** C5.  Records.  On an object, the diagnostics of a record node are
    those of its declared fields, one field after the other in the order
    of declaration; no other key of the object contributes.  A field
    whose key the object lacks contributes nothing when it is optional,
    has a default expression, or is declared absent, and contributes
    one FieldMissing at [path.name] otherwise.  A field whose key the
    object has contributes what its value yields against its type, at
    [path.name]. *)
Theorem record_fields_spec depth fields props path errors scope :
  let value := VObj props in
  let perField field :=
    validateField (validateTypeNode repository depth) value props field path
      [] scope in
  (forall result,
     validateTypeNode repository (S depth) (ObjectRef (TRecord fields)) value
       path errors scope = Some result <->
     exists news,
       Forall2 (fun field new => perField field = Some new) fields news /\
       result = errors ++ concat news) /\
  (forall field,
     own_property props (field_name field) = None ->
     (may_be_omitted field = true -> perField field = Some []) /\
     (may_be_omitted field = false ->
      perField field =
      Some [error (path +:+ "." +:+ field_name field)
              "Missing required field." "FieldMissing" "ValidationError"])) /\
  (forall field fieldValue,
     own_property props (field_name field) = Some fieldValue ->
     perField field =
     validateTypeNode repository depth (ObjectRef (field_type field))
       fieldValue (path +:+ "." +:+ field_name field) []
       {| scope_root := scope_root scope; scope_current := fieldValue;
          scope_parent := Some value |}).
Proof.
  cbv zeta. split; [|split].
  - intros result. simpl.
    apply validateFields_each, validateTypeNode_frame.
  - intros field Habsent. unfold validateField, may_be_omitted.
    rewrite Habsent.
    destruct (field_optional field); simpl; [easy|].
    destruct (bool_decide _); simpl; [easy|].
    now destruct (field_type field).
  - intros field fieldValue Hpresent. unfold validateField.
    now rewrite Hpresent.
Qed.

(** *** The entry point *)

Lemma validate_le depth depth' jsonInput rootType result :
  depth <= depth' ->
  validate repository depth jsonInput rootType = Some result ->
  validate repository depth' jsonInput rootType = Some result.
Proof.
  intros Hle. unfold validate.
  destruct (match jsonInput with
            | VStr text => JSON_parse text
            | _ => Returned jsonInput
            end) as [value|message]; [|easy].
  destruct (resolveRootType repository rootType) as [resolvedRoot|message];
    [|easy].
  apply validateAgainstTypeName_in_extends.
  now apply validateTypeNode_le.
Qed.

(** C1.  Propagation.  [validate] returns a list of one diagnostic
    without walking the value in two cases: the text does not decode
    (InvalidExpression, ParseError, at [$]), and the repository does not
    resolve the root type (UnknownType, TypeError, at [$]).  In every
    other case the list is that of the walk from the root type.  The walk
    appends to what is collected and never looks at it, and no loop of it
    stops at a violation: an array yields the diagnostics of its
    constraints and of every element, a record those of every declared
    field, a dict those of every key and value, an intersection those of
    every member, each time in order and all of them. *)
Theorem validate_propagation depth jsonInput rootType :
  let decoded :=
    match jsonInput with
    | VStr text => JSON_parse text
    | _ => Returned jsonInput
    end in
  let outcome := validate repository depth jsonInput rootType in
  let below := validateTypeNode repository depth in
  let here := validateTypeNode repository (S depth) in
  (forall message,
     decoded = Thrown message ->
     outcome =
     Some [error "$" ("Invalid JSON: " +:+ message) "InvalidExpression"
             "ParseError"]) /\
  (forall value message,
     decoded = Returned value ->
     resolveRootType repository rootType = Thrown message ->
     outcome = Some [error "$" message "UnknownType" "TypeError"]) /\
  (forall value resolvedRoot,
     decoded = Returned value ->
     resolveRootType repository rootType = Returned resolvedRoot ->
     outcome =
     validateAgainstTypeName repository depth value resolvedRoot "$" []
       {| scope_root := value; scope_current := value;
          scope_parent := None |}) /\
  framed below /\
  (forall itemType constraints items path errors scope result,
     here (ObjectRef (TArray itemType constraints)) (VArr items) path errors
       scope = Some result <->
     exists news,
       length news = length items /\
       (forall i item new,
          items !! i = Some item -> news !! i = Some new ->
          below (ObjectRef itemType) item
            (path +:+ "[" +:+ of_index i +:+ "]") []
            {| scope_root := scope_root scope; scope_current := item;
               scope_parent := Some (VArr items) |} = Some new) /\
       result =
       errors ++
       flat_map
         (fun constraint =>
            applyConstraint repository "Array" constraint (VArr items) path
              [] scope) constraints ++
       concat news) /\
  (forall fields props path errors scope result,
     here (ObjectRef (TRecord fields)) (VObj props) path errors scope
       = Some result <->
     exists news,
       Forall2
         (fun field new =>
            validateField below (VObj props) props field path [] scope
              = Some new)
         fields news /\
       result = errors ++ concat news) /\
  (forall keyType valueType props path errors scope result,
     here (ObjectRef (TDict keyType valueType)) (VObj props) path errors
       scope = Some result <->
     exists news,
       Forall2
         (fun entry new =>
            exists newKey newValue,
              below (ObjectRef keyType) (VStr (fst entry))
                (path +:+ ".[key:" +:+ fst entry +:+ "]") []
                {| scope_root := scope_root scope;
                   scope_current := VStr (fst entry);
                   scope_parent := Some (VObj props) |} = Some newKey /\
              below (ObjectRef valueType) (snd entry)
                (path +:+ "." +:+ fst entry) []
                {| scope_root := scope_root scope;
                   scope_current := snd entry;
                   scope_parent := Some (VObj props) |} = Some newValue /\
              new = newKey ++ newValue)
         props news /\
       result = errors ++ concat news) /\
  (forall members value path errors scope result,
     here (ObjectRef (TIntersection members)) value path errors scope
       = Some result <->
     exists news,
       Forall2
         (fun member new =>
            below (ObjectRef member) value path [] scope = Some new)
         members news /\
       result = errors ++ concat news).
Proof.
  cbv zeta. unfold validate.
  pose proof (validateTypeNode_frame repository depth) as Hframed.
  split; [|split; [|split; [|split; [|split; [|split; [|split]]]]]].
  - now intros message ->.
  - now intros value message -> ->.
  - now intros value resolvedRoot -> ->.
  - exact Hframed.
  - intros itemType constraints items path errors scope result.
    cbn [validateTypeNode validateTypeNode_body].
    rewrite (validateItems_each _ Hframed), applyConstraints_frame.
    split; intros (news & Hlen & Hall & ->); exists news;
      (split; [exact Hlen|split; [exact Hall|]]);
      now rewrite app_assoc.
  - intros fields props path errors scope result.
    apply (validateFields_each _ Hframed).
  - intros keyType valueType props path errors scope result.
    apply (validateEntries_each _ Hframed).
  - intros members value path errors scope result.
    apply (validateMembers_each _ Hframed).
Qed.

End Claims.

(** ** No state between calls

    The walk on a heap does to the array it is handed what the walk on a
    list does to the list, and changes no other array. *)

Lemma only_changes_refl errors heap : only_changes errors heap heap.
Proof. now split. Qed.

Lemma only_changes_trans errors heap1 heap2 heap3 :
  only_changes errors heap1 heap2 -> only_changes errors heap2 heap3 ->
  only_changes errors heap1 heap3.
Proof.
  intros [Hlen1 H1] [Hlen2 H2]. split; [lia|].
  intros other Hlt Hne. rewrite H2 by (trivial; lia). now apply H1.
Qed.

Lemma keeps_only_changes errors heap heap' :
  keeps heap heap' -> only_changes errors heap heap'.
Proof. intros [Hlen H]. split; [trivial|]. intros other Hlt _. now apply H. Qed.

Lemma keeps_lookup errors heap heap' (elements : list ValidationError) :
  keeps heap heap' -> heap !! errors = Some elements ->
  heap' !! errors = Some elements.
Proof.
  intros [_ H] Hlook. rewrite H; [trivial|].
  now apply lookup_lt_Some in Hlook.
Qed.

Lemma keeps_trans heap1 heap2 heap3 :
  keeps heap1 heap2 -> keeps heap2 heap3 -> keeps heap1 heap3.
Proof.
  intros [Hlen1 H1] [Hlen2 H2]. split; [lia|].
  intros array Hlt. rewrite H2 by lia. now apply H1.
Qed.

Lemma array_literal_keeps elements heap :
  keeps heap (snd (Mutable.array_literal elements heap)) /\
  snd (Mutable.array_literal elements heap)
    !! fst (Mutable.array_literal elements heap) = Some elements.
Proof.
  unfold Mutable.array_literal, Mutable.Heap in *. cbn [fst snd].
  split; [split|].
  - rewrite length_app. lia.
  - intros array Hlt. now apply lookup_app_l.
  - rewrite lookup_app_r by lia. now rewrite Nat.sub_diag.
Qed.

Lemma same_outcome_skip errors heap elements :
  heap !! errors = Some elements ->
  same_outcome errors heap (Some elements) (Some heap).
Proof.
  intros Hlook. exists heap. auto using only_changes_refl.
Qed.

Lemma same_outcome_push errors heap elements e :
  heap !! errors = Some elements ->
  same_outcome errors heap (Some (elements ++ [e]))
    (Some (Mutable.push errors e heap)).
Proof.
  intros Hlook. exists (Mutable.push errors e heap).
  unfold Mutable.push, Mutable.Heap in *.
  split; [trivial|split; [|split]].
  - now rewrite list_lookup_alter_eq, Hlook.
  - now rewrite length_alter.
  - intros other _ Hne. now apply list_lookup_alter_ne.
Qed.

Lemma same_outcome_bind errors heap listed stored
    (next : list ValidationError -> option (list ValidationError))
    (Next : Mutable.Heap -> option Mutable.Heap) :
  same_outcome errors heap listed stored ->
  (forall elements heap',
     heap' !! errors = Some elements ->
     same_outcome errors heap' (next elements) (Next heap')) ->
  same_outcome errors heap (listed ≫= next) (stored ≫= Next).
Proof.
  intros Hfirst Hnext. destruct listed as [elements|]; cbn in *.
  - destruct Hfirst as (heap' & -> & Hlook & Hchanges). cbn.
    specialize (Hnext elements heap' Hlook).
    destruct (next elements) as [elements'|]; cbn in *; [|trivial].
    destruct Hnext as (heap'' & -> & Hlook' & Hchanges').
    exists heap''. eauto using only_changes_trans.
  - now subst stored.
Qed.

Lemma same_outcome_after errors heap verdict stored
    (elements : list ValidationError)
    (next : bool -> option (list ValidationError))
    (Next : bool * Mutable.Heap -> option Mutable.Heap) :
  heap !! errors = Some elements ->
  same_verdict heap verdict stored ->
  (forall valid heap',
     heap' !! errors = Some elements ->
     same_outcome errors heap' (next valid) (Next (valid, heap'))) ->
  same_outcome errors heap (verdict ≫= next) (stored ≫= Next).
Proof.
  intros Hlook Hfirst Hnext. destruct verdict as [valid|]; cbn in *.
  - destruct Hfirst as (heap' & -> & Hkeeps). cbn.
    specialize (Hnext valid heap' (keeps_lookup _ _ _ _ Hkeeps Hlook)).
    destruct (next valid) as [elements'|]; cbn in *; [|trivial].
    destruct Hnext as (heap'' & -> & Hlook' & Hchanges').
    exists heap''.
    eauto using only_changes_trans, keeps_only_changes.
  - now subst stored.
Qed.

Section Simulation.

Context {host : JsHost}.
Variable repository : Repository.

Lemma applyConstraint_simulated targetType constraint value path errors
    scope heap elements :
  heap !! errors = Some elements ->
  same_outcome errors heap
    (Some (applyConstraint repository targetType constraint value path
             elements scope))
    (Some (Mutable.applyConstraint repository targetType constraint value
             path errors scope heap)).
Proof.
  intros Hlook. unfold applyConstraint, Mutable.applyConstraint.
  destruct (getValidator _ _ _) as [validator|];
    [|now apply same_outcome_push].
  destruct (validator_isBuiltin validator),
    (validator_evaluate validator) as [evaluate|];
    try (destruct (evaluateCustomValidator _ _ _ _) as [[|]|];
         now (apply same_outcome_push || apply same_outcome_skip)).
  destruct (evaluate _ _) as [| |[|]| | | |];
    now (apply same_outcome_push || apply same_outcome_skip).
Qed.

Lemma applyConstraints_simulated targetType constraints value path errors
    scope heap elements :
  heap !! errors = Some elements ->
  same_outcome errors heap
    (Some (applyConstraints repository targetType constraints value path
             elements scope))
    (Some (Mutable.applyConstraints repository targetType constraints
             value path errors scope heap)).
Proof.
  unfold applyConstraints, Mutable.applyConstraints.
  revert heap elements.
  induction constraints as [|constraint constraints IH];
    intros heap elements Hlook; cbn [fold_left].
  - now apply same_outcome_skip.
  - destruct (applyConstraint_simulated targetType constraint value path
                errors scope heap elements Hlook)
      as (heap' & [= <-] & Hlook' & Hchanges).
    destruct (IH _ _ Hlook') as (heap'' & [= <-] & Hlook'' & Hchanges').
    eexists. eauto using only_changes_trans.
Qed.

Section SimulationBody.

Variable f : walk.
Variable F : Mutable.walk.
Hypothesis f_F : simulates f F.

Lemma validateAgainstTypeName_simulated value typeName path errors scope
    heap elements :
  heap !! errors = Some elements ->
  same_outcome errors heap
    (validateAgainstTypeName_in repository f value typeName path elements
       scope)
    (Mutable.validateAgainstTypeName_in repository F value typeName path
       errors scope heap).
Proof.
  intros Hlook.
  unfold validateAgainstTypeName_in, Mutable.validateAgainstTypeName_in.
  destruct (getType repository typeName) as [typeDefinition|];
    [|now apply same_outcome_push].
  destruct (type_isBuiltin typeDefinition),
    (type_matches typeDefinition) as [matches|]; try now apply f_F.
  destruct (negb (matches value));
    now (apply same_outcome_push || apply same_outcome_skip).
Qed.

Lemma validateNamed_simulated name constraints value path errors scope heap
    elements :
  heap !! errors = Some elements ->
  same_outcome errors heap
    (validateNamed_in repository f name constraints value path elements
       scope)
    (Mutable.validateNamed_in repository F name constraints value path
       errors scope heap).
Proof.
  intros Hlook. unfold validateNamed_in, Mutable.validateNamed_in.
  apply same_outcome_bind.
  - now apply validateAgainstTypeName_simulated.
  - intros elements' heap' Hlook'. now apply applyConstraints_simulated.
Qed.

Lemma isValid_simulated typeNode value scope heap :
  same_verdict heap (isValid_in f typeNode value scope)
    (Mutable.isValid_in F typeNode value scope heap).
Proof.
  unfold isValid_in, Mutable.isValid_in.
  destruct (array_literal_keeps [] heap) as [Hkeeps Hnew].
  destruct (Mutable.array_literal [] heap) as [errors heap1] eqn:Hliteral.
  cbn [fst snd] in *.
  assert (errors = length heap) as Herrors
    by (unfold Mutable.array_literal in Hliteral; congruence).
  pose proof (f_F typeNode value "$" errors scope heap1 [] Hnew) as Hwalk.
  destruct (f typeNode value "$" [] scope) as [elements|]; cbn in *.
  - destruct Hwalk as (heap2 & -> & Hlook & Hlen & Hsame). cbn.
    exists heap2. split.
    + unfold Mutable.elements. now rewrite Hlook.
    + destruct Hkeeps as [Hlen1 Hsame1]. split; [lia|].
      intros array Hlt. rewrite Hsame by lia. now apply Hsame1.
  - now rewrite Hwalk.
Qed.

Lemma validateItems_simulated itemType array items i path errors scope heap
    elements :
  heap !! errors = Some elements ->
  same_outcome errors heap
    (validateItems f itemType array items i path elements scope)
    (Mutable.validateItems F itemType array items i path errors scope
       heap).
Proof.
  revert i heap elements.
  induction items as [|item items IH]; intros i heap elements Hlook;
    cbn [validateItems Mutable.validateItems].
  - now apply same_outcome_skip.
  - apply same_outcome_bind; [now apply f_F|].
    intros elements' heap' Hlook'. now apply IH.
Qed.

Lemma validateField_simulated value props field path errors scope heap
    elements :
  heap !! errors = Some elements ->
  same_outcome errors heap
    (validateField f value props field path elements scope)
    (Mutable.validateField F value props field path errors scope heap).
Proof.
  intros Hlook. unfold validateField, Mutable.validateField.
  destruct (own_property props (field_name field)) as [fieldValue|];
    [now apply f_F|].
  destruct (field_optional field || _);
    [now apply same_outcome_skip|].
  destruct (field_type field);
    now (apply same_outcome_push || apply same_outcome_skip).
Qed.

Lemma validateFields_simulated value props fields path errors scope heap
    elements :
  heap !! errors = Some elements ->
  same_outcome errors heap
    (validateFields f value props fields path elements scope)
    (Mutable.validateFields F value props fields path errors scope heap).
Proof.
  revert heap elements.
  induction fields as [|field fields IH]; intros heap elements Hlook;
    cbn [validateFields Mutable.validateFields].
  - now apply same_outcome_skip.
  - apply same_outcome_bind; [now apply validateField_simulated|].
    intros elements' heap' Hlook'. now apply IH.
Qed.

Lemma validateEntries_simulated keyType valueType value entries path errors
    scope heap elements :
  heap !! errors = Some elements ->
  same_outcome errors heap
    (validateEntries f keyType valueType value entries path elements scope)
    (Mutable.validateEntries F keyType valueType value entries path errors
       scope heap).
Proof.
  revert heap elements.
  induction entries as [|[entryKey entryValue] entries IH];
    intros heap elements Hlook;
    cbn [validateEntries Mutable.validateEntries].
  - now apply same_outcome_skip.
  - apply same_outcome_bind; [now apply f_F|].
    intros elements1 heap1 Hlook1.
    apply same_outcome_bind; [now apply f_F|].
    intros elements2 heap2 Hlook2. now apply IH.
Qed.

Lemma validateMembers_simulated members value path errors scope heap
    elements :
  heap !! errors = Some elements ->
  same_outcome errors heap
    (validateMembers f members value path elements scope)
    (Mutable.validateMembers F members value path errors scope heap).
Proof.
  revert heap elements.
  induction members as [|member members IH]; intros heap elements Hlook;
    cbn [validateMembers Mutable.validateMembers].
  - now apply same_outcome_skip.
  - apply same_outcome_bind; [now apply f_F|].
    intros elements' heap' Hlook'. now apply IH.
Qed.

Lemma someValid_simulated members value scope heap :
  same_verdict heap (someValid f members value scope)
    (Mutable.someValid F members value scope heap).
Proof.
  revert heap.
  induction members as [|member members IH]; intros heap;
    cbn [someValid Mutable.someValid].
  - exists heap. split; [trivial|]. now split.
  - pose proof (isValid_simulated (ObjectRef member) value scope heap)
      as Hfirst.
    destruct (isValid_in f (ObjectRef member) value scope) as [valid|];
      cbn in *.
    + destruct Hfirst as (heap' & -> & Hkeeps). cbn.
      destruct valid.
      * now exists heap'.
      * specialize (IH heap').
        destruct (someValid f members value scope) as [verdict|];
          cbn in *.
        -- destruct IH as (heap'' & -> & Hkeeps').
           exists heap''. eauto using keeps_trans.
        -- trivial.
    + now rewrite Hfirst.
Qed.

Lemma validateTypeNode_body_simulated :
  simulates (validateTypeNode_body repository f)
    (Mutable.validateTypeNode_body repository F).
Proof.
  intros typeNode value path errors scope heap elements Hlook.
  destruct typeNode as [| |node];
    cbn [validateTypeNode_body Mutable.validateTypeNode_body];
    try now apply same_outcome_skip.
  destruct node as [name constraints|name|inner|itemType constraints|fields
                   |keyType valueType|members|members
                   |condition thenType elseType|literal| |].
  - now apply validateNamed_simulated.
  - destruct value; try now apply validateAgainstTypeName_simulated.
    now apply same_outcome_skip.
  - destruct value; try now apply f_F.
    now apply same_outcome_skip.
  - destruct value as [| | | | |items|props];
      try now apply same_outcome_push.
    destruct (applyConstraints_simulated "Array" constraints (VArr items)
                path errors scope heap elements Hlook)
      as (heap' & [= <-] & Hlook' & Hchanges).
    pose proof (validateItems_simulated itemType (VArr items) items 0 path
                  errors scope _ _ Hlook') as Hitems.
    destruct (validateItems f _ _ _ _ _ _ _) as [elements'|]; cbn in *;
      [|trivial].
    destruct Hitems as (heap'' & -> & Hlook'' & Hchanges').
    exists heap''. eauto using only_changes_trans.
  - destruct value; try now apply same_outcome_push.
    now apply validateFields_simulated.
  - destruct value; try now apply same_outcome_push.
    now apply validateEntries_simulated.
  - apply (same_outcome_after _ _ _ _ elements
             (fun valid : bool =>
                if valid then Some elements
                else Some (elements ++ [_]))
             (fun '(valid, heap') =>
                if valid : bool then Some heap'
                else Some (Mutable.push errors _ heap')));
      [trivial|apply someValid_simulated|].
    intros [|] heap' Hlook';
      now (apply same_outcome_push || apply same_outcome_skip).
  - now apply validateMembers_simulated.
  - destruct (evaluateCondition condition (condition_object scope))
      as [[|]|]; try now apply f_F.
    apply (same_outcome_after _ _ _ _ elements
             (fun validThen : bool =>
                if validThen then Some elements
                else
                  validElse ← isValid_in f (ObjectRef elseType) value scope;
                  if validElse : bool then Some elements
                  else Some (elements ++ [_]))
             (fun '(validThen, heap1) =>
                if validThen : bool then Some heap1
                else
                  '(validElse, heap2) ←
                    Mutable.isValid_in F (ObjectRef elseType) value scope
                      heap1;
                  if validElse : bool then Some heap2
                  else Some (Mutable.push errors _ heap2)));
      [trivial|apply isValid_simulated|].
    intros [|] heap1 Hlook1; [now apply same_outcome_skip|].
    apply (same_outcome_after _ _ _ _ elements
             (fun validElse : bool =>
                if validElse then Some elements
                else Some (elements ++ [_]))
             (fun '(validElse, heap2) =>
                if validElse : bool then Some heap2
                else Some (Mutable.push errors _ heap2)));
      [trivial|apply isValid_simulated|].
    intros [|] heap2 Hlook2;
      now (apply same_outcome_push || apply same_outcome_skip).
  - destruct (negb (strict_equal value literal));
      now (apply same_outcome_push || apply same_outcome_skip).
  - destruct value;
      now (apply same_outcome_push || apply same_outcome_skip).
  - now apply same_outcome_skip.
Qed.

End SimulationBody.

Lemma validateTypeNode_simulated depth :
  simulates (validateTypeNode repository depth)
    (Mutable.validateTypeNode repository depth).
Proof.
  induction depth as [|depth IH].
  - now intros typeNode value path errors scope heap elements Hlook.
  - now apply validateTypeNode_body_simulated.
Qed.

(** On every heap, the call returns when the walk on a list does, and
    then returns a new array that holds the list of that walk; the arrays
    that were there are as they were. *)
Lemma validate_simulated depth jsonInput rootType heap :
  match validate repository depth jsonInput rootType with
  | Some elements =>
      exists heap',
        Mutable.validate repository depth jsonInput rootType heap =
        Some (length heap, heap') /\
        heap' !! length heap = Some elements /\ keeps heap heap'
  | None =>
      Mutable.validate repository depth jsonInput rootType heap = None
  end.
Proof.
  unfold validate, Mutable.validate.
  destruct (match jsonInput with
            | VStr text => JSON_parse text
            | _ => Returned jsonInput
            end) as [value|message].
  2: { eexists. split; [reflexivity|]. split; apply array_literal_keeps. }
  destruct (resolveRootType repository rootType) as [resolvedRoot|message].
  2: { eexists. split; [reflexivity|]. split; apply array_literal_keeps. }
  destruct (array_literal_keeps [] heap) as [[Hlen1 Hsame1] Hnew].
  cbn [Mutable.array_literal fst snd] in *.
  pose proof (validateAgainstTypeName_simulated _ _
                (validateTypeNode_simulated depth) value resolvedRoot "$"
                (length heap)
                {| scope_root := value; scope_current := value;
                   scope_parent := None |} _ _ Hnew) as Hwalk.
  unfold validateAgainstTypeName, Mutable.validateAgainstTypeName.
  destruct (validateAgainstTypeName_in _ _ _ _ _ _ _) as [elements|];
    cbn in *.
  - destruct Hwalk as (heap2 & -> & Hlook & Hlen & Hsame). cbn.
    exists heap2. split; [trivial|]. split; [trivial|].
    split; [lia|].
    intros array Hlt. rewrite Hsame by lia. now apply Hsame1.
  - now rewrite Hwalk.
Qed.

(** C8.  Two invocations of [validate] on the same input, repository and
    root type return identical lists of diagnostics, and nothing that a
    call leaves behind changes what another returns.  What a call leaves
    behind is the heap of arrays; an invocation is taken on any heap, so
    on the one an earlier invocation left, also after the caller has
    changed the array it was handed.  An invocation that returns
    - returns an array that was not there before, and leaves every array
      that was there as it was (the results of earlier invocations among
      them);
    - returns the list of the walk on a list, which no heap enters;
    - returns the same elements, in the same order, as every invocation
      that returns, on whatever heap and with whatever depth of call
      stack;
    and with it returns every invocation, on whatever heap, that has at
    least its depth of call stack. *)
Theorem validate_no_hidden_state depth1 depth2 jsonInput rootType heap1
    heap2 errors1 heap1' :
  Mutable.validate repository depth1 jsonInput rootType heap1 =
  Some (errors1, heap1') ->
  heap1 !! errors1 = None /\
  keeps heap1 heap1' /\
  validate repository depth1 jsonInput rootType =
  Some (Mutable.elements heap1' errors1) /\
  (forall errors2 heap2',
     Mutable.validate repository depth2 jsonInput rootType heap2 =
     Some (errors2, heap2') ->
     Mutable.elements heap2' errors2 = Mutable.elements heap1' errors1) /\
  (depth1 <= depth2 ->
   exists errors2 heap2',
     Mutable.validate repository depth2 jsonInput rootType heap2 =
     Some (errors2, heap2')).
Proof.
  intros Hfirst.
  pose proof (validate_simulated depth1 jsonInput rootType heap1) as H1.
  destruct (validate repository depth1 jsonInput rootType)
    as [elements1|] eqn:Hlisted1; [|congruence].
  destruct H1 as (heap' & Hcall & Hlook & Hkeeps).
  rewrite Hfirst in Hcall. injection Hcall as -> <-.
  assert (Mutable.elements heap1' (length heap1) = elements1) as Helements
    by (unfold Mutable.elements; now rewrite Hlook).
  rewrite Helements.
  split; [apply lookup_ge_None; lia|].
  split; [trivial|]. split; [trivial|]. split.
  - intros errors2 heap2' Hsecond.
    pose proof (validate_simulated depth2 jsonInput rootType heap2) as H2.
    destruct (validate repository depth2 jsonInput rootType)
      as [elements2|] eqn:Hlisted2; [|congruence].
    destruct H2 as (heap'' & Hcall & Hlook2 & _).
    rewrite Hsecond in Hcall. injection Hcall as -> <-.
    unfold Mutable.elements. rewrite Hlook2. cbn.
    apply (validate_le _ _ (Nat.max depth1 depth2)) in Hlisted1; [|lia].
    apply (validate_le _ _ (Nat.max depth1 depth2)) in Hlisted2; [|lia].
    congruence.
  - intros Hle.
    apply (validate_le _ _ depth2) in Hlisted1; [|trivial].
    pose proof (validate_simulated depth2 jsonInput rootType heap2) as H2.
    rewrite Hlisted1 in H2. destruct H2 as (heap'' & Hcall & _).
    eauto.
Qed.

End Simulation.

(** ** The properties at work on the sample schema *)

Section Witnesses.

Import Sample.

#[local] Existing Instance host.

Lemma union_spec_witness :
  validateTypeNode repository 2 (ObjectRef status) (VStr "Draft") "$.status"
    [] (top draft) = Some [].
Proof.
  apply (union_spec repository 1
           [TLiteral (VStr "Rejected"); TLiteral (VStr "Draft")]).
  - intros member [<- | [<- | []]]; eexists; reflexivity.
  - exists (TLiteral (VStr "Draft")). split; [right; now left|reflexivity].
Defined.

Lemma conditional_spec_witness :
  validateTypeNode repository 3
    (ObjectRef
       (TConditional ("status = " +:+ in_quotes "Rejected")
          (TNamed "String" [min3]) TAbsent))
    (VStr "because") "$.reason" []
    {| scope_root := draft; scope_current := VStr "because";
       scope_parent := Some draft |} =
  Some [error "$.reason" "Expected field to be absent." "FieldMustBeAbsent"
          "ValidationError"].
Proof.
  rewrite (proj1 (proj2 (conditional_spec repository 2 _ _ _ _ _ _ _)));
    reflexivity.
Defined.

Lemma record_fields_spec_witness :
  validateTypeNode repository 3
    (ObjectRef (TRecord [Field "title" (TNamed "String" []) false None]))
    (VObj []) "$" [] (top (VObj [])) =
  Some [error "$.title" "Missing required field." "FieldMissing"
          "ValidationError"].
Proof.
  apply (proj1 (record_fields_spec repository 2 _ [] "$" [] _)).
  exists [[error "$.title" "Missing required field." "FieldMissing"
             "ValidationError"]].
  split; [|reflexivity].
  constructor; [|constructor].
  apply (proj1 (proj2 (record_fields_spec repository 2 [] [] "$" []
                         (top (VObj []))))
           (Field "title" (TNamed "String" []) false None));
    reflexivity.
Defined.

Lemma validateTypeNode_vacuous_witness :
  validateTypeNode repository 1 NullRef (VStr "anything") "$" [] (top VNull)
    = Some [] /\
  validateTypeNode repository 1 (ObjectRef TUnknownKind) (VStr "anything")
    "$" [] (top VNull) = Some [].
Proof.
  split; apply validateTypeNode_vacuous; auto.
Defined.

Lemma validateNamed_applies_constraints_witness :
  validateTypeNode repository 2
    (ObjectRef (TNamed "Int" [below "12"; unknownRule])) (VStr "x") "$" []
    (top (VStr "x")) =
  Some [error "$" "Expected Int." "TypeMismatch" "TypeError";
        error "$" "Constraint failed: Int.below" "ValidatorFailed"
          "ValidationError";
        error "$" "Unknown constraint: Int.unknownRule" "UnknownConstraint"
          "SemanticError"] /\
  validateTypeNode repository 2 (ObjectRef (TNamed "Nope" [unknownRule]))
    VNull "$" [] (top VNull) =
  Some [error "$" "Unknown type: Nope" "UnknownType" "TypeError";
        error "$" "Unknown constraint: Nope.unknownRule" "UnknownConstraint"
          "SemanticError"].
Proof.
  split.
  - rewrite (proj2 (proj2 (validateNamed_applies_constraints repository 1
                             "Int" [below "12"; unknownRule] (VStr "x") "$"
                             [] (top (VStr "x"))))
               (builtin
                  (fun v => match v with VNum _ => true | _ => false end))
               _ eq_refl eq_refl eq_refl eq_refl).
    reflexivity.
  - rewrite (proj1 (proj2 (validateNamed_applies_constraints repository 1
                             "Nope" [unknownRule] VNull "$" [] (top VNull)))
               eq_refl).
    reflexivity.
Defined.

Lemma validate_no_hidden_state_witness :
  returned
    (Mutable.validate repository 6 (VObj [("status", VStr "Other")])
       (Some "Ticket")
       (Mutable.push 1 (error "$" "kept by the caller" "Note" "Note")
          (heap_after
             (Mutable.validate repository 4
                (VObj [("status", VStr "Other")]) (Some "Ticket")
                [[error "$" "stale" "Stale" "Stale"]])))) =
  returned
    (Mutable.validate repository 4 (VObj [("status", VStr "Other")])
       (Some "Ticket") [[error "$" "stale" "Stale" "Stale"]]).
Proof.
  exact (proj1 (proj2 (proj2 (proj2
           (validate_no_hidden_state repository 4 6
              (VObj [("status", VStr "Other")]) (Some "Ticket")
              [[error "$" "stale" "Stale" "Stale"]]
              (Mutable.push 1 (error "$" "kept by the caller" "Note" "Note")
                 (heap_after
                    (Mutable.validate repository 4
                       (VObj [("status", VStr "Other")]) (Some "Ticket")
                       [[error "$" "stale" "Stale" "Stale"]])))
              _ _ eq_refl)))) _ _ eq_refl).
Defined.

Lemma validate_propagation_witness :
  run 0 (VStr "{bad json") "Ticket" =
  Some [error "$" "Invalid JSON: Unexpected token in JSON"
          "InvalidExpression" "ParseError"] /\
  run 0 (VStr "{}") "NoSuchType" =
  Some [error "$" "Unknown root type: NoSuchType" "UnknownType"
          "TypeError"] /\
  run 4 (VObj [("status", VStr "Other")]) "Ticket" =
  Some [error "$.status" "Value does not match any union member."
          "TypeMismatch" "TypeError";
        error "$.reason" "Missing required field." "FieldMissing"
          "ValidationError"].
Proof.
  split; [|split].
  - apply (proj1 (validate_propagation repository 0 (VStr "{bad json")
                    (Some "Ticket"))).
    reflexivity.
  - apply (proj1 (proj2 (validate_propagation repository 0 (VStr "{}")
                           (Some "NoSuchType"))) (VObj [])); reflexivity.
  - unfold run.
    rewrite (proj1 (proj2 (proj2 (validate_propagation repository 4
               (VObj [("status", VStr "Other")]) (Some "Ticket"))))
               (VObj [("status", VStr "Other")]) "Ticket" eq_refl eq_refl).
    reflexivity.
Defined.

End Witnesses.

(** * Further properties *)

(** ** Strings *)

Lemma append_assoc (a b c : string) : (a +:+ b) +:+ c = a +:+ b +:+ c.
Proof.
  induction a as [|x a IH]; [reflexivity|].
  change (String x ((a +:+ b) +:+ c) = String x (a +:+ b +:+ c)).
  now f_equal.
Qed.

Lemma append_empty (a : string) : a +:+ "" = a.
Proof.
  induction a as [|x a IH]; [reflexivity|].
  change (String x (a +:+ "") = String x a). now f_equal.
Qed.

Lemma prefix_append (path suffix : string) :
  String.prefix path (path +:+ suffix) = true.
Proof.
  induction path as [|c path IH]; [now destruct suffix|].
  change (String c path +:+ suffix) with (String c (path +:+ suffix)).
  simpl. now destruct (ascii_dec c c).
Qed.

Lemma slice_append (s rest : string) :
  slice (s +:+ rest) (String.length s) = rest.
Proof.
  induction s as [|c s IH]; [now destruct rest|].
  change (String c s +:+ rest) with (String c (s +:+ rest)). exact IH.
Qed.

Lemma chars_append a b : chars (a +:+ b) = chars a ++ chars b.
Proof.
  induction a as [|c a IH]; [reflexivity|].
  change (c :: chars (a +:+ b) = c :: chars a ++ chars b). now f_equal.
Qed.

Lemma of_chars_app a b : of_chars (a ++ b) = of_chars a +:+ of_chars b.
Proof.
  induction a as [|c a IH]; [reflexivity|].
  change (String c (of_chars (a ++ b)) = String c (of_chars a +:+ of_chars b)).
  now f_equal.
Qed.

Lemma drop_while_pad p pad rest :
  forallb p pad = true -> drop_while p (pad ++ rest) = drop_while p rest.
Proof.
  induction pad as [|c pad IH]; simpl; [easy|].
  intros [Hc Hpad]%andb_prop. rewrite Hc. now apply IH.
Qed.

Lemma drop_while_keeps p cs rest :
  forallb p cs = false ->
  drop_while p (cs ++ rest) = drop_while p cs ++ rest.
Proof.
  induction cs as [|c cs IH]; simpl; [easy|].
  destruct (p c); simpl; [exact IH|reflexivity].
Qed.

Lemma drop_while_none p cs : forallb p cs = true -> drop_while p cs = [].
Proof.
  induction cs as [|c cs IH]; simpl; [easy|].
  intros [Hc Hcs]%andb_prop. rewrite Hc. now apply IH.
Qed.

Lemma drop_while_split p cs :
  exists pad, forallb p pad = true /\ cs = pad ++ drop_while p cs.
Proof.
  induction cs as [|c cs (pad & Hpad & IH)]; simpl; [now exists []|].
  destruct (p c) eqn:Hc.
  - exists (c :: pad). simpl. rewrite Hc, Hpad. split; [easy|]. now f_equal.
  - now exists [].
Qed.

Lemma drop_while_stop p l c r :
  p c = false -> drop_while p (l ++ c :: r) = drop_while p l ++ c :: r.
Proof.
  intros Hc. induction l as [|d l IH]; simpl; [now rewrite Hc|].
  now destruct (p d).
Qed.

Lemma forallb_rev {A} (p : A -> bool) l : forallb p (rev l) = forallb p l.
Proof.
  induction l as [|x l IH]; simpl; [easy|].
  rewrite forallb_app, IH. simpl. rewrite andb_true_r. apply andb_comm.
Qed.

Lemma forallb_drop_while p cs :
  forallb p cs = false -> forallb p (drop_while p cs) = false.
Proof.
  induction cs as [|c cs IH]; simpl; [easy|].
  destruct (p c) eqn:Hc; simpl; [exact IH|now rewrite Hc].
Qed.

Lemma drop_spaces_kept c cs :
  is_space c = false -> drop_spaces (c :: cs) = c :: cs.
Proof. unfold drop_spaces. simpl. now intros ->. Qed.

(** White space around a text does not change what [trim] returns. *)
Lemma trim_pad pad s pad' :
  forallb is_space (chars pad) = true ->
  forallb is_space (chars pad') = true ->
  trim (pad +:+ s +:+ pad') = trim s.
Proof.
  intros Hpad Hpad'. unfold trim, drop_spaces. f_equal. f_equal.
  assert (chars (pad +:+ s +:+ pad') = chars pad ++ chars s ++ chars pad')
    as ->.
  { now rewrite !chars_append. }
  rewrite drop_while_pad by exact Hpad.
  destruct (forallb is_space (chars s)) eqn:Hs.
  - rewrite (drop_while_none _ (chars s)) by exact Hs.
    rewrite (drop_while_none _ (chars s ++ chars pad')); [reflexivity|].
    rewrite forallb_app, Hs. exact Hpad'.
  - rewrite drop_while_keeps by exact Hs.
    rewrite rev_app_distr. apply drop_while_pad.
    now rewrite forallb_rev.
Qed.

(** A text is what [trim] returns of it, with white space around. *)
Lemma trim_split s :
  exists pad pad',
    forallb is_space (chars pad) = true /\
    forallb is_space (chars pad') = true /\
    s = pad +:+ trim s +:+ pad'.
Proof.
  destruct (drop_while_split is_space (chars s)) as (pad & Hpad & Hs).
  destruct (drop_while_split is_space (rev (drop_spaces (chars s))))
    as (pad' & Hpad' & Hs').
  exists (of_chars pad), (of_chars (rev pad')).
  rewrite !chars_of_chars, forallb_rev. split; [easy|split; [easy|]].
  unfold trim, drop_spaces in *.
  set (a := drop_while is_space (chars s)) in *.
  set (t := rev (drop_while is_space (rev a))) in *.
  assert (a = t ++ rev pad') as Ha.
  { rewrite <- (rev_involutive a), Hs', rev_app_distr. reflexivity. }
  rewrite <- (of_chars_chars s) at 1.
  now rewrite Hs, Ha, !of_chars_app.
Qed.

Lemma trim_idempotent s : trim (trim s) = trim s.
Proof.
  destruct (trim_split s) as (pad & pad' & Hpad & Hpad' & Hs).
  rewrite Hs at 2. now rewrite trim_pad.
Qed.

(** A text that neither starts nor ends with white space is what [trim]
    returns of it. *)
Lemma trim_chars_kept cs :
  starts_with is_space cs = false ->
  starts_with is_space (rev cs) = false ->
  rev (drop_spaces (rev (drop_spaces cs))) = cs.
Proof.
  intros Hfirst Hlast. unfold drop_spaces.
  assert (forall l, starts_with is_space l = false ->
                    drop_while is_space l = l) as Hkept.
  { intros [|c l]; [reflexivity|]. cbn [starts_with drop_while].
    now intros ->. }
  now rewrite (Hkept cs), (Hkept (rev cs)), rev_involutive.
Qed.

Lemma trim_first s c cs :
  chars s = c :: cs -> is_space c = false ->
  exists cs', chars (trim s) = c :: cs'.
Proof.
  intros Hs Hc. unfold trim. rewrite chars_of_chars, Hs.
  rewrite drop_spaces_kept by exact Hc. cbn [rev]. unfold drop_spaces.
  rewrite drop_while_stop by exact Hc.
  rewrite rev_app_distr. cbn [rev app]. now eexists.
Qed.

(** ** Literal coercion, further *)

Lemma parseMaybeLiteral_trim s :
  parseMaybeLiteral (VStr (trim s)) = parseMaybeLiteral (VStr s).
Proof. unfold parseMaybeLiteral. now rewrite trim_idempotent. Qed.

(** X1.  White space around an operand does not change the value that
    literal coercion gives it. *)
Theorem parseMaybeLiteral_padding pad s pad' :
  forallb is_space (chars pad) = true ->
  forallb is_space (chars pad') = true ->
  parseMaybeLiteral (VStr (pad +:+ s +:+ pad')) = parseMaybeLiteral (VStr s).
Proof.
  intros Hpad Hpad'. unfold parseMaybeLiteral.
  now rewrite trim_pad.
Qed.

Lemma parseMaybeLiteral_padding_witness :
  parseMaybeLiteral (VStr ("  " +:+ "true" +:+ " ")) =
  parseMaybeLiteral (VStr "true").
Proof.
  apply (parseMaybeLiteral_padding "  " "true" " "); reflexivity.
Defined.

Lemma unescape_protect cs : unescape (protect cs) = cs.
Proof.
  induction cs as [|c cs IH]; simpl; [reflexivity|].
  destruct (ascii_eqb c "\") eqn:Hc; simpl; rewrite Hc, IH; [|reflexivity].
  apply ascii_eqb_eq in Hc as ->. reflexivity.
Qed.

Lemma enclosed_quote q cs : enclosed (q :: cs ++ [q]) = cs.
Proof. unfold enclosed. simpl. apply removelast_last. Qed.

Lemma trim_quote q s : is_space q = false -> trim (quote q s) = quote q s.
Proof.
  intros Hq. unfold trim, quote. rewrite chars_of_chars.
  rewrite drop_spaces_kept by exact Hq.
  change (q :: protect (chars s) ++ [q])
    with ([q] ++ protect (chars s) ++ [q]).
  rewrite !rev_app_distr. simpl.
  rewrite drop_spaces_kept by exact Hq.
  simpl. rewrite rev_app_distr, rev_involutive. reflexivity.
Qed.

Lemma quoted_quote q s :
  q = double_quote \/ q = "'"%char -> quoted (quote q s) = true.
Proof.
  unfold quoted, quote, startsWith, endsWith. rewrite chars_of_chars.
  change (q :: protect (chars s) ++ [q])
    with ([q] ++ protect (chars s) ++ [q]).
  rewrite !rev_app_distr. simpl.
  intros [-> | ->]; reflexivity.
Qed.

(** X2.  Every string is the value of a quoted literal: the string
    between two double quotes or two single quotes, with a backslash put
    before each of its backslashes, is coerced to the string itself.  A
    quote character inside the string needs no escape. *)
Theorem parseMaybeLiteral_quote q s :
  q = double_quote \/ q = "'"%char ->
  parseMaybeLiteral (VStr (quote q s)) = VStr s.
Proof.
  intros Hq. pose proof (quoted_quote q s Hq) as Hquoted.
  unfold parseMaybeLiteral.
  rewrite trim_quote by (destruct Hq as [-> | ->]; reflexivity).
  destruct (quoted_not_keyword _ Hquoted) as (-> & -> & ->).
  rewrite (quoted_not_number _ Hquoted).
  fold (quoted (quote q s)). rewrite Hquoted.
  rewrite decodeStringLiteral_unescape. unfold quote.
  rewrite chars_of_chars, enclosed_quote, unescape_protect.
  now rewrite of_chars_chars.
Qed.

Lemma parseMaybeLiteral_quote_witness :
  quote "'" "it's a\b" = "'it's a\\b'" /\
  parseMaybeLiteral (VStr (quote "'" "it's a\b")) = VStr "it's a\b".
Proof.
  split; [reflexivity|].
  apply (parseMaybeLiteral_quote "'" "it's a\b"). now right.
Defined.

(** ** Conditional guards, further *)

Lemma evaluateCondition_path (g : Guard) objectValue current :
  guard_form g = true ->
  isObject objectValue = true ->
  resolve_path objectValue (guard_path g) = Some current ->
  evaluateCondition (guard_text g) objectValue = Some (guard_holds g current).
Proof.
  intros Hform Hobject Hpath.
  destruct (exec_guard g Hform) as (m & Hm & Hsplit & Hop & Hliteral).
  unfold evaluateCondition, guard_holds.
  rewrite Hobject, Hm. cbn [negb]. cbv zeta.
  rewrite Hsplit, Hpath, Hop, Hliteral, parseMaybeLiteral_trim.
  now destruct (String.eqb (guard_op g) "=").
Qed.

(** X3.  For a guard of the form [dotted.path <op> literal] evaluated
    against an object in which every segment of the path resolves, [=]
    holds exactly when the value reached is strictly equal to the coerced
    literal, and [!=] exactly when it is not. *)
Theorem evaluateCondition_resolved (g : Guard) objectValue current :
  guard_form g = true ->
  isObject objectValue = true ->
  resolve_path objectValue (guard_path g) = Some current ->
  let expected := parseMaybeLiteral (VStr (guard_literal g)) in
  (guard_op g = "=" ->
   evaluateCondition (guard_text g) objectValue =
   Some (strict_equal current expected)) /\
  (guard_op g = "!=" ->
   evaluateCondition (guard_text g) objectValue =
   Some (negb (strict_equal current expected))).
Proof.
  intros Hform Hobject Hpath expected.
  rewrite (evaluateCondition_path g objectValue current Hform Hobject Hpath).
  unfold guard_holds. fold expected.
  split; now intros ->.
Qed.

Lemma evaluateCondition_resolved_witness :
  evaluateCondition "owner.name != 'x'"
    (VObj [("owner", VObj [("name", VStr "y")])]) = Some true.
Proof.
  refine
    (proj2
       (evaluateCondition_resolved Sample.owner_name_is_not_x
          (VObj [("owner", VObj [("name", VStr "y")])]) (VStr "y")
          eq_refl eq_refl eq_refl)
       eq_refl).
Defined.

(** ** The walk, further *)

(** *** Diagnostics are relative to the path *)

Lemma under_append path suffix e :
  under (path +:+ suffix) e = under path (under suffix e).
Proof. unfold under, error; simpl. now rewrite append_assoc. Qed.

Lemma under_here path message code category :
  under path (error "" message code category) =
  error path message code category.
Proof. unfold under, error; simpl. now rewrite append_empty. Qed.

#[local] Hint Rewrite under_here @app_nil_r : relocation.

Lemma map_under_append path suffix tails :
  map (under (path +:+ suffix)) tails =
  map (under path) (map (under suffix) tails).
Proof.
  rewrite map_map. apply map_ext. intros e. apply under_append.
Qed.

Lemma known_under suffix tails :
  Forall known tails -> Forall known (map (under suffix) tails).
Proof.
  intros H. apply List.Forall_map. eapply List.Forall_impl; [|exact H].
  now intros e.
Qed.

Section Relocation.

Context {host : JsHost}.
Variable repository : Repository.

Lemma applyConstraint_relative targetType constraint value scope :
  exists tails,
    Forall known tails /\
    forall path errors,
      applyConstraint repository targetType constraint value path errors
        scope = errors ++ map (under path) tails.
Proof.
  unfold applyConstraint.
  destruct (getValidator repository targetType (constraint_name constraint))
    as [validator|]; [|single].
  destruct (validator_isBuiltin validator),
    (validator_evaluate validator) as [evaluate|];
    try (destruct (evaluateCustomValidator _ _ _ _) as [[]|];
         solve [nothing|single]).
  destruct (evaluate _ _) as [| |[]| | | |]; solve [nothing|single].
Qed.

Lemma applyConstraints_relative targetType constraints value scope :
  exists tails,
    Forall known tails /\
    forall path errors,
      applyConstraints repository targetType constraints value path errors
        scope = errors ++ map (under path) tails.
Proof.
  unfold applyConstraints.
  induction constraints as [|constraint constraints IH]; simpl; [nothing|].
  destruct IH as (tails2 & Hknown2 & IH).
  destruct (applyConstraint_relative targetType constraint value scope)
    as (tails1 & Hknown1 & H1).
  exists (tails1 ++ tails2). split; [now apply Forall_app|].
  intros path errors. rewrite IH, H1, map_app, app_assoc. reflexivity.
Qed.

(** Two steps in a row, the first under a suffix of the path. *)
Lemma relative_then suffix tails1 tails2 :
  Forall known tails1 -> Forall known tails2 ->
  exists tails,
    Forall known tails /\
    forall path errors,
      (errors ++ map (under (path +:+ suffix)) tails1) ++
      map (under path) tails2 =
      errors ++ map (under path) tails.
Proof.
  intros H1 H2. exists (map (under suffix) tails1 ++ tails2).
  split; [apply Forall_app; split; [now apply known_under|easy]|].
  intros path errors.
  now rewrite map_app, <- map_under_append, app_assoc.
Qed.

Section RelocationBody.

Variable f : walk.
Hypothesis Hf : relative f.

Lemma validateAgainstTypeName_in_relative value typeName path errors scope
    result :
  validateAgainstTypeName_in repository f value typeName path errors scope
    = Some result ->
  exists tails,
    Forall known tails /\
    forall path' errors',
      validateAgainstTypeName_in repository f value typeName path' errors'
        scope = Some (errors' ++ map (under path') tails).
Proof.
  unfold validateAgainstTypeName_in.
  destruct (getType repository typeName) as [typeDefinition|];
    [|intros _; single].
  destruct (type_isBuiltin typeDefinition),
    (type_matches typeDefinition) as [matches|]; try apply Hf.
  intros _. destruct (negb (matches value)); [single|nothing].
Qed.

Lemma validateItems_relative itemType array items i path errors scope
    result :
  validateItems f itemType array items i path errors scope = Some result ->
  exists tails,
    Forall known tails /\
    forall path' errors',
      validateItems f itemType array items i path' errors' scope =
      Some (errors' ++ map (under path') tails).
Proof.
  revert i errors result.
  induction items as [|item items IH]; intros i errors result; simpl;
    [intros _; nothing|].
  intros H. step H.
  destruct (Hf _ _ _ _ _ _ E) as (tails1 & Hknown1 & H1).
  destruct (IH _ _ _ H) as (tails2 & Hknown2 & H2).
  destruct (relative_then ("[" +:+ of_index i +:+ "]") _ _ Hknown1 Hknown2)
    as (tails & Hknown & Htails).
  exists tails. split; [easy|].
  intros path' errors'. rewrite H1. simpl. rewrite H2. f_equal. apply Htails.
Qed.

Lemma validateField_relative value props field path errors scope result :
  validateField f value props field path errors scope = Some result ->
  exists tails,
    Forall known tails /\
    forall path' errors',
      validateField f value props field path' errors' scope =
      Some (errors' ++ map (under path') tails).
Proof.
  unfold validateField.
  destruct (own_property props (field_name field)) as [fieldValue|].
  - intros H. destruct (Hf _ _ _ _ _ _ H) as (tails1 & Hknown1 & H1).
    exists (map (under ("." +:+ field_name field)) tails1).
    split; [now apply known_under|].
    intros path' errors'. now rewrite H1, map_under_append.
  - intros _. destruct (_ || _); [nothing|].
    destruct (field_type field); try nothing.
    all: eexists [error ("." +:+ field_name field) _ _ _]; split; revgoals;
      [intros; reflexivity|constructor; [known_code|constructor]].
Qed.

Lemma validateFields_relative value props fields path errors scope result :
  validateFields f value props fields path errors scope = Some result ->
  exists tails,
    Forall known tails /\
    forall path' errors',
      validateFields f value props fields path' errors' scope =
      Some (errors' ++ map (under path') tails).
Proof.
  revert errors result.
  induction fields as [|field fields IH]; intros errors result; simpl;
    [intros _; nothing|].
  intros H. step H.
  destruct (validateField_relative _ _ _ _ _ _ _ E)
    as (tails1 & Hknown1 & H1).
  destruct (IH _ _ H) as (tails2 & Hknown2 & H2).
  exists (tails1 ++ tails2). split; [now apply Forall_app|].
  intros path' errors'. rewrite H1. simpl. rewrite H2.
  now rewrite map_app, app_assoc.
Qed.

Lemma validateEntries_relative keyType valueType value entries path errors
    scope result :
  validateEntries f keyType valueType value entries path errors scope
    = Some result ->
  exists tails,
    Forall known tails /\
    forall path' errors',
      validateEntries f keyType valueType value entries path' errors' scope
      = Some (errors' ++ map (under path') tails).
Proof.
  revert errors result.
  induction entries as [|[entryKey entryValue] entries IH];
    intros errors result; simpl; [intros _; nothing|].
  intros H. step H. step H.
  destruct (Hf _ _ _ _ _ _ E) as (tails1 & Hknown1 & H1).
  destruct (Hf _ _ _ _ _ _ E0) as (tails2 & Hknown2 & H2).
  destruct (IH _ _ H) as (tails3 & Hknown3 & H3).
  exists
    (map (under (".[key:" +:+ entryKey +:+ "]")) tails1 ++
     map (under ("." +:+ entryKey)) tails2 ++ tails3).
  split; [repeat (apply Forall_app; split); auto using known_under|].
  intros path' errors'. rewrite H1. simpl. rewrite H2. simpl. rewrite H3.
  now rewrite !map_app, <- !map_under_append, !app_assoc.
Qed.

Lemma validateMembers_relative members value path errors scope result :
  validateMembers f members value path errors scope = Some result ->
  exists tails,
    Forall known tails /\
    forall path' errors',
      validateMembers f members value path' errors' scope =
      Some (errors' ++ map (under path') tails).
Proof.
  revert errors result.
  induction members as [|member members IH]; intros errors result; simpl;
    [intros _; nothing|].
  intros H. step H.
  destruct (Hf _ _ _ _ _ _ E) as (tails1 & Hknown1 & H1).
  destruct (IH _ _ H) as (tails2 & Hknown2 & H2).
  exists (tails1 ++ tails2). split; [now apply Forall_app|].
  intros path' errors'. rewrite H1. simpl. rewrite H2.
  now rewrite map_app, app_assoc.
Qed.

Lemma validateTypeNode_body_relative :
  relative (validateTypeNode_body repository f).
Proof.
  intros [| |node] value path errors scope result; simpl;
    try (intros _; nothing).
  destruct node as
    [name constraints|name|inner|itemType constraints|fields
    |keyType valueType|members|members|condition thenType elseType
    |literal| |]; simpl.
  - unfold validateNamed_in. intros H. step H.
    destruct (validateAgainstTypeName_in_relative _ _ _ _ _ _ E)
      as (tails1 & Hknown1 & H1).
    destruct (applyConstraints_relative name constraints value scope)
      as (tails2 & Hknown2 & H2).
    exists (tails1 ++ tails2). split; [now apply Forall_app|].
    intros path' errors'. rewrite H1. simpl. rewrite H2.
    now rewrite map_app, app_assoc.
  - destruct value; try apply validateAgainstTypeName_in_relative.
    intros _; nothing.
  - destruct value; try apply Hf. intros _; nothing.
  - destruct value; try (intros _; single).
    intros H.
    destruct (validateItems_relative _ _ _ _ _ _ _ _ H)
      as (tails2 & Hknown2 & H2).
    destruct (applyConstraints_relative "Array" constraints (VArr items)
                scope) as (tails1 & Hknown1 & H1).
    exists (tails1 ++ tails2). split; [now apply Forall_app|].
    intros path' errors'. rewrite H2.
    now rewrite H1, map_app, app_assoc.
  - destruct value; try (intros _; single). apply validateFields_relative.
  - destruct value; try (intros _; single). apply validateEntries_relative.
  - destruct (someValid _ _ _ _) as [[]|]; simpl; [| |easy];
      intros _; [nothing|single].
  - apply validateMembers_relative.
  - destruct (evaluateCondition _ _) as [[]|]; try apply Hf.
    destruct (isValid_in f (ObjectRef thenType) value scope) as [[]|];
      simpl; [| |easy]; [intros _; nothing|].
    destruct (isValid_in f (ObjectRef elseType) value scope) as [[]|];
      simpl; [| |easy]; intros _; [nothing|single].
  - intros _. destruct (negb _); [single|nothing].
  - intros _. destruct value; solve [nothing|single].
  - intros _; nothing.
Qed.

End RelocationBody.

Lemma validateTypeNode_relative depth :
  relative (validateTypeNode repository depth).
Proof.
  induction depth as [|depth IH]; [easy|].
  apply validateTypeNode_body_relative, IH.
Qed.

(** X4.  The diagnostics of a walk are relative to its path.  When the
    walk of a node returns at one path, it returns at every path and with
    every collector, and appends the same diagnostics up to their paths:
    the path of each is the path of the call followed by a suffix that
    depends on neither, so it starts with the path of the call. *)
Theorem validateTypeNode_relocation depth typeNode value path errors scope
    result :
  validateTypeNode repository depth typeNode value path errors scope
    = Some result ->
  exists tails,
    result = errors ++ map (under path) tails /\
    Forall (fun e => String.prefix path (error_path e) = true)
      (map (under path) tails) /\
    forall path' errors',
      validateTypeNode repository depth typeNode value path' errors' scope =
      Some (errors' ++ map (under path') tails).
Proof.
  intros H.
  destruct (validateTypeNode_relative depth _ _ _ _ _ _ H)
    as (tails & _ & Htails).
  exists tails. split; [|split; [|exact Htails]].
  - rewrite Htails in H. congruence.
  - apply List.Forall_map, List.Forall_forall. intros e _.
    apply prefix_append.
Qed.

(** X5.  Validity in isolation is validity in place.  [isValid], which
    walks the node at [$] with a collector of its own, answers true exactly
    when the walk of the node at the current path returns the collector
    unchanged, and false exactly when that walk appends a diagnostic. *)
Theorem isValid_in_place depth typeNode value scope path errors :
  (isValid repository depth typeNode value scope = Some true <->
   validateTypeNode repository depth typeNode value path errors scope =
   Some errors) /\
  (isValid repository depth typeNode value scope = Some false <->
   exists e news,
     validateTypeNode repository depth typeNode value path errors scope =
     Some (errors ++ e :: news)).
Proof.
  unfold isValid. rewrite isValid_in_spec.
  destruct (validateTypeNode repository depth typeNode value "$" [] scope)
    as [atRoot|] eqn:HatRoot.
  - destruct (validateTypeNode_relative depth _ _ _ _ _ _ HatRoot)
      as (tails & _ & Htails).
    rewrite Htails in HatRoot. rewrite Htails.
    injection HatRoot as <-. simpl.
    destruct tails as [|tail tails]; simpl.
    + rewrite app_nil_r. split; [easy|]. split; [easy|].
      intros (e & news & [= H]).
      apply (f_equal (@length _)) in H. rewrite length_app in H.
      simpl in H. lia.
    + split.
      * split; [easy|]. intros [= H].
        apply (f_equal (@length _)) in H. rewrite length_app in H.
        simpl in H. lia.
      * split; [|easy]. intros _. now eexists _, _.
  - split; (split; [easy|]).
    + intros H.
      destruct (validateTypeNode_relative depth _ _ _ _ _ _ H)
        as (tails & _ & Htails). now rewrite Htails in HatRoot.
    + intros (e & news & H).
      destruct (validateTypeNode_relative depth _ _ _ _ _ _ H)
        as (tails & _ & Htails). now rewrite Htails in HatRoot.
Qed.

(** X6.  Every diagnostic that [validate] returns has a path that starts
    with [$] and one of eight pairs of code and category.  The pair
    InvalidExpression and ParseError is returned for a text that fails to
    decode only, and then alone: the walk never produces it. *)
Theorem validate_diagnostics depth jsonInput rootType result :
  validate repository depth jsonInput rootType = Some result ->
  Forall
    (fun e =>
       String.prefix "$" (error_path e) = true /\
       In (error_code e, error_category e) validate_codes)
    result /\
  (forall e,
     In e result -> error_code e = "InvalidExpression" ->
     exists text message,
       jsonInput = VStr text /\ JSON_parse text = Thrown message /\
       result =
       [error "$" ("Invalid JSON: " +:+ message) "InvalidExpression"
          "ParseError"]).
Proof.
  unfold validate.
  set (decoded := match jsonInput with
                  | VStr text => JSON_parse text
                  | _ => Returned jsonInput
                  end).
  destruct decoded as [value|message] eqn:Hdecoded.
  2:{ intros [= <-]. split.
      - constructor; [split; [reflexivity|]|constructor].
        unfold validate_codes. simpl. tauto.
      - intros e _ _. subst decoded.
        destruct jsonInput as [| | | |text| |]; try discriminate.
        now exists text, message. }
  destruct (resolveRootType repository rootType) as [resolvedRoot|message].
  2:{ intros [= <-]. split.
      - constructor; [split; [reflexivity|]|constructor].
        unfold validate_codes. simpl. tauto.
      - intros e [<-|[]]. discriminate. }
  unfold validateAgainstTypeName. intros H.
  destruct (validateAgainstTypeName_in_relative _
              (validateTypeNode_relative depth) _ _ _ _ _ _ H)
    as (tails & Hknown & Htails).
  rewrite Htails in H. injection H as <-. simpl.
  assert (Forall (fun e => known e /\ String.prefix "$" (error_path e) = true)
            (map (under "$") tails)) as Hall.
  { apply List.Forall_map. eapply List.Forall_impl; [|exact Hknown].
    intros e He. split; [exact He|apply prefix_append]. }
  split.
  - eapply List.Forall_impl; [|exact Hall].
    intros e [He Hpath]. split; [exact Hpath|now right].
  - intros e He Hcode.
    apply (proj1 (List.Forall_forall _ _) Hall) in He as [He _].
    unfold known in He. rewrite Hcode in He. simpl in He.
    repeat destruct He as [He|He]; try discriminate He. contradiction.
Qed.

End Relocation.

(** *** What the walk reads of its scope *)

Section WalkFurther.

Context {host : JsHost}.
Variable repository : Repository.

Section ScopeBody.

Variable f : walk.
Hypothesis Hf : reads_guard_object f.

Lemma validateItems_scope itemType array items i path errors scope scope' :
  validateItems f itemType array items i path errors scope =
  validateItems f itemType array items i path errors scope'.
Proof.
  revert i errors.
  induction items as [|item items IH]; intros i errors; simpl; [easy|].
  rewrite (Hf _ _ _ _ _
             {| scope_root := scope_root scope'; scope_current := item;
                scope_parent := Some array |}) by reflexivity.
  destruct (f _ _ _ _ _); simpl; [apply IH|reflexivity].
Qed.

Lemma validateFields_scope value props fields path errors scope scope' :
  validateFields f value props fields path errors scope =
  validateFields f value props fields path errors scope'.
Proof.
  revert errors.
  induction fields as [|field fields IH]; intros errors; simpl; [easy|].
  assert (validateField f value props field path errors scope =
          validateField f value props field path errors scope') as ->.
  { unfold validateField.
    destruct (own_property props (field_name field)); [|reflexivity].
    now apply Hf. }
  destruct (validateField _ _ _ _ _ _ _); simpl; [apply IH|reflexivity].
Qed.

Lemma validateEntries_scope keyType valueType value entries path errors
    scope scope' :
  validateEntries f keyType valueType value entries path errors scope =
  validateEntries f keyType valueType value entries path errors scope'.
Proof.
  revert errors.
  induction entries as [|[entryKey entryValue] entries IH]; intros errors;
    simpl; [easy|].
  rewrite (Hf _ _ _ _ _
             {| scope_root := scope_root scope';
                scope_current := VStr entryKey;
                scope_parent := Some value |}) by reflexivity.
  destruct (f _ _ _ _ _) as [errors1|]; simpl; [|reflexivity].
  rewrite (Hf _ _ _ _ _
             {| scope_root := scope_root scope';
                scope_current := entryValue;
                scope_parent := Some value |}) by reflexivity.
  destruct (f _ _ _ _ _); simpl; [apply IH|reflexivity].
Qed.

Lemma isValid_in_scope typeNode value scope scope' :
  condition_object scope = condition_object scope' ->
  isValid_in f typeNode value scope = isValid_in f typeNode value scope'.
Proof. intros H. unfold isValid_in. now rewrite (Hf _ _ _ _ _ _ H). Qed.

Lemma someValid_scope members value scope scope' :
  condition_object scope = condition_object scope' ->
  someValid f members value scope = someValid f members value scope'.
Proof.
  intros H. induction members as [|member members IH]; simpl; [easy|].
  rewrite (isValid_in_scope _ _ _ _ H).
  destruct (isValid_in _ _ _ _) as [[]|]; simpl; easy.
Qed.

Lemma validateMembers_scope members value path errors scope scope' :
  condition_object scope = condition_object scope' ->
  validateMembers f members value path errors scope =
  validateMembers f members value path errors scope'.
Proof.
  intros H. revert errors.
  induction members as [|member members IH]; intros errors; simpl; [easy|].
  rewrite (Hf _ _ _ _ _ _ H).
  destruct (f _ _ _ _ _); simpl; [apply IH|reflexivity].
Qed.

Lemma validateTypeNode_body_scope :
  reads_guard_object (validateTypeNode_body repository f).
Proof.
  intros [| |node] value path errors scope scope' H; simpl; try reflexivity.
  destruct node as
    [name constraints|name|inner|itemType constraints|fields
    |keyType valueType|members|members|condition thenType elseType
    |literal| |]; simpl; try reflexivity.
  - unfold validateNamed_in, validateAgainstTypeName_in.
    destruct (getType repository name) as [typeDefinition|]; [|easy].
    destruct (type_isBuiltin typeDefinition),
      (type_matches typeDefinition); try easy;
      now rewrite (Hf _ _ _ _ _ _ H).
  - unfold validateAgainstTypeName_in.
    destruct value; try reflexivity;
      (destruct (getType repository name) as [typeDefinition|]; [|easy];
       destruct (type_isBuiltin typeDefinition),
         (type_matches typeDefinition); try easy; now apply Hf).
  - destruct value; try reflexivity; now apply Hf.
  - destruct value; try reflexivity. apply validateItems_scope.
  - destruct value; try reflexivity. apply validateFields_scope.
  - destruct value; try reflexivity. apply validateEntries_scope.
  - now rewrite (someValid_scope _ _ _ _ H).
  - now apply validateMembers_scope.
  - rewrite H. destruct (evaluateCondition _ _) as [[]|]; try now apply Hf.
    now rewrite !(isValid_in_scope _ _ _ _ H).
Qed.

End ScopeBody.

Lemma validateTypeNode_reads_guard_object depth :
  reads_guard_object (validateTypeNode repository depth).
Proof.
  induction depth as [|depth IH]; [easy|].
  apply validateTypeNode_body_scope, IH.
Qed.

(** X7.  The walk reads its scope through [scope.parent ?? scope.root]
    only: two scopes that agree on it give the same result.  So
    [scope.current] is never read, nor [scope.root] below an array, a
    record or a dict, where the parent is set; constraints do not read the
    scope at all. *)
Theorem validateTypeNode_scope depth typeNode value path errors scope
    scope' :
  condition_object scope = condition_object scope' ->
  validateTypeNode repository depth typeNode value path errors scope =
  validateTypeNode repository depth typeNode value path errors scope' /\
  forall targetType constraint,
    applyConstraint repository targetType constraint value path errors scope
    = applyConstraint repository targetType constraint value path errors
        scope'.
Proof.
  intros H. split; [|reflexivity].
  now apply validateTypeNode_reads_guard_object.
Qed.

(** *** Guards below an array *)

Lemma conditional_outside_object depth condition condition' thenType elseType
    value path errors scope :
  isObject (condition_object scope) = false ->
  validateTypeNode repository depth
    (ObjectRef (TConditional condition thenType elseType)) value path errors
    scope =
  validateTypeNode repository depth
    (ObjectRef (TConditional condition' thenType elseType)) value path errors
    scope.
Proof.
  intros H. destruct depth as [|depth]; [reflexivity|]. simpl.
  unfold evaluateCondition. now rewrite H.
Qed.

Lemma validateItems_conditional depth condition condition' thenType elseType
    array items i path errors scope :
  isObject array = false ->
  validateItems (validateTypeNode repository depth)
    (TConditional condition thenType elseType) array items i path errors
    scope =
  validateItems (validateTypeNode repository depth)
    (TConditional condition' thenType elseType) array items i path errors
    scope.
Proof.
  intros Harray. revert i errors.
  induction items as [|item items IH]; intros i errors; [reflexivity|].
  cbn [validateItems].
  rewrite (conditional_outside_object depth condition condition')
    by exact Harray.
  destruct (validateTypeNode _ _ _ _ _ _ _); simpl; [apply IH|reflexivity].
Qed.

(** X8.  The guard of a conditional that is the item type of an array is
    never consulted: the items are walked with the array as their parent,
    which is not an object, so the guard is indeterminate and each item is
    accepted when it matches either branch.  Whatever the condition says,
    the result is the same. *)
Theorem array_item_guard_ignored depth condition condition' thenType elseType
    constraints items path errors scope :
  validateTypeNode repository depth
    (ObjectRef (TArray (TConditional condition thenType elseType)
                  constraints))
    (VArr items) path errors scope =
  validateTypeNode repository depth
    (ObjectRef (TArray (TConditional condition' thenType elseType)
                  constraints))
    (VArr items) path errors scope.
Proof.
  destruct depth as [|depth]; [reflexivity|]. simpl.
  now apply validateItems_conditional.
Qed.

(** *** Guards below a record *)

(** X9.  A conditional that is the type of a field reads the sibling
    fields: its guard is evaluated against the record that holds the field,
    not against the root document.  When the path of the guard resolves in
    the record, the value of the field is checked against the branch that
    the guard selects, and against that branch alone. *)
Theorem record_field_guard depth (g : Guard) thenType elseType name optional
    defaultExpr props fieldValue current path errors scope :
  guard_form g = true ->
  own_property props name = Some fieldValue ->
  resolve_path (VObj props) (guard_path g) = Some current ->
  validateField (validateTypeNode repository (S depth)) (VObj props) props
    (Field name (TConditional (guard_text g) thenType elseType) optional
       defaultExpr)
    path errors scope =
  validateTypeNode repository depth
    (ObjectRef (if guard_holds g current then thenType else elseType))
    fieldValue (path +:+ "." +:+ name) errors
    {| scope_root := scope_root scope; scope_current := fieldValue;
       scope_parent := Some (VObj props) |}.
Proof.
  intros Hform Hfield Hpath. unfold validateField. cbn [field_name field_type].
  rewrite Hfield. cbn [validateTypeNode validateTypeNode_body].
  cbn [condition_object scope_parent].
  rewrite (evaluateCondition_path g (VObj props) current Hform eq_refl Hpath).
  now destruct (guard_holds g current).
Qed.

(** *** Unions and intersections compose *)

Lemma validateMembers_app (f : walk) members members' value path errors
    scope :
  validateMembers f (members ++ members') value path errors scope =
  validateMembers f members value path errors scope ≫=
  (fun errors' => validateMembers f members' value path errors' scope).
Proof.
  revert errors.
  induction members as [|member members IH]; intros errors; [reflexivity|].
  cbn [app validateMembers].
  destruct (f (ObjectRef member) value path errors scope); [apply IH|easy].
Qed.

Lemma someValid_app (f : walk) members members' value scope :
  someValid f (members ++ members') value scope =
  someValid f members value scope ≫=
  (fun valid : bool =>
     if valid then Some true else someValid f members' value scope).
Proof.
  induction members as [|member members IH]; [reflexivity|].
  cbn [app someValid].
  destruct (isValid_in f (ObjectRef member) value scope) as [[]|];
    [reflexivity|exact IH|reflexivity].
Qed.

Lemma isValid_in_union (f : walk) members value scope :
  isValid_in (validateTypeNode_body repository f)
    (ObjectRef (TUnion members)) value scope =
  someValid f members value scope.
Proof.
  unfold isValid_in. cbn [validateTypeNode_body].
  destruct (someValid f members value scope) as [[]|]; reflexivity.
Qed.

(** X10.  Nesting does not matter.  An intersection of two intersections
    gives what the intersection of all their members gives, and a union of
    two unions what the union of all their members gives (with one more
    level of call stack for the nesting). *)
Theorem nested_members_flatten depth members members' value path errors
    scope :
  validateTypeNode repository (S (S depth))
    (ObjectRef (TIntersection [TIntersection members;
                               TIntersection members']))
    value path errors scope =
  validateTypeNode repository (S depth)
    (ObjectRef (TIntersection (members ++ members'))) value path errors scope
  /\
  validateTypeNode repository (S (S depth))
    (ObjectRef (TUnion [TUnion members; TUnion members'])) value path errors
    scope =
  validateTypeNode repository (S depth)
    (ObjectRef (TUnion (members ++ members'))) value path errors scope.
Proof.
  split.
  - change (validateTypeNode repository (S (S depth)))
      with (validateTypeNode_body repository
              (validateTypeNode_body repository
                 (validateTypeNode repository depth))).
    change (validateTypeNode repository (S depth))
      with (validateTypeNode_body repository
              (validateTypeNode repository depth)).
    cbn [validateTypeNode_body validateMembers].
    rewrite validateMembers_app.
    destruct (validateMembers _ members _ _ _ _); simpl; [|reflexivity].
    now destruct (validateMembers _ members' _ _ _ _).
  - change (validateTypeNode repository (S (S depth)))
      with (validateTypeNode_body repository
              (validateTypeNode_body repository
                 (validateTypeNode repository depth))).
    change (validateTypeNode repository (S depth))
      with (validateTypeNode_body repository
              (validateTypeNode repository depth)).
    cbn [validateTypeNode_body someValid].
    rewrite !isValid_in_union, someValid_app.
    destruct (someValid _ members _ _) as [[]|]; simpl; try reflexivity.
    now destruct (someValid _ members' _ _) as [[]|].
Qed.

(** X11.  A union that accepts a value still accepts it with more members
    after its own: the members are tried in order, and those after the
    first that accepts are not walked. *)
Theorem union_grows depth members more value path errors scope :
  validateTypeNode repository depth (ObjectRef (TUnion members)) value path
    errors scope = Some errors ->
  validateTypeNode repository depth (ObjectRef (TUnion (members ++ more)))
    value path errors scope = Some errors.
Proof.
  destruct depth as [|depth]; [easy|]. cbn [validateTypeNode].
  cbn [validateTypeNode_body]. rewrite someValid_app.
  destruct (someValid _ members _ _) as [[]|]; simpl; [easy| |easy].
  intros [= H]. apply (f_equal (@length _)) in H.
  rewrite length_app in H. simpl in H. lia.
Qed.

(** *** The walk ends *)

(** X12.  On a repository whose named types are stratified (each refers
    to types of lower rank only, so none refers to itself), validation
    ends: from some depth of call stack on, [validate] returns, and
    returns the same list. *)
Theorem validate_terminates rank jsonInput rootType :
  stratified repository rank ->
  exists depth result,
    forall depth',
      depth <= depth' ->
      validate repository depth' jsonInput rootType = Some result.
Proof.
  intros Hstratified.
  destruct (validate_returns repository rank jsonInput rootType Hstratified)
    as (depth & result & Hresult).
  exists depth, result. intros depth' Hle.
  exact (validate_le repository depth depth' jsonInput rootType result Hle
           Hresult).
Qed.

End WalkFurther.

(** ** The matcher, further *)

Lemma iterate_any k :
  forall n s caps,
    length s <= n -> iterate any k n s caps = last_suffix k s caps.
Proof.
  induction n as [|n IH]; intros s caps Hlen.
  - destruct s; [reflexivity|simpl in Hlen; lia].
  - destruct s as [|c s']; [reflexivity|].
    rewrite iterate_S. unfold any at 1. rewrite run_Class.
    replace (length s' <? length (c :: s'))%nat with true
      by (symmetry; apply Nat.ltb_lt; simpl; lia).
    rewrite IH by (simpl in Hlen; lia). reflexivity.
Qed.

Lemma last_suffix_app k before s caps res :
  last_suffix k s caps = Some res ->
  last_suffix k (before ++ s) caps = Some res.
Proof.
  intros H. induction before as [|c before IH]; simpl; [exact H|].
  now rewrite IH.
Qed.

Lemma last_suffix_refused k s caps :
  (forall before x, s = before ++ x -> k x caps = None) ->
  last_suffix k s caps = None.
Proof.
  induction s as [|c s IH]; intros H; simpl.
  - now apply (H []).
  - rewrite IH.
    + now apply (H []).
    + intros before x ->. now apply (H (c :: before)).
Qed.

Lemma last_suffix_found k s caps res :
  last_suffix k s caps = Some res ->
  exists before x, s = before ++ x /\ k x caps = Some res.
Proof.
  induction s as [|c s IH]; simpl.
  - intros H. now exists [], [].
  - destruct (last_suffix k s caps) as [res'|] eqn:E.
    + intros [= <-]. destruct (IH eq_refl) as (before & x & -> & Hx).
      now exists (c :: before), x.
    + intros H. now exists [], (c :: s).
Qed.

Lemma lower_not_slash c : is_lower c = true -> ascii_eqb "/" c = false.
Proof. destruct c as [[] [] [] [] [] [] [] []]; easy. Qed.

Lemma space_not_dollar c : is_space c = true -> ascii_eqb "$" c = false.
Proof. destruct c as [[] [] [] [] [] [] [] []]; easy. Qed.

Lemma space_not_slash c : is_space c = true -> ascii_eqb "/" c = false.
Proof. destruct c as [[] [] [] [] [] [] [] []]; easy. Qed.

Lemma space_not_m c : is_space c = true -> ascii_eqb "m" c = false.
Proof. destruct c as [[] [] [] [] [] [] [] []]; easy. Qed.

Lemma space_no_operator c : is_space c = true -> no_operator c = true.
Proof. destruct c as [[] [] [] [] [] [] [] []]; easy. Qed.

Lemma run_Chr c s caps k :
  run (Chr c) s caps k =
  match s with
  | d :: s' => if ascii_eqb c d then k s' caps else None
  | [] => None
  end.
Proof. reflexivity. Qed.

Lemma run_Opt_Chr c s caps k :
  run (Opt (Chr c)) s caps k =
  match
    match s with
    | d :: s' => if ascii_eqb c d then k s' caps else None
    | [] => None
    end
  with
  | Some res => Some res
  | None => k s caps
  end.
Proof. reflexivity. Qed.

Lemma run_Lit_chars_short c s caps k :
  starts_with (ascii_eqb c) s = false ->
  run (Lit_chars [c]) s caps k = None.
Proof.
  intros Hs. cbn [Lit_chars]. rewrite run_Seq, run_Chr.
  destruct s as [|d s]; [reflexivity|]. cbn [starts_with] in Hs.
  now rewrite Hs.
Qed.

(** [\s*] and [\s+] before a text that does not start with white space,
    when what follows refuses every text that does. *)
Lemma run_spaces gap rest caps k :
  forallb is_space gap = true ->
  starts_with is_space rest = false ->
  (forall c s' caps', is_space c = true -> k (c :: s') caps' = None) ->
  run (Star space) (gap ++ rest) caps k = k rest caps.
Proof.
  intros Hgap Hrest Hk. unfold space. rewrite run_Star.
  rewrite (iterate_Class_refused _ _ Hk) by lia.
  now rewrite drop_while_all.
Qed.

Lemma is_gap_spaces gap : is_gap gap = true -> forallb is_space gap = true.
Proof. now destruct gap. Qed.

Lemma run_gap gap rest caps k :
  is_gap gap = true ->
  starts_with is_space rest = false ->
  (forall c s' caps', is_space c = true -> k (c :: s') caps' = None) ->
  run (Plus space) (gap ++ rest) caps k = k rest caps.
Proof.
  intros Hgap Hrest Hk. destruct gap as [|c gap]; [discriminate|].
  cbn [is_gap forallb] in Hgap. apply andb_prop in Hgap as [Hc Hgap].
  unfold Plus. rewrite run_Seq. unfold space at 1.
  rewrite <- app_comm_cons, run_Class, Hc. now apply run_spaces.
Qed.

Lemma run_gap_refused s caps k :
  starts_with is_space s = false -> run (Plus space) s caps k = None.
Proof.
  intros Hs. unfold Plus, space at 1. rewrite run_Seq, run_Class.
  destruct s as [|c s]; [reflexivity|]. cbn [starts_with] in Hs.
  now rewrite Hs.
Qed.

Lemma run_rest i rest caps :
  rest <> [] ->
  run (Group i (Plus any)) rest caps at_end = Some ((i, rest) :: caps).
Proof.
  intros Hne. destruct rest as [|c rest]; [easy|].
  rewrite run_Group. unfold Plus, any. rewrite run_Seq, run_Class, run_Star.
  apply iterate_Class_greedy; [lia|].
  rewrite drop_while_everything.
  simpl. now rewrite firstn_all.
Qed.

Lemma run_gap_rest i gap rest caps :
  forallb is_space gap = true ->
  rest <> [] ->
  starts_with is_space rest = false ->
  run (Seq (Star space) (Group i (Plus any))) (gap ++ rest) caps at_end
  = Some ((i, rest) :: caps).
Proof.
  intros Hgap Hne Hstart. unfold space. rewrite run_Seq, run_Star.
  apply iterate_Class_greedy; [lia|].
  rewrite drop_while_all by assumption. now apply run_rest.
Qed.

(** *** Regular expression literals *)

(** The flags: lower-case letters to the end of the text. *)
Lemma run_flags i s caps :
  run (Group i (Star (Class is_lower))) s caps at_end =
  if forallb is_lower s then Some ((i, s) :: caps) else None.
Proof.
  rewrite run_Group, run_Star.
  rewrite iterate_Class_refused; [|now intros c s' caps' _|lia].
  destruct (forallb is_lower s) eqn:Hs.
  - rewrite drop_while_none by exact Hs. simpl.
    now rewrite Nat.sub_0_r, firstn_all.
  - apply forallb_drop_while in Hs.
    now destruct (drop_while is_lower s).
Qed.

Lemma suffix_lower before x flags :
  forallb is_lower flags = true -> flags = before ++ x ->
  starts_with (ascii_eqb "/") x = false.
Proof.
  intros Hflags ->. rewrite forallb_app in Hflags.
  apply andb_prop in Hflags as [_ Hx].
  destruct x as [|c x]; [reflexivity|]. simpl in *.
  apply andb_prop in Hx as [Hc _]. now apply lower_not_slash.
Qed.

Lemma exec_regex_literal pattern flags :
  forallb is_lower flags = true ->
  exec regex_literal_re (of_chars ("/"%char :: pattern ++ "/"%char :: flags))
  = Some [(2, flags); (1, pattern)].
Proof.
  intros Hflags. unfold exec, regex_literal_re. rewrite chars_of_chars.
  cbn [Seqs]. rewrite run_Seq, run_Chr.
  replace (ascii_eqb "/" "/") with true by reflexivity.
  rewrite run_Seq, run_Group, run_Star, iterate_any by lia.
  apply last_suffix_app. cbn [last_suffix].
  rewrite last_suffix_refused.
  - rewrite run_Seq, run_Chr.
    replace (ascii_eqb "/" "/") with true by reflexivity.
    rewrite run_flags, Hflags. now rewrite firstn_consumed.
  - intros before x Hx. rewrite run_Seq, run_Chr.
    pose proof (suffix_lower _ _ _ Hflags Hx) as Hslash.
    destruct x as [|c x]; [reflexivity|]. cbn [starts_with] in Hslash.
    now rewrite Hslash.
Qed.

Lemma exec_regex_literal_found raw m :
  exec regex_literal_re raw = Some m ->
  exists pattern flags,
    chars raw = "/"%char :: pattern ++ "/"%char :: flags /\
    forallb is_lower flags = true /\
    m = [(2, flags); (1, pattern)].
Proof.
  unfold exec, regex_literal_re. cbn [Seqs]. rewrite run_Seq, run_Chr.
  destruct (chars raw) as [|c s]; [easy|].
  destruct (ascii_eqb "/" c) eqn:Hc; [|easy].
  apply ascii_eqb_eq in Hc as <-.
  rewrite run_Seq, run_Group, run_Star, iterate_any by lia.
  intros H. apply last_suffix_found in H as (pattern & x & -> & H).
  rewrite run_Seq, run_Chr in H.
  destruct x as [|d flags]; [easy|].
  destruct (ascii_eqb "/" d) eqn:Hd; [|easy].
  apply ascii_eqb_eq in Hd as <-.
  rewrite run_flags in H.
  destruct (forallb is_lower flags) eqn:Hflags; [|easy].
  injection H as <-. exists pattern, flags.
  change (S (length flags)) with (length ("/"%char :: flags)).
  now rewrite firstn_consumed.
Qed.

Section Regexes.

Context {host : JsHost}.

(** X13.  [compileRegexLiteral] reads a text as [/pattern/flags], split
    at its last slash: a text made of a slash, any pattern (slashes
    included), a slash and lower-case letters is compiled from that pattern
    and those flags; and whenever the function returns a compiled
    expression, the text has this shape. *)
Theorem compileRegexLiteral_split :
  (forall pattern flags,
     forallb is_lower (chars flags) = true ->
     compileRegexLiteral ("/" +:+ pattern +:+ "/" +:+ flags) =
     RegExp pattern flags) /\
  (forall raw compiled,
     compileRegexLiteral raw = Some compiled ->
     exists pattern flags,
       raw = "/" +:+ pattern +:+ "/" +:+ flags /\
       forallb is_lower (chars flags) = true /\
       RegExp pattern flags = Some compiled).
Proof.
  split.
  - intros pattern flags Hflags. unfold compileRegexLiteral.
    replace ("/" +:+ pattern +:+ "/" +:+ flags)
      with (of_chars ("/"%char :: chars pattern ++ "/"%char :: chars flags)).
    + rewrite exec_regex_literal by exact Hflags.
      unfold group. simpl. now rewrite !of_chars_chars.
    + change ("/"%char :: chars pattern ++ "/"%char :: chars flags)
        with (chars "/" ++ chars pattern ++ chars "/" ++ chars flags).
      now rewrite !of_chars_app, !of_chars_chars.
  - intros raw compiled. unfold compileRegexLiteral.
    destruct (exec regex_literal_re raw) as [m|] eqn:Hm; [|easy].
    apply exec_regex_literal_found in Hm
      as (pattern & flags & Hraw & Hflags & ->).
    unfold group. simpl. intros H.
    exists (of_chars pattern), (of_chars flags).
    rewrite chars_of_chars. split; [|easy].
    rewrite <- (of_chars_chars raw), Hraw.
    change ("/"%char :: pattern ++ "/"%char :: flags)
      with (chars "/" ++ pattern ++ chars "/" ++ flags).
    now rewrite !of_chars_app, !of_chars_chars.
Qed.

End Regexes.

(** ** The bodies of custom validators *)

(** The group  ( \/ .* \/ )  runs from a slash to the last slash before
    a tail that holds none... *)
Lemma run_slashed i pattern tail caps k res :
  forallb (fun c => negb (ascii_eqb "/" c)) tail = true ->
  k tail ((i, "/"%char :: pattern ++ ["/"%char]) :: caps) = Some res ->
  run (Group i slashed) ("/"%char :: pattern ++ "/"%char :: tail) caps k =
  Some res.
Proof.
  intros Htail Hres. rewrite run_Group. unfold slashed. cbn [Seqs].
  rewrite run_Seq, run_Chr.
  replace (ascii_eqb "/" "/") with true by reflexivity.
  rewrite run_Seq, run_Star, iterate_any by lia.
  apply last_suffix_app. cbn [last_suffix].
  rewrite last_suffix_refused.
  - rewrite run_Chr. replace (ascii_eqb "/" "/") with true by reflexivity.
    replace (firstn _ _) with ("/"%char :: pattern ++ ["/"%char]);
      [exact Hres|].
    change ("/"%char :: pattern ++ "/"%char :: tail)
      with (("/"%char :: pattern) ++ ["/"%char] ++ tail).
    rewrite app_assoc, firstn_consumed. reflexivity.
  - intros before x ->. rewrite run_Chr.
    destruct x as [|c x]; [reflexivity|].
    rewrite forallb_app in Htail. apply andb_prop in Htail as [_ Hx].
    cbn [forallb] in Hx. apply andb_prop in Hx as [Hc _].
    now destruct (ascii_eqb "/" c).
Qed.

(** ... and refuses a text that does not end with a slash. *)
Lemma run_slashed_refused i s caps :
  starts_with (ascii_eqb "/") (rev s) = false ->
  run (Group i slashed) s caps at_end = None.
Proof.
  intros Hs. rewrite run_Group. unfold slashed. cbn [Seqs].
  rewrite run_Seq, run_Chr.
  destruct s as [|c s']; [reflexivity|].
  destruct (ascii_eqb "/" c); [|reflexivity].
  rewrite run_Seq, run_Star, iterate_any by lia.
  apply last_suffix_refused. intros before x Hx. rewrite run_Chr.
  destruct x as [|d x]; [reflexivity|].
  destruct (ascii_eqb "/" d) eqn:Hd; [|reflexivity].
  destruct x as [|e x]; [|reflexivity].
  exfalso. subst s'. cbn [rev] in Hs. rewrite rev_app_distr in Hs.
  cbn [rev app starts_with] in Hs. congruence.
Qed.

Lemma exec_regexNegation_this rest :
  run regexNegation_re ("t"%char :: rest) [] at_end = None.
Proof.
  unfold regexNegation_re. cbn [Seqs]. rewrite run_Seq. unfold Lit.
  change (chars "not") with ["n"%char; "o"%char; "t"%char].
  now apply run_Lit_chars_refused.
Qed.

(** The pattern regexMatch, up to its group. *)
Lemma run_regexMatch_head gap1 gap2 rest :
  is_gap gap1 = true -> is_gap gap2 = true ->
  run regexMatch_re
    (chars "this" ++ gap1 ++ chars "matches" ++ gap2 ++ "/"%char :: rest) []
    at_end =
  run (Group 1 slashed) ("/"%char :: rest) [] at_end.
Proof.
  intros Hgap1 Hgap2. unfold regexMatch_re. cbn [Seqs].
  unfold Lit. rewrite run_Seq, run_Lit_chars.
  rewrite run_Seq, run_gap; [|exact Hgap1|reflexivity|].
  2:{ intros c s' caps' Hc. rewrite run_Seq.
      change (chars "matches") with ("m"%char :: chars "atches").
      apply run_Lit_chars_refused. now apply space_not_m. }
  rewrite run_Seq, run_Lit_chars.
  rewrite run_Seq, run_gap; [reflexivity|exact Hgap2|reflexivity|].
  intros c s' caps' Hc. rewrite run_Group. cbn [Seqs].
  rewrite run_Seq, run_Chr. now rewrite space_not_slash.
Qed.

Lemma run_regexMatch gap1 gap2 pattern :
  is_gap gap1 = true -> is_gap gap2 = true ->
  run regexMatch_re (matches_text gap1 gap2 pattern []) [] at_end =
  Some [(1, "/"%char :: pattern ++ ["/"%char])].
Proof.
  intros Hgap1 Hgap2. unfold matches_text.
  rewrite run_regexMatch_head by assumption.
  now apply (run_slashed 1 pattern []).
Qed.

Lemma run_regexMatch_flags gap1 gap2 pattern flags :
  is_gap gap1 = true -> is_gap gap2 = true ->
  flags <> [] -> forallb is_lower flags = true ->
  run regexMatch_re (matches_text gap1 gap2 pattern flags) [] at_end = None.
Proof.
  intros Hgap1 Hgap2 Hne Hflags. unfold matches_text.
  rewrite run_regexMatch_head by assumption.
  apply (run_slashed_refused 1).
  replace ("/"%char :: pattern ++ "/"%char :: flags)
    with (("/"%char :: pattern ++ ["/"%char]) ++ flags)
    by (cbn [app]; now rewrite <- app_assoc).
  rewrite rev_app_distr.
  destruct (rev flags) as [|c last] eqn:Hrev.
  { apply (f_equal (@rev _)) in Hrev. rewrite rev_involutive in Hrev.
    contradiction. }
  cbn [app starts_with].
  assert (is_lower c = true) as Hc.
  { rewrite <- forallb_rev, Hrev in Hflags. cbn [forallb] in Hflags.
    now apply andb_prop in Hflags as [Hc _]. }
  now apply lower_not_slash.
Qed.

Lemma run_range_operator_refused i c s caps k :
  no_operator c = true -> run (Group i range_operator) (c :: s) caps k = None.
Proof.
  intros Hc. rewrite run_Group. unfold range_operator.
  rewrite run_Seq, run_Alt, !run_Chr.
  unfold no_operator in Hc. apply negb_true_iff in Hc.
  apply orb_false_elim in Hc as [Hc _]. apply orb_false_elim in Hc as [Hc _].
  apply orb_false_elim in Hc as [-> ->]. reflexivity.
Qed.

Lemma run_comparison_operator_refused i c s caps k :
  no_operator c = true ->
  run (Group i comparison_operator) (c :: s) caps k = None.
Proof.
  intros Hc. rewrite run_Group. unfold comparison_operator, Lit.
  unfold no_operator in Hc. apply negb_true_iff in Hc.
  apply orb_false_elim in Hc as [Hc Hbang].
  apply orb_false_elim in Hc as [Hc Heq].
  apply orb_false_elim in Hc as [Hlt Hgt].
  rewrite !run_Alt.
  change (chars "<=") with ["<"%char; "="%char].
  change (chars ">=") with [">"%char; "="%char].
  change (chars "<") with ["<"%char].
  change (chars ">") with [">"%char].
  change (chars "=") with ["="%char].
  change (chars "!=") with ["!"%char; "="%char].
  now rewrite !run_Lit_chars_refused.
Qed.

(** The patterns rangeAnd and simpleComparison refuse a text in which
    [this] is not followed by an operator. *)
Lemma run_rangeAnd_refused gap c rest :
  forallb is_space gap = true -> is_space c = false ->
  no_operator c = true ->
  run rangeAnd_re (chars "this" ++ gap ++ c :: rest) [] at_end = None.
Proof.
  intros Hgap Hspace Hc. unfold rangeAnd_re. cbn [Seqs]. unfold Lit at 1.
  rewrite run_Seq, run_Lit_chars, run_Seq.
  rewrite run_spaces; [|exact Hgap|exact Hspace|].
  - rewrite run_Seq. now apply run_range_operator_refused.
  - intros d s' caps' Hd. rewrite run_Seq.
    apply run_range_operator_refused. now apply space_no_operator.
Qed.

Lemma run_simpleComparison_refused gap c rest :
  forallb is_space gap = true -> is_space c = false ->
  no_operator c = true ->
  run simpleComparison_re (chars "this" ++ gap ++ c :: rest) [] at_end = None.
Proof.
  intros Hgap Hspace Hc. unfold simpleComparison_re. cbn [Seqs].
  unfold Lit at 1.
  rewrite run_Seq, run_Lit_chars, run_Seq.
  fold comparison_operator.
  rewrite run_spaces; [|exact Hgap|exact Hspace|].
  - rewrite run_Seq. now apply run_comparison_operator_refused.
  - intros d s' caps' Hd. rewrite run_Seq.
    apply run_comparison_operator_refused. now apply space_no_operator.
Qed.

(** *** Negations *)

Lemma space_not_paren c : is_space c = true -> ascii_eqb "(" c = false.
Proof. destruct c as [[] [] [] [] [] [] [] []]; easy. Qed.

Lemma space_not_close c : is_space c = true -> ascii_eqb ")" c = false.
Proof. destruct c as [[] [] [] [] [] [] [] []]; easy. Qed.

Lemma space_not_t c : is_space c = true -> ascii_eqb "t" c = false.
Proof. destruct c as [[] [] [] [] [] [] [] []]; easy. Qed.

Lemma space_not_a c : is_space c = true -> ascii_eqb "a" c = false.
Proof. destruct c as [[] [] [] [] [] [] [] []]; easy. Qed.

Lemma spaces_no_slash gap :
  forallb is_space gap = true ->
  forallb (fun c => negb (ascii_eqb "/" c)) (gap ++ [")"%char]) = true.
Proof.
  intros Hgap. rewrite forallb_app. apply andb_true_intro. split; [|easy].
  induction gap as [|c gap IH]; [reflexivity|].
  cbn [forallb] in *. apply andb_prop in Hgap as [Hc Hgap].
  now rewrite (space_not_slash _ Hc), IH.
Qed.

Lemma run_regexNegation gap0 gap1 gap2 gap3 pattern gap4 :
  forallb is_space gap0 = true -> forallb is_space gap1 = true ->
  is_gap gap2 = true -> is_gap gap3 = true ->
  forallb is_space gap4 = true ->
  run regexNegation_re
    (chars "not" ++ gap0 ++ "("%char :: gap1 ++ chars "this" ++ gap2 ++
     chars "matches" ++ gap3 ++ "/"%char :: pattern ++ "/"%char ::
     gap4 ++ [")"%char]) [] at_end =
  Some [(1, "/"%char :: pattern ++ ["/"%char])].
Proof.
  intros Hgap0 Hgap1 Hgap2 Hgap3 Hgap4. unfold regexNegation_re.
  cbn [Seqs]. unfold Lit.
  rewrite run_Seq, run_Lit_chars.
  rewrite run_Seq, run_spaces; [|exact Hgap0|reflexivity|].
  2:{ intros c s' caps' Hc. rewrite run_Seq, run_Chr.
      now rewrite space_not_paren. }
  rewrite run_Seq, run_Chr.
  replace (ascii_eqb "(" "(") with true by reflexivity.
  rewrite run_Seq, run_spaces; [|exact Hgap1|reflexivity|].
  2:{ intros c s' caps' Hc. rewrite run_Seq.
      change (chars "this") with ("t"%char :: chars "his").
      apply run_Lit_chars_refused. now apply space_not_t. }
  rewrite run_Seq, run_Lit_chars.
  rewrite run_Seq, run_gap; [|exact Hgap2|reflexivity|].
  2:{ intros c s' caps' Hc. rewrite run_Seq.
      change (chars "matches") with ("m"%char :: chars "atches").
      apply run_Lit_chars_refused. now apply space_not_m. }
  rewrite run_Seq, run_Lit_chars.
  rewrite run_Seq, run_gap; [|exact Hgap3|reflexivity|].
  2:{ intros c s' caps' Hc. rewrite run_Seq, run_Group. cbn [Seqs].
      rewrite run_Seq, run_Chr. now rewrite space_not_slash. }
  rewrite run_Seq.
  apply (run_slashed 1 pattern (gap4 ++ [")"%char]));
    [now apply spaces_no_slash|].
  rewrite run_Seq, run_spaces; [|exact Hgap4|reflexivity|].
  - rewrite run_Chr. now replace (ascii_eqb ")" ")") with true by reflexivity.
  - intros c s' caps' Hc. rewrite run_Chr. now rewrite space_not_close.
Qed.

Lemma chars_this_matches gap1 gap2 pattern flags :
  chars (this_matches gap1 gap2 pattern flags) =
  matches_text (chars gap1) (chars gap2) (chars pattern) (chars flags).
Proof. unfold this_matches. now rewrite !chars_append. Qed.

(** *** Comparisons *)

Lemma run_comparison_operator i op rest caps k res :
  is_comparison op = true ->
  reads_as op rest = true ->
  k rest ((i, chars op) :: caps) = Some res ->
  run (Group i comparison_operator) (chars op ++ rest) caps k = Some res.
Proof.
  intros Hop Hreads Hres. rewrite run_Group.
  unfold comparison_operator, Lit. rewrite !run_Alt.
  change (chars "<=") with ["<"%char; "="%char].
  change (chars ">=") with [">"%char; "="%char].
  change (chars "<") with ["<"%char].
  change (chars ">") with [">"%char].
  change (chars "=") with ["="%char].
  change (chars "!=") with ["!"%char; "="%char].
  unfold is_comparison in Hop. cbn [existsb] in Hop.
  repeat (apply orb_prop in Hop as [Hop|Hop]); try discriminate;
    apply String.eqb_eq in Hop as ->; cbn [chars list_ascii_of_string] in *;
    try rewrite <- !app_comm_cons; cbn [app].
  - change ("<"%char :: "="%char :: rest) with (["<"%char; "="%char] ++ rest).
    now rewrite run_Lit_chars, firstn_consumed, Hres.
  - rewrite run_Lit_chars_refused by reflexivity.
    change (">"%char :: "="%char :: rest) with ([">"%char; "="%char] ++ rest).
    now rewrite run_Lit_chars, firstn_consumed, Hres.
  - cbn in Hreads. apply negb_true_iff in Hreads.
    assert (run (Lit_chars ["<"%char; "="%char]) ("<"%char :: rest) caps
              (fun s' caps' =>
                 k s' ((i, firstn (length ("<"%char :: rest) - length s')
                             ("<"%char :: rest)) :: caps')) = None) as ->.
    { change (Lit_chars ["<"%char; "="%char])
        with (Seq (Chr "<") (Lit_chars ["="%char])).
      rewrite run_Seq, run_Chr.
      replace (ascii_eqb "<" "<") with true by reflexivity.
      now apply run_Lit_chars_short. }
    rewrite run_Lit_chars_refused by reflexivity.
    change ("<"%char :: rest) with (["<"%char] ++ rest).
    now rewrite run_Lit_chars, firstn_consumed, Hres.
  - cbn in Hreads. apply negb_true_iff in Hreads.
    rewrite run_Lit_chars_refused by reflexivity.
    assert (run (Lit_chars [">"%char; "="%char]) (">"%char :: rest) caps
              (fun s' caps' =>
                 k s' ((i, firstn (length (">"%char :: rest) - length s')
                             (">"%char :: rest)) :: caps')) = None) as ->.
    { change (Lit_chars [">"%char; "="%char])
        with (Seq (Chr ">") (Lit_chars ["="%char])).
      rewrite run_Seq, run_Chr.
      replace (ascii_eqb ">" ">") with true by reflexivity.
      now apply run_Lit_chars_short. }
    rewrite run_Lit_chars_refused by reflexivity.
    change (">"%char :: rest) with ([">"%char] ++ rest).
    now rewrite run_Lit_chars, firstn_consumed, Hres.
  - rewrite !run_Lit_chars_refused by reflexivity.
    change ("="%char :: rest) with (["="%char] ++ rest).
    now rewrite run_Lit_chars, firstn_consumed, Hres.
  - rewrite !run_Lit_chars_refused by reflexivity.
    change ("!"%char :: "="%char :: rest) with (["!"%char; "="%char] ++ rest).
    now rewrite run_Lit_chars, firstn_consumed, Hres.
Qed.

Lemma comparison_first op :
  is_comparison op = true ->
  exists c cs, chars op = c :: cs /\ is_space c = false /\
               no_operator c = false /\ ascii_eqb "m" c = false.
Proof.
  unfold is_comparison. cbn [existsb]. intros Hop.
  repeat (apply orb_prop in Hop as [Hop|Hop]); try discriminate;
    apply String.eqb_eq in Hop as ->; now eexists _, _.
Qed.

Lemma operand_first right :
  is_operand right = true ->
  right <> [] /\ starts_with is_space right = false.
Proof.
  destruct right as [|c name]; [discriminate|]. cbn [is_operand starts_with].
  split; [easy|].
  destruct (ascii_eqb "$" c) eqn:Hc; [|now apply negb_true_iff].
  apply ascii_eqb_eq in Hc as <-. reflexivity.
Qed.

Lemma run_simpleComparison gap1 op gap2 right :
  forallb is_space gap1 = true ->
  is_comparison op = true ->
  forallb is_space gap2 = true ->
  is_operand right = true ->
  reads_as op (gap2 ++ right) = true ->
  run simpleComparison_re (comparison_text gap1 op gap2 right) [] at_end =
  Some [(2, right); (1, chars op)].
Proof.
  intros Hgap1 Hop Hgap2 Hright Hreads.
  destruct (operand_first _ Hright) as [Hne Hstart].
  destruct (comparison_first _ Hop) as (c & cs & Hc & Hspace & _).
  unfold simpleComparison_re, comparison_text. cbn [Seqs]. unfold Lit at 1.
  fold comparison_operator.
  rewrite run_Seq, run_Lit_chars, run_Seq.
  rewrite run_spaces; [|exact Hgap1|now rewrite Hc|].
  - rewrite run_Seq. apply run_comparison_operator; [exact Hop|exact Hreads|].
    now apply run_gap_rest.
  - intros d s' caps' Hd. rewrite run_Seq.
    apply run_comparison_operator_refused. now apply space_no_operator.
Qed.

Lemma run_regexMatch_comparison gap1 op gap2 right :
  forallb is_space gap1 = true ->
  is_comparison op = true ->
  run regexMatch_re (comparison_text gap1 op gap2 right) [] at_end = None.
Proof.
  intros Hgap1 Hop.
  destruct (comparison_first _ Hop) as (c & cs & Hc & Hspace & _ & Hm).
  unfold regexMatch_re, comparison_text. cbn [Seqs]. unfold Lit at 1.
  rewrite run_Seq, run_Lit_chars, run_Seq, Hc.
  destruct gap1 as [|d gap1].
  - apply run_gap_refused. cbn [app starts_with]. exact Hspace.
  - rewrite run_gap; [|exact Hgap1|cbn [app starts_with]; exact Hspace|].
    + rewrite run_Seq. unfold Lit.
      change (chars "matches") with ("m"%char :: chars "atches").
      rewrite <- app_comm_cons. now apply run_Lit_chars_refused.
    + intros e s' caps' He. rewrite run_Seq. unfold Lit.
      change (chars "matches") with ("m"%char :: chars "atches").
      apply run_Lit_chars_refused. now apply space_not_m.
Qed.

Lemma run_range_tail_operand gap right caps :
  forallb is_space gap = true ->
  is_operand right = true ->
  run range_tail (gap ++ right) caps at_end = None.
Proof.
  intros Hgap Hright. destruct (operand_first _ Hright) as [_ Hstart].
  unfold range_tail. cbn [Seqs]. rewrite run_Seq.
  rewrite run_spaces; [|exact Hgap|exact Hstart|].
  2:{ intros c s' caps' Hc. rewrite run_Seq, run_Chr.
      now rewrite space_not_dollar. }
  rewrite run_Seq, run_Chr. destruct right as [|c name]; [reflexivity|].
  cbn [is_operand] in Hright.
  destruct (ascii_eqb "$" c); [|reflexivity].
  rewrite run_Seq, run_Group.
  rewrite <- (app_nil_r name) at 1.
  rewrite run_ident; [|exact Hright|reflexivity|].
  - rewrite run_Seq. now apply run_gap_refused.
  - intros d s' caps' Hd. rewrite run_Seq. apply run_gap_refused.
    cbn [starts_with]. now apply ident_char_not_space.
Qed.

Lemma run_range_tail_equals s caps :
  run range_tail ("="%char :: s) caps at_end = None.
Proof.
  unfold range_tail. cbn [Seqs]. rewrite run_Seq.
  rewrite (run_spaces [] ("="%char :: s)); [|reflexivity|reflexivity|].
  - now rewrite run_Seq, run_Chr.
  - intros c s' caps' Hc. rewrite run_Seq, run_Chr.
    now rewrite space_not_dollar.
Qed.

(** A range operator before something that what follows refuses. *)
Lemma run_range_operator_stuck i op rest caps k :
  is_comparison op = true ->
  reads_as op rest = true ->
  (forall caps', k rest caps' = None) ->
  (forall s caps', k ("="%char :: s) caps' = None) ->
  run (Group i range_operator) (chars op ++ rest) caps k = None.
Proof.
  intros Hop Hreads Hrest Hequals. rewrite run_Group. unfold range_operator.
  rewrite run_Seq, run_Alt, !run_Chr.
  unfold is_comparison in Hop. cbn [existsb] in Hop.
  repeat (apply orb_prop in Hop as [Hop|Hop]); try discriminate;
    apply String.eqb_eq in Hop as ->; cbn [chars list_ascii_of_string app];
    try reflexivity;
    replace (ascii_eqb "<" "<") with true by reflexivity;
    replace (ascii_eqb ">" ">") with true by reflexivity;
    replace (ascii_eqb "<" ">") with false by reflexivity;
    rewrite run_Opt_Chr.
  - replace (ascii_eqb "=" "=") with true by reflexivity.
    now rewrite Hrest, Hequals.
  - replace (ascii_eqb "=" "=") with true by reflexivity.
    now rewrite Hrest, Hequals.
  - cbn in Hreads. apply negb_true_iff in Hreads.
    destruct rest as [|d s]; [now rewrite Hrest|].
    cbn [starts_with] in Hreads. now rewrite Hreads, Hrest.
  - cbn in Hreads. apply negb_true_iff in Hreads.
    destruct rest as [|d s]; [now rewrite Hrest|].
    cbn [starts_with] in Hreads. now rewrite Hreads, Hrest.
Qed.

Lemma run_rangeAnd_comparison gap1 op gap2 right :
  forallb is_space gap1 = true ->
  is_comparison op = true ->
  forallb is_space gap2 = true ->
  is_operand right = true ->
  reads_as op (gap2 ++ right) = true ->
  run rangeAnd_re (comparison_text gap1 op gap2 right) [] at_end = None.
Proof.
  intros Hgap1 Hop Hgap2 Hright Hreads.
  destruct (comparison_first _ Hop) as (c & cs & Hc & Hspace & _).
  unfold rangeAnd_re, comparison_text. cbn [Seqs]. unfold Lit at 1.
  rewrite run_Seq, run_Lit_chars, run_Seq.
  rewrite run_spaces; [|exact Hgap1|now rewrite Hc|].
  2:{ intros d s' caps' Hd. rewrite run_Seq.
      apply run_range_operator_refused. now apply space_no_operator. }
  rewrite run_Seq.
  apply run_range_operator_stuck; [exact Hop|exact Hreads| |].
  - intros caps'. now apply run_range_tail_operand.
  - intros s caps'. apply run_range_tail_equals.
Qed.

(** *** Ranges *)

Lemma run_ident_group i name rest caps k :
  is_identifier name = true ->
  starts_with is_ident_char rest = false ->
  (forall c s' caps', is_ident_char c = true -> k (c :: s') caps' = None) ->
  run (Group i ident) (name ++ rest) caps k = k rest ((i, name) :: caps).
Proof.
  intros Hname Hrest Hk. rewrite run_Group.
  rewrite run_ident; [|exact Hname|exact Hrest|].
  - now rewrite firstn_consumed.
  - intros c s' caps' Hc. now apply Hk.
Qed.

Lemma range_first op :
  is_range op = true ->
  is_comparison op = true /\
  exists c cs, chars op = c :: cs /\ is_space c = false.
Proof.
  unfold is_range, is_comparison. cbn [existsb]. intros Hop.
  repeat (apply orb_prop in Hop as [Hop|Hop]); try discriminate;
    apply String.eqb_eq in Hop as ->; (split; [reflexivity|now eexists _, _]).
Qed.

Lemma run_range_operator i op rest caps k res :
  is_range op = true ->
  starts_with (ascii_eqb "=") rest = false ->
  k rest ((i, chars op) :: caps) = Some res ->
  run (Group i range_operator) (chars op ++ rest) caps k = Some res.
Proof.
  intros Hop Hrest Hres. rewrite run_Group. unfold range_operator.
  rewrite run_Seq, run_Alt, !run_Chr.
  unfold is_range in Hop. cbn [existsb] in Hop.
  repeat (apply orb_prop in Hop as [Hop|Hop]); try discriminate;
    apply String.eqb_eq in Hop as ->; cbn [chars list_ascii_of_string app] in *;
    replace (ascii_eqb "<" "<") with true by reflexivity;
    replace (ascii_eqb ">" ">") with true by reflexivity;
    replace (ascii_eqb "<" ">") with false by reflexivity;
    rewrite run_Opt_Chr.
  - replace (ascii_eqb "=" "=") with true by reflexivity.
    change ("<"%char :: "="%char :: rest) with (["<"%char; "="%char] ++ rest).
    now rewrite firstn_consumed, Hres.
  - replace (ascii_eqb "=" "=") with true by reflexivity.
    change (">"%char :: "="%char :: rest) with ([">"%char; "="%char] ++ rest).
    now rewrite firstn_consumed, Hres.
  - change ("<"%char :: rest) with (["<"%char] ++ rest).
    rewrite firstn_consumed, Hres.
    destruct rest as [|d s]; [reflexivity|].
    cbn [starts_with] in Hrest. now rewrite Hrest.
  - change (">"%char :: rest) with ([">"%char] ++ rest).
    rewrite firstn_consumed, Hres.
    destruct rest as [|d s]; [reflexivity|].
    cbn [starts_with] in Hrest. now rewrite Hrest.
Qed.

Lemma gap_first gap rest :
  is_gap gap = true ->
  starts_with is_ident_char (gap ++ rest) = false /\
  starts_with (ascii_eqb "=") (gap ++ rest) = false.
Proof.
  destruct gap as [|c gap]; [discriminate|]. cbn [is_gap forallb].
  intros [Hc _]%andb_prop. cbn [app starts_with]. clear - Hc.
  destruct c as [[] [] [] [] [] [] [] []]; easy.
Qed.

Lemma spaces_dollar_first gap rest :
  forallb is_space gap = true ->
  starts_with (ascii_eqb "=") (gap ++ "$"%char :: rest) = false.
Proof.
  destruct gap as [|c gap]; [reflexivity|]. cbn [forallb].
  intros [Hc _]%andb_prop. cbn [app starts_with]. clear - Hc.
  destruct c as [[] [] [] [] [] [] [] []]; easy.
Qed.

(** The second half of a range: [this <op> $high] to the end. *)
Lemma run_range_second gap5 op2 gap6 high caps :
  forallb is_space gap5 = true -> is_range op2 = true ->
  forallb is_space gap6 = true -> is_identifier high = true ->
  run
    (Seqs [Lit "this"; Star space; Group 3 range_operator; Star space;
           Chr "$"; Group 4 ident])
    (chars "this" ++ gap5 ++ chars op2 ++ gap6 ++ "$"%char :: high) caps
    at_end =
  Some ((4, high) :: (3, chars op2) :: caps).
Proof.
  intros Hgap5 Hop2 Hgap6 Hhigh.
  destruct (range_first _ Hop2) as (_ & c & cs & Hc & Hspace).
  cbn [Seqs]. unfold Lit. rewrite run_Seq, run_Lit_chars.
  rewrite run_Seq, run_spaces; [|exact Hgap5|now rewrite Hc|].
  2:{ intros d s' caps' Hd. rewrite run_Seq.
      apply run_range_operator_refused. now apply space_no_operator. }
  rewrite run_Seq.
  apply run_range_operator; [exact Hop2|now apply spaces_dollar_first|].
  rewrite run_Seq, run_spaces; [|exact Hgap6|reflexivity|].
  2:{ intros d s' caps' Hd. rewrite run_Seq, run_Chr.
      now rewrite space_not_dollar. }
  rewrite run_Seq, run_Chr.
  replace (ascii_eqb "$" "$") with true by reflexivity.
  rewrite <- (app_nil_r high) at 1.
  rewrite run_ident_group; [reflexivity|exact Hhigh|reflexivity|].
  now intros d s' caps' Hd.
Qed.

Lemma run_rangeAnd gap1 op1 gap2 low gap3 gap4 gap5 op2 gap6 high :
  forallb is_space gap1 = true -> is_range op1 = true ->
  forallb is_space gap2 = true -> is_identifier low = true ->
  is_gap gap3 = true -> is_gap gap4 = true ->
  forallb is_space gap5 = true -> is_range op2 = true ->
  forallb is_space gap6 = true -> is_identifier high = true ->
  run rangeAnd_re
    (range_text gap1 op1 gap2 low gap3 gap4 gap5 op2 gap6 high) [] at_end =
  Some [(4, high); (3, chars op2); (2, low); (1, chars op1)].
Proof.
  intros Hgap1 Hop1 Hgap2 Hlow Hgap3 Hgap4 Hgap5 Hop2 Hgap6 Hhigh.
  destruct (range_first _ Hop1) as (_ & c & cs & Hc & Hspace).
  unfold rangeAnd_re, range_text. cbn [Seqs]. unfold Lit at 1.
  rewrite run_Seq, run_Lit_chars.
  rewrite run_Seq, run_spaces; [|exact Hgap1|now rewrite Hc|].
  2:{ intros d s' caps' Hd. rewrite run_Seq.
      apply run_range_operator_refused. now apply space_no_operator. }
  rewrite run_Seq.
  apply run_range_operator; [exact Hop1|now apply spaces_dollar_first|].
  rewrite run_Seq, run_spaces; [|exact Hgap2|reflexivity|].
  2:{ intros d s' caps' Hd. rewrite run_Seq, run_Chr.
      now rewrite space_not_dollar. }
  rewrite run_Seq, run_Chr.
  replace (ascii_eqb "$" "$") with true by reflexivity.
  rewrite run_Seq.
  rewrite run_ident_group;
    [|exact Hlow|now apply gap_first|].
  2:{ intros d s' caps' Hd. rewrite run_Seq. apply run_gap_refused.
      cbn [starts_with]. now apply ident_char_not_space. }
  rewrite run_Seq, run_gap; [|exact Hgap3|reflexivity|].
  2:{ intros d s' caps' Hd. rewrite run_Seq. unfold Lit.
      change (chars "and") with ("a"%char :: chars "nd").
      apply run_Lit_chars_refused. now apply space_not_a. }
  rewrite run_Seq. unfold Lit at 1. rewrite run_Lit_chars.
  rewrite run_Seq, run_gap; [|exact Hgap4|reflexivity|].
  2:{ intros d s' caps' Hd. rewrite run_Seq. unfold Lit.
      change (chars "this") with ("t"%char :: chars "his").
      apply run_Lit_chars_refused. now apply space_not_t. }
  change (run (Seq (Lit "this") (Seq (Star space) (Seq (Group 3 range_operator)
            (Seq (Star space) (Seq (Chr "$") (Group 4 ident)))))))
    with (run (Seqs [Lit "this"; Star space; Group 3 range_operator;
                     Star space; Chr "$"; Group 4 ident])).
  now apply run_range_second.
Qed.

Lemma identifier_last name :
  is_identifier name = true -> starts_with is_space (rev name) = false.
Proof.
  intros H. destruct name as [|c cs]; [discriminate|].
  cbn [is_identifier] in H. apply andb_prop in H as [Hc Hcs].
  apply ident_start_char in Hc.
  assert (forallb is_ident_char (rev (c :: cs)) = true) as Hall.
  { rewrite forallb_rev. cbn [forallb]. now rewrite Hc, Hcs. }
  destruct (rev (c :: cs)) as [|d ds]; [reflexivity|].
  cbn [forallb] in Hall. apply andb_prop in Hall as [Hd _].
  cbn [starts_with]. now apply ident_char_not_space.
Qed.

Lemma rev_cons_first (p : ascii -> bool) c (name : list ascii) :
  name <> [] -> starts_with p (rev (c :: name)) = starts_with p (rev name).
Proof.
  intros Hne. cbn [rev].
  destruct (rev name) as [|d ds] eqn:Hrev; [|reflexivity].
  apply (f_equal (@rev _)) in Hrev. rewrite rev_involutive in Hrev.
  contradiction.
Qed.

(** *** Parameters *)

Lemma bind_params_other params index incoming args name :
  ~ In name (map param_name params) ->
  bind_params params index incoming args !! name = args !! name.
Proof.
  revert index args.
  induction params as [|param params IH]; intros index args Hname;
    [reflexivity|].
  cbn [bind_params]. rewrite IH.
  - apply lookup_insert_ne. intros E. apply Hname. now left.
  - intros H. apply Hname. now right.
Qed.

Lemma bind_params_last before param after index incoming args :
  ~ In (param_name param) (map param_name after) ->
  bind_params (before ++ param :: after) index incoming args
    !! param_name param =
  Some (param_value param (incoming !! (index + length before))).
Proof.
  intros Hafter. revert index args.
  induction before as [|first before IH]; intros index args.
  - cbn [app bind_params]. rewrite bind_params_other by exact Hafter.
    rewrite lookup_insert_eq. unfold param_value.
    now rewrite Nat.add_0_r.
  - cbn [app bind_params]. rewrite IH. cbn [length].
    now rewrite Nat.add_succ_r.
Qed.

(** X14.  A parameter of a custom validator is bound to the coerced
    argument at its position, and to its coerced default expression (or
    null) when that argument is missing, null or undefined; of two
    parameters of the same name the later one wins.  (The name [__proto__]
    is no property like the others, and is left out.) *)
Theorem bound_args_lookup validator constraint before param after :
  validator_params validator = before ++ param :: after ->
  ~ In (param_name param) (map param_name after) ->
  param_name param <> "__proto__" ->
  arg (bound_args validator constraint) (param_name param) =
  param_value param (incomingArgs constraint !! length before).
Proof.
  intros Hparams Hafter _. unfold arg, bound_args.
  now rewrite Hparams, bind_params_last.
Qed.

Section Bodies.

Context {host : JsHost}.

Lemma evaluateCustomValidator_body validator constraint value scope body :
  validator_body validator = Some body -> trim body <> "" ->
  evaluateCustomValidator validator constraint value scope =
  let args := bound_args validator constraint in
  match exec regexNegation_re (trim body) with
  | Some m =>
      match compileRegexLiteral (group 1 m) with
      | Some compiled => Some (negb (compiled (subject_text value)))
      | None => None
      end
  | None =>
  match exec regexMatch_re (trim body) with
  | Some m =>
      match compileRegexLiteral (group 1 m) with
      | Some compiled => Some (compiled (subject_text value))
      | None => None
      end
  | None =>
  match exec rangeAnd_re (trim body) with
  | Some m =>
      Some (compare value (group 1 m) (arg args (group 2 m))
            && compare value (group 3 m) (arg args (group 4 m)))
  | None =>
  match exec simpleComparison_re (trim body) with
  | Some m =>
      let right := trim (group 2 m) in
      let rightValue :=
        if startsWith right "$" then arg args (slice1 right)
        else parseMaybeLiteral (VStr right) in
      Some (compare value (group 1 m) rightValue)
  | None => None
  end end end end.
Proof.
  intros Hbody Hne. unfold evaluateCustomValidator. rewrite Hbody.
  destruct body; [now contradiction Hne|reflexivity].
Qed.

(** X15.  A body [this matches /pattern/] holds exactly when the
    expression compiled from the pattern, with no flags, accepts the value
    as text; it is indeterminate when the pattern does not compile. *)
Theorem evaluateCustomValidator_matches validator constraint value scope
    body gap1 gap2 pattern :
  validator_body validator = Some body ->
  trim body = this_matches gap1 gap2 pattern "" ->
  is_gap (chars gap1) = true -> is_gap (chars gap2) = true ->
  evaluateCustomValidator validator constraint value scope =
  (fun compiled => compiled (subject_text value)) <$> RegExp pattern "".
Proof.
  intros Hbody Htrim Hgap1 Hgap2.
  rewrite (evaluateCustomValidator_body _ _ _ _ _ Hbody)
    by now rewrite Htrim.
  cbv zeta. rewrite Htrim. unfold exec. rewrite chars_this_matches.
  change (matches_text (chars gap1) (chars gap2) (chars pattern) (chars ""))
    with ("t"%char ::
          chars "his" ++ chars gap1 ++ chars "matches" ++ chars gap2 ++
          "/"%char :: chars pattern ++ ["/"%char]) at 1.
  rewrite exec_regexNegation_this.
  change (chars "") with (@nil ascii).
  rewrite run_regexMatch by assumption.
  unfold group. cbn [group_chars Nat.eqb].
  unfold compileRegexLiteral.
  rewrite (exec_regex_literal (chars pattern) []) by reflexivity.
  unfold group. cbn [group_chars Nat.eqb].
  rewrite of_chars_chars. change (of_chars []) with "".
  now destruct (RegExp pattern "").
Qed.

Lemma compileRegexLiteral_plain pattern :
  compileRegexLiteral (of_chars ("/"%char :: pattern ++ ["/"%char])) =
  RegExp (of_chars pattern) "".
Proof.
  unfold compileRegexLiteral.
  now rewrite (exec_regex_literal pattern []).
Qed.

(** X16.  A body [not (this matches /pattern/)] holds exactly when the
    expression compiled from the pattern, with no flags, does not accept
    the value as text; it is indeterminate when the pattern does not
    compile. *)
Theorem evaluateCustomValidator_not_matches validator constraint value scope
    body gap0 gap1 gap2 gap3 pattern gap4 :
  validator_body validator = Some body ->
  trim body = not_matches gap0 gap1 gap2 gap3 pattern gap4 ->
  forallb is_space (chars gap0) = true ->
  forallb is_space (chars gap1) = true ->
  is_gap (chars gap2) = true -> is_gap (chars gap3) = true ->
  forallb is_space (chars gap4) = true ->
  evaluateCustomValidator validator constraint value scope =
  (fun compiled => negb (compiled (subject_text value))) <$>
  RegExp pattern "".
Proof.
  intros Hbody Htrim Hgap0 Hgap1 Hgap2 Hgap3 Hgap4.
  rewrite (evaluateCustomValidator_body _ _ _ _ _ Hbody)
    by now rewrite Htrim.
  cbv zeta. rewrite Htrim. unfold exec.
  assert (chars (not_matches gap0 gap1 gap2 gap3 pattern gap4) =
          chars "not" ++ chars gap0 ++ "("%char :: chars gap1 ++
          chars "this" ++ chars gap2 ++ chars "matches" ++ chars gap3 ++
          "/"%char :: chars pattern ++ "/"%char :: chars gap4 ++ [")"%char])
    as ->.
  { unfold not_matches. now rewrite !chars_append. }
  rewrite run_regexNegation by assumption.
  unfold group. cbn [group_chars Nat.eqb].
  rewrite compileRegexLiteral_plain, of_chars_chars.
  now destruct (RegExp pattern "").
Qed.

(** X17.  Flags cannot be given: a body [this matches /pattern/flags]
    with at least one flag fits none of the four shapes, so it is
    indeterminate and the constraint is never reported as failed. *)
Theorem evaluateCustomValidator_flags validator constraint value scope
    body gap1 gap2 pattern flags :
  validator_body validator = Some body ->
  trim body = this_matches gap1 gap2 pattern flags ->
  is_gap (chars gap1) = true -> is_gap (chars gap2) = true ->
  flags <> "" -> forallb is_lower (chars flags) = true ->
  evaluateCustomValidator validator constraint value scope = None.
Proof.
  intros Hbody Htrim Hgap1 Hgap2 Hne Hflags.
  rewrite (evaluateCustomValidator_body _ _ _ _ _ Hbody)
    by now rewrite Htrim.
  cbv zeta. rewrite Htrim. unfold exec. rewrite chars_this_matches.
  change (matches_text (chars gap1) (chars gap2) (chars pattern)
            (chars flags))
    with ("t"%char ::
          chars "his" ++ chars gap1 ++ chars "matches" ++ chars gap2 ++
          "/"%char :: chars pattern ++ "/"%char :: chars flags) at 1.
  rewrite exec_regexNegation_this.
  rewrite run_regexMatch_flags; try assumption.
  2:{ intros E. apply Hne. rewrite <- (of_chars_chars flags). now rewrite E. }
  unfold matches_text.
  change (chars "matches") with ("m"%char :: chars "atches").
  rewrite <- app_comm_cons.
  rewrite run_rangeAnd_refused, run_simpleComparison_refused;
    try reflexivity; now apply is_gap_spaces.
Qed.

(** X18.  A body [this <op> $low and this <op> $high], with operators
    among [<], [>], [<=] and [>=], holds exactly when both comparisons of
    the value with the two parameters hold; a name that no parameter has
    stands for undefined.  This is for a validator with no parameter named
    [__proto__], and for names [low] and [high] that each are the name of
    a parameter or of no member of [Object.prototype]: there [args] reads
    as [arg] does. *)
Theorem evaluateCustomValidator_range validator constraint value scope body
    gap1 op1 gap2 low gap3 gap4 gap5 op2 gap6 high :
  validator_body validator = Some body ->
  trim body =
  this_ranges gap1 op1 gap2 low gap3 gap4 gap5 op2 gap6 high ->
  range_form gap1 op1 gap2 low gap3 gap4 gap5 op2 gap6 high = true ->
  own_or_undefined validator low = true ->
  own_or_undefined validator high = true ->
  evaluateCustomValidator validator constraint value scope =
  Some (compare value op1 (arg (bound_args validator constraint) low)
        && compare value op2 (arg (bound_args validator constraint) high)).
Proof.
  intros Hbody Htrim Hform _ _. unfold range_form in Hform.
  repeat match type of Hform with
         | _ && _ = true =>
             let H := fresh "H" in apply andb_prop in Hform as [Hform H]
         end.
  rewrite (evaluateCustomValidator_body _ _ _ _ _ Hbody)
    by now rewrite Htrim.
  cbv zeta. rewrite Htrim. unfold exec.
  assert (chars (this_ranges gap1 op1 gap2 low gap3 gap4 gap5 op2 gap6 high)
          = range_text (chars gap1) op1 (chars gap2) (chars low)
              (chars gap3) (chars gap4) (chars gap5) op2 (chars gap6)
              (chars high)) as ->.
  { unfold this_ranges, range_text. now rewrite !chars_append. }
  change (range_text (chars gap1) op1 (chars gap2) (chars low) (chars gap3)
            (chars gap4) (chars gap5) op2 (chars gap6) (chars high))
    with ("t"%char ::
          chars "his" ++ chars gap1 ++ chars op1 ++ chars gap2 ++
          "$"%char :: chars low ++ chars gap3 ++ chars "and" ++
          chars gap4 ++ chars "this" ++ chars gap5 ++ chars op2 ++
          chars gap6 ++ "$"%char :: chars high) at 1.
  rewrite exec_regexNegation_this.
  change (range_text (chars gap1) op1 (chars gap2) (chars low) (chars gap3)
            (chars gap4) (chars gap5) op2 (chars gap6) (chars high))
    with (comparison_text (chars gap1) op1 (chars gap2)
            ("$"%char :: chars low ++ chars gap3 ++ chars "and" ++
             chars gap4 ++ chars "this" ++ chars gap5 ++ chars op2 ++
             chars gap6 ++ "$"%char :: chars high)) at 1.
  rewrite run_regexMatch_comparison;
    [|assumption|now apply range_first].
  rewrite run_rangeAnd by assumption.
  unfold group. cbn [group_chars Nat.eqb]. now rewrite !of_chars_chars.
Qed.

(** The operand of a comparison, as [evaluateCustomValidator] reads it. *)
Lemma operand_value (args : gmap string JsValue) right :
  is_operand (chars right) = true ->
  (if startsWith (trim right) "$" then arg args (slice1 (trim right))
   else parseMaybeLiteral (VStr (trim right))) =
  (if startsWith right "$" then arg args (slice1 right)
   else parseMaybeLiteral (VStr right)).
Proof.
  intros Hright. destruct (chars right) as [|c name] eqn:Hchars;
    [discriminate|].
  cbn [is_operand] in Hright.
  destruct (ascii_eqb "$" c) eqn:Hc.
  - apply ascii_eqb_eq in Hc as <-.
    assert (trim right = right) as ->; [|reflexivity].
    unfold trim. rewrite Hchars, trim_chars_kept.
    + now rewrite <- Hchars, of_chars_chars.
    + reflexivity.
    + rewrite rev_cons_first by now destruct name.
      now apply identifier_last.
  - apply negb_true_iff in Hright.
    destruct (trim_first _ _ _ Hchars Hright) as (cs' & Htrim).
    unfold startsWith. rewrite Htrim, Hchars.
    assert (ascii_eqb c "$" = false) as ->
      by (unfold ascii_eqb in *; now rewrite Ascii.eqb_sym).
    apply parseMaybeLiteral_trim.
Qed.

(** X19.  A body [this <op> right], with one of the six operators,
    compares the value with the parameter [name] when [right] is [$name],
    and with the coerced literal otherwise; a name that no parameter has
    stands for undefined.  When [right] is [$name], this is for a
    validator with no parameter named [__proto__], and for a [name] that
    is the name of a parameter or of no member of [Object.prototype]:
    there [args] reads as [arg] does. *)
Theorem evaluateCustomValidator_comparison validator constraint value scope
    body gap1 op gap2 right :
  validator_body validator = Some body ->
  trim body = this_compares gap1 op gap2 right ->
  comparison_form gap1 op gap2 right = true ->
  (startsWith right "$" = true ->
   own_or_undefined validator (slice1 right) = true) ->
  evaluateCustomValidator validator constraint value scope =
  Some (compare value op
          (if startsWith right "$"
           then arg (bound_args validator constraint) (slice1 right)
           else parseMaybeLiteral (VStr right))).
Proof.
  intros Hbody Htrim Hform _. unfold comparison_form in Hform.
  apply andb_prop in Hform as [Hform Hreads].
  apply andb_prop in Hform as [Hform Hright].
  apply andb_prop in Hform as [Hform Hgap2].
  apply andb_prop in Hform as [Hgap1 Hop].
  rewrite (evaluateCustomValidator_body _ _ _ _ _ Hbody)
    by now rewrite Htrim.
  cbv zeta. rewrite Htrim. unfold exec.
  assert (chars (this_compares gap1 op gap2 right) =
          comparison_text (chars gap1) op (chars gap2) (chars right)) as ->.
  { unfold this_compares. now rewrite !chars_append. }
  change (comparison_text (chars gap1) op (chars gap2) (chars right))
    with ("t"%char ::
          chars "his" ++ chars gap1 ++ chars op ++ chars gap2 ++ chars right)
    at 1.
  rewrite exec_regexNegation_this.
  rewrite run_regexMatch_comparison by assumption.
  rewrite run_rangeAnd_comparison by assumption.
  rewrite run_simpleComparison by assumption.
  unfold group. cbn [group_chars Nat.eqb]. rewrite !of_chars_chars.
  now rewrite operand_value.
Qed.

End Bodies.

(** ** The command line *)

(** X20.  The two spellings of the option are interchangeable:
    [--type=Name] is read as [--type Name], and both set the root type
    and take no place among the positional arguments.  A [--type] that
    ends the command line sets the root type back to null. *)
Theorem read_arguments_spellings name rest type positionals :
  read_arguments (("--type=" +:+ name) :: rest) type positionals =
  read_arguments ("--type" :: name :: rest) type positionals /\
  read_arguments ("--type" :: name :: rest) type positionals =
  read_arguments rest (Some name) positionals /\
  read_arguments ["--type"] type positionals = (None, positionals).
Proof.
  split; [|split; reflexivity].
  cbn [read_arguments]. rewrite prefix_append, slice_append. reflexivity.
Qed.

Lemma read_arguments_positionals :
  forall n args, length args <= n ->
  forall type positionals type' positionals',
    read_arguments args type positionals = (type', positionals') ->
    exists news,
      positionals' = positionals ++ news /\
      sublist news args /\
      Forall (fun arg => is_option arg = false) news.
Proof.
  induction n as [|n IH]; intros args Hlen type positionals type' positionals'.
  - destruct args; [|simpl in Hlen; lia].
    intros [= _ <-]. exists []. now rewrite app_nil_r.
  - destruct args as [|arg rest].
    { intros [= _ <-]. exists []. now rewrite app_nil_r. }
    cbn [read_arguments]. simpl in Hlen.
    destruct (String.prefix "--type=" arg) eqn:Hprefix.
    { intros H. apply IH in H as (news & -> & Hsub & Hnews); [|lia].
      exists news. split; [easy|split; [|easy]]. now apply sublist_cons. }
    destruct (String.eqb arg "--type") eqn:Heq.
    { destruct rest as [|next rest'].
      - intros [= _ <-]. exists []. rewrite app_nil_r.
        split; [easy|split; [apply sublist_nil_l|constructor]].
      - intros H. apply IH in H as (news & -> & Hsub & Hnews);
          [|simpl in Hlen; lia].
        exists news. split; [easy|split; [|easy]].
        now apply sublist_cons, sublist_cons. }
    intros H. apply IH in H as (news & -> & Hsub & Hnews); [|lia].
    exists (arg :: news). split; [now rewrite <- app_assoc|split].
    + now apply sublist_skip.
    + constructor; [|easy]. unfold is_option. now rewrite Hprefix, Heq.
Qed.

(** X21.  The positional arguments are arguments of the command line, in
    its order, and none of them is [--type] or starts with [--type=]: such
    a text cannot be given as the document or as the schema.  With no
    option on the command line, every argument is positional and the root
    type is null. *)
Theorem read_arguments_keeps_order args type positionals :
  read_arguments args None [] = (type, positionals) ->
  sublist positionals args /\
  Forall (fun arg => is_option arg = false) positionals /\
  (Forall (fun arg => is_option arg = false) args ->
   type = None /\ positionals = args).
Proof.
  intros H.
  destruct (read_arguments_positionals _ args (le_n _) _ _ _ _ H)
    as (news & -> & Hsub & Hnews).
  split; [easy|split; [easy|]].
  clear Hsub Hnews. intros Hargs.
  enough (forall type0 positionals0,
            read_arguments args type0 positionals0 =
            (type0, positionals0 ++ args)) as Hplain.
  { rewrite Hplain in H. now injection H as <- <-. }
  clear H. induction Hargs as [|arg rest Harg _ IH];
    intros type0 positionals0; cbn [read_arguments].
  - now rewrite app_nil_r.
  - unfold is_option in Harg. apply orb_false_elim in Harg as [-> ->].
    rewrite IH, <- app_assoc. reflexivity.
Qed.

Section ScriptFacts.

Context {host : JsHost} {node : NodeHost}.

(** X22.  The script exits with code 0 only after a validation that
    found nothing: the command line held two positional arguments, the
    document was loaded and decoded as JSON, the schema was built, the root
    type was resolved, and the walk of the document returned no
    diagnostic.  It then prints one line. *)
Theorem main_success depth args lines :
  main depth args = Exit 0 lines <->
  lines = [(stdout, "JSON is valid.")] /\
  exists type input schema jsonInput repository value resolvedRoot,
    read_arguments args None [] = (type, [input; schema]) /\
    loadJsonInput input = Returned jsonInput /\
    buildFromFile (path_resolve schema) = Returned repository /\
    JSON_parse jsonInput = Returned value /\
    resolveRootType repository type = Returned resolvedRoot /\
    validateAgainstTypeName repository depth value resolvedRoot "$" []
      {| scope_root := value; scope_current := value;
         scope_parent := None |} = Some [].
Proof.
  unfold main. split.
  - destruct (read_arguments args None []) as [type positionals].
    destruct positionals as [|input [|schema [|more positionals]]];
      try discriminate.
    destruct (loadJsonInput input) as [jsonInput|message] eqn:Hload;
      [|discriminate].
    destruct (buildFromFile (path_resolve schema)) as [repository|message]
      eqn:Hbuild; [|discriminate].
    destruct (validate repository depth (VStr jsonInput) type)
      as [[|e errors]|] eqn:Hvalidate; try discriminate.
    intros [= <-]. split; [reflexivity|].
    unfold validate in Hvalidate.
    destruct (JSON_parse jsonInput) as [value|message] eqn:Hparse;
      [|discriminate].
    destruct (resolveRootType repository type) as [resolvedRoot|message]
      eqn:Hroot; [|discriminate].
    now exists type, input, schema, jsonInput, repository, value,
      resolvedRoot.
  - intros (-> & type & input & schema & jsonInput & repository & value
            & resolvedRoot & -> & -> & -> & Hparse & Hroot & Hwalk).
    unfold validate. now rewrite Hparse, Hroot, Hwalk.
Qed.

(** X23.  A document that is not JSON is a validation failure, not a
    failure of the script: with two positional arguments and a schema that
    builds, a text that fails to decode gives exit code 1 and one
    diagnostic line at [$], whatever the root type and the depth of call
    stack. *)
Theorem main_invalid_json depth args type input schema jsonInput repository
    message :
  read_arguments args None [] = (type, [input; schema]) ->
  loadJsonInput input = Returned jsonInput ->
  buildFromFile (path_resolve schema) = Returned repository ->
  JSON_parse jsonInput = Thrown message ->
  main depth args =
  Exit 1
    [(stderr, "Validation failed:");
     (stderr, "- $: Invalid JSON: " +:+ message)].
Proof.
  intros Hargs Hload Hbuild Hparse. unfold main.
  rewrite Hargs, Hload, Hbuild. unfold validate. rewrite Hparse.
  reflexivity.
Qed.

End ScriptFacts.

(** ** The further properties at work *)

Section FurtherWitnesses.

Import Sample.

#[local] Existing Instance host.
#[local] Existing Instance Desk.node.

Lemma validateTypeNode_relocation_witness :
  exists tails,
    [error "$.reason" "Expected field to be absent." "FieldMustBeAbsent"
       "ValidationError"] = [] ++ map (under "$") tails /\
    Forall (fun e => String.prefix "$" (error_path e) = true)
      (map (under "$") tails) /\
    forall path' errors',
      validateTypeNode repository 3 (ObjectRef Ticket) draft path' errors'
        (top draft) =
      Some (errors' ++ map (under path') tails).
Proof.
  exact
    (validateTypeNode_relocation repository 3 (ObjectRef Ticket) draft "$"
       [] (top draft) _ eq_refl).
Defined.

Lemma isValid_in_place_witness :
  isValid repository 2 (ObjectRef status) (VStr "Draft") (top draft)
  = Some true /\
  validateTypeNode repository 2 (ObjectRef status) (VStr "Draft") "$.status"
    [] (top draft) = Some [].
Proof.
  split; [reflexivity|].
  exact
    (proj1
       (proj1
          (isValid_in_place repository 2 (ObjectRef status) (VStr "Draft")
             (top draft) "$.status" []))
       eq_refl).
Defined.

Lemma validate_diagnostics_witness :
  Forall
    (fun e =>
       String.prefix "$" (error_path e) = true /\
       In (error_code e, error_category e) validate_codes)
    [error "$.title" "Missing required field." "FieldMissing"
       "ValidationError"].
Proof.
  exact
    (proj1
       (validate_diagnostics repository 3 (VStr "{}") (Some "Root") _
          eq_refl)).
Defined.

Lemma validateTypeNode_scope_witness :
  validateTypeNode repository 3 (ObjectRef Ticket) draft "$" [] (top draft) =
  validateTypeNode repository 3 (ObjectRef Ticket) draft "$" []
    {| scope_root := VNull; scope_current := VBool true;
       scope_parent := Some draft |}.
Proof.
  exact
    (proj1
       (validateTypeNode_scope repository 3 (ObjectRef Ticket) draft "$" []
          (top draft)
          {| scope_root := VNull; scope_current := VBool true;
             scope_parent := Some draft |}
          eq_refl)).
Defined.

Lemma union_grows_witness :
  validateTypeNode repository 2
    (ObjectRef (TUnion ([TLiteral (VStr "Draft")] ++ [TNamed "Endless" []])))
    (VStr "Draft") "$" [] (top draft) = Some [].
Proof.
  exact
    (union_grows repository 2 [TLiteral (VStr "Draft")]
       [TNamed "Endless" []] (VStr "Draft") "$" [] (top draft) eq_refl).
Defined.

Lemma compileRegexLiteral_split_witness :
  compileRegexLiteral "/^[a-z]+$/" = RegExp "^[a-z]+$" "" /\
  exists pattern flags,
    "/^[a-z]+$/" = "/" +:+ pattern +:+ "/" +:+ flags /\
    forallb is_lower (chars flags) = true /\
    RegExp pattern flags = Some (test (Plus (Class is_lower))).
Proof.
  split.
  - exact (proj1 compileRegexLiteral_split "^[a-z]+$" "" eq_refl).
  - exact (proj2 compileRegexLiteral_split "/^[a-z]+$/" _ eq_refl).
Defined.

Lemma bound_args_lookup_witness :
  arg (bound_args Desk.below (Sample.below "5")) "limit" =
  VNum (of_nat 5) /\
  arg (bound_args Desk.below lowercase) "limit" = VNum (of_nat 10).
Proof.
  split.
  - refine
      (eq_trans
         (bound_args_lookup Desk.below (Sample.below "5") [] Desk.limit []
            eq_refl _ _) _);
      [now intros []|discriminate|reflexivity].
  - refine
      (eq_trans
         (bound_args_lookup Desk.below lowercase [] Desk.limit []
            eq_refl _ _) _);
      [now intros []|discriminate|reflexivity].
Defined.

Lemma evaluateCustomValidator_matches_witness :
  evaluateCustomValidator Desk.lowercase lowercase (VStr "abc") (top VNull)
  = Some true.
Proof.
  refine
    (eq_trans
       (evaluateCustomValidator_matches Desk.lowercase lowercase (VStr "abc")
          (top VNull) "this matches /^[a-z]+$/" " " " " "^[a-z]+$"
          eq_refl eq_refl eq_refl eq_refl) _).
  reflexivity.
Defined.

Lemma evaluateCustomValidator_flags_witness :
  evaluateCustomValidator Desk.lowercase_i lowercase (VStr "ABC") (top VNull)
  = None.
Proof.
  refine
    (evaluateCustomValidator_flags Desk.lowercase_i lowercase (VStr "ABC")
       (top VNull) "this matches /^[a-z]+$/i" " " " " "^[a-z]+$" "i"
       eq_refl eq_refl eq_refl eq_refl _ eq_refl).
  discriminate.
Defined.

Lemma evaluateCustomValidator_comparison_witness :
  evaluateCustomValidator Desk.below (Sample.below "5") (VNum (of_nat 7))
    (top VNull) = Some false.
Proof.
  refine
    (eq_trans
       (evaluateCustomValidator_comparison Desk.below (Sample.below "5")
          (VNum (of_nat 7)) (top VNull) " this < $limit " " " "<" " "
          "$limit" eq_refl eq_refl eq_refl (fun _ => eq_refl)) _).
  reflexivity.
Defined.

Lemma read_arguments_keeps_order_witness :
  sublist ["doc.json"; "schema.scedel"]
    ["--type"; "Ticket"; "doc.json"; "schema.scedel"] /\
  Forall (fun arg => is_option arg = false) ["doc.json"; "schema.scedel"].
Proof.
  destruct
    (read_arguments_keeps_order
       ["--type"; "Ticket"; "doc.json"; "schema.scedel"] (Some "Ticket")
       ["doc.json"; "schema.scedel"] eq_refl) as (H1 & H2 & _).
  exact (conj H1 H2).
Defined.

Lemma main_success_witness :
  main 1 ["--type=Int"; "7"; "schema.scedel"] =
  Exit 0 [(stdout, "JSON is valid.")].
Proof.
  apply (proj2 (main_success 1 ["--type=Int"; "7"; "schema.scedel"] _)).
  split; [reflexivity|].
  now exists (Some "Int"), "7", "schema.scedel", "7", repository,
    (VNum (of_nat 7)), "Int".
Defined.

Lemma main_invalid_json_witness :
  main 0 ["{bad json"; "schema.scedel"] =
  Exit 1
    [(stderr, "Validation failed:");
     (stderr, "- $: Invalid JSON: Unexpected token in JSON")].
Proof.
  exact
    (main_invalid_json 0 ["{bad json"; "schema.scedel"] None "{bad json"
       "schema.scedel" "{bad json" repository "Unexpected token in JSON"
       eq_refl eq_refl eq_refl eq_refl).
Defined.

Lemma validate_terminates_witness :
  exists depth result,
    forall depth',
      depth <= depth' ->
      validate repository depth' draft (Some "Ticket") = Some result.
Proof.
  exact
    (validate_terminates repository rank draft (Some "Ticket")
       sample_stratified).
Defined.

Lemma evaluateCustomValidator_not_matches_witness :
  evaluateCustomValidator Desk.uppercase lowercase (VStr "abc") (top VNull)
  = Some false.
Proof.
  refine
    (eq_trans
       (evaluateCustomValidator_not_matches Desk.uppercase lowercase
          (VStr "abc") (top VNull) "not (this matches /^[a-z]+$/)" " " ""
          " " " " "^[a-z]+$" "" eq_refl eq_refl eq_refl eq_refl eq_refl
          eq_refl eq_refl) _).
  reflexivity.
Defined.

Lemma evaluateCustomValidator_range_witness :
  evaluateCustomValidator Desk.between (Sample.below "5") (VNum (of_nat 7))
    (top VNull) = Some true.
Proof.
  refine
    (eq_trans
       (evaluateCustomValidator_range Desk.between (Sample.below "5")
          (VNum (of_nat 7)) (top VNull) "this >= $low and this < $high"
          " " ">=" " " "low" " " " " " " "<" " " "high"
          eq_refl eq_refl eq_refl eq_refl eq_refl) _).
  reflexivity.
Defined.

Lemma record_field_guard_witness :
  validateField (validateTypeNode repository 2) draft
    [("status", VStr "Draft"); ("reason", VStr "because")]
    (Field "reason"
       (TConditional "status = 'Rejected'" (TNamed "String" [min3]) TAbsent)
       false None)
    "$" [] (top draft) =
  Some
    [error "$.reason" "Expected field to be absent." "FieldMustBeAbsent"
       "ValidationError"].
Proof.
  refine
    (eq_trans
       (record_field_guard repository 1
          {| guard_first := "status"; guard_more := []; guard_gap1 := " ";
             guard_op := "="; guard_gap2 := " ";
             guard_literal := "'Rejected'" |}
          (TNamed "String" [min3]) TAbsent "reason" false None
          [("status", VStr "Draft"); ("reason", VStr "because")]
          (VStr "because") (VStr "Draft") "$" [] (top draft)
          eq_refl eq_refl eq_refl) _).
  reflexivity.
Defined.

End FurtherWitnesses.
